(** * ThermodynamicsSimulator: the conduction kernel and the propagator

    A shallow embedding of [simulation/heat_conductor.py] and
    [simulation/propagator.py].

    - Temperatures are Python/NumPy floats.  The arithmetic the two classes
      use is collected in the interface [Number]; its instance [float_Number]
      is IEEE 754 binary64 (Rocq's primitive floats: the arithmetic the
      program runs), and [Q_Number] is exact rational arithmetic (the
      arithmetic the algebra of the formula is done in).
    - The lattice is a NumPy array of shape (n, n, n): a list of lists of
      lists, indexed as NumPy does (a negative index counts from the end,
      anything else out of range raises IndexError).
    - Python exceptions are the [Err] results of the [result] monad.
    - [random.shuffle] draws from the process-wide generator: the generator
      state [rng] is threaded through the run, and [shuffle] is any function
      from a generator state and a list to a list and the next state. *)

From Stdlib Require Import ZArith QArith Qabs Qfield Floats Lia Lqa.
From stdpp Require Import base list relations.

Set Warnings "-inexact-float".

Local Open Scope Z_scope.

(** ** Exceptions *)

Inductive exception : Type :=
| ValueError          (* np.full with a negative dimension *)
| IndexError          (* an index out of range: cube[...] or cube_states[-1] *)
| ZeroDivisionError.  (* propagation_index % 0 *)

Inductive result (A : Type) : Type :=
| Ok (a : A)
| Err (e : exception).
Arguments Ok {A} a.
Arguments Err {A} e.

#[global] Instance result_ret : MRet result := @Ok.
#[global] Instance result_bind : MBind result := λ A B f m,
  match m with
  | Ok a => f a
  | Err e => Err e
  end.

Definition raises {A} (m : result A) : Prop := ∃ e, m = Err e.

(** A Python [for x in l: body] over a state that may raise. *)
Fixpoint for_each {A S : Type} (body : A → S → result S) (l : list A) (s : S)
  : result S :=
  match l with
  | [] => Ok s
  | x :: l' => s' ← body x s; for_each body l' s'
  end.

(** ** Numbers *)

Declare Scope num_scope.
Delimit Scope num_scope with num.

Class Number (T : Type) : Type := {
  num_zero : T;
  num_add : T → T → T;
  num_sub : T → T → T;
  num_mul : T → T → T;
  num_div : T → T → T;
  num_neg : T → T;
  num_abs : T → T;
  num_ltb : T → T → bool;
  num_leb : T → T → bool;
  num_eqb : T → T → bool;
  num_isfinite : T → bool
}.

Notation "0" := num_zero : num_scope.
Infix "+" := num_add : num_scope.
Infix "-" := num_sub : num_scope.
Infix "*" := num_mul : num_scope.
Infix "/" := num_div : num_scope.
Notation "- x" := (num_neg x) : num_scope.
Infix "<?" := num_ltb : num_scope.
Infix "<=?" := num_leb : num_scope.
Infix "=?" := num_eqb : num_scope.
Notation "x >? y" := (num_ltb y x) (only parsing) : num_scope.
Notation "x >=? y" := (num_leb y x) (only parsing) : num_scope.

(** binary64, as CPython and NumPy compute: no operation raises (the
    propagator hands the kernel NumPy scalars, for which a division by zero
    gives an infinity or a NaN), comparisons with a NaN are false. *)
#[global] Instance float_Number : Number float := {|
  num_zero := 0%float;
  num_add := PrimFloat.add;
  num_sub := PrimFloat.sub;
  num_mul := PrimFloat.mul;
  num_div := PrimFloat.div;
  num_neg := PrimFloat.opp;
  num_abs := PrimFloat.abs;
  num_ltb := PrimFloat.ltb;
  num_leb := PrimFloat.leb;
  num_eqb := PrimFloat.eqb;
  num_isfinite := PrimFloat.is_finite
|}.

(** Exact arithmetic.  [Qdiv x 0] is 0 where Python raises: statements over
    [Q] assume the divisors are not zero. *)
#[global] Instance Q_Number : Number Q := {|
  num_zero := 0%Q;
  num_add := Qplus;
  num_sub := Qminus;
  num_mul := Qmult;
  num_div := Qdiv;
  num_neg := Qopp;
  num_abs := Qabs;
  num_ltb := λ x y, negb (Qle_bool y x);
  num_leb := Qle_bool;
  num_eqb := Qeq_bool;
  num_isfinite := λ _, true
|}.

(** ** simulation/heat_conductor.py *)

Module HeatConductor.
Section HeatConductor.
Context {T : Type} `{Number T}.

(** [HeatConductor.__init__] stores its seven arguments, in the order of
    its signature. *)
Record t : Type := __init__ {
  k : T;
  c_p : T;
  rho : T;
  min_delta : T;
  conduction_time : T;
  delta_x : T;
  a : T
}.

Local Open Scope num_scope.

(** Lines 41-51: the local [delta_temp] of [calculate_temperature_change]. *)
Definition delta_temp (self : t) (initial_temp neighbour_temp : T) : T :=
  let q := - k self * a self * (initial_temp - neighbour_temp) / delta_x self in
  let delta_q := q * conduction_time self in
  let mass := rho self * a self * delta_x self in
  delta_q / (mass * c_p self).

Definition calculate_temperature_change (self : t)
    (initial_temp neighbour_temp : T) : T :=
  let delta_temp := delta_temp self initial_temp neighbour_temp in
  if num_abs delta_temp <? min_delta self then 0 else delta_temp.

End HeatConductor.
Arguments t T : clear implicits.
End HeatConductor.

(** ** The lattice: a NumPy array of shape (n, n, n) *)

Definition coord : Type := Z * Z * Z.

Section Lattice.
Context {T : Type}.

Definition lattice : Type := list (list (list T)).

(** [np.full((n, n, n), v)] *)
Definition np_full (n : Z) (v : T) : result lattice :=
  if n <? 0 then Err ValueError
  else Ok (replicate (Z.to_nat n) (replicate (Z.to_nat n) (replicate (Z.to_nat n) v))).

(** An index along an axis of length [len]: [i] itself when it is in
    [0, len), [i + len] when it is in [-len, 0), IndexError otherwise. *)
Definition axis_index (len : nat) (i : Z) : result nat :=
  if (0 <=? i) && (i <? Z.of_nat len) then Ok (Z.to_nat i)
  else if (- Z.of_nat len <=? i) && (i <? 0) then Ok (Z.to_nat (i + Z.of_nat len))
  else Err IndexError.

Definition getitem {A : Type} (l : list A) (i : Z) : result A :=
  j ← axis_index (length l) i;
  match l !! j with
  | Some x => Ok x
  | None => Err IndexError
  end.

Definition setitem {A : Type} (l : list A) (i : Z) (x : A) : result (list A) :=
  j ← axis_index (length l) i;
  Ok (<[j:=x]> l).

(** [cube[x, y, z]] *)
Definition cube_get (cube : lattice) (c : coord) : result T :=
  let '(x, y, z) := c in
  plane ← getitem cube x;
  row ← getitem plane y;
  getitem row z.

(** [cube[x, y, z] = v] *)
Definition cube_set (cube : lattice) (c : coord) (v : T) : result lattice :=
  let '(x, y, z) := c in
  plane ← getitem cube x;
  row ← getitem plane y;
  row' ← setitem row z v;
  plane' ← setitem plane y row';
  setitem cube x plane'.

(** [cube.shape == (n, n, n)] *)
Definition has_shape (n : nat) (cube : lattice) : Prop :=
  length cube = n ∧
  Forall (λ plane, length plane = n ∧ Forall (λ row : list T, length row = n) plane) cube.

End Lattice.
Arguments lattice T : clear implicits.

(** ** simulation/propagator.py *)

Module Propagator.
Section Propagator.
Context {T : Type} `{Number T}.
(** The state of Python's random generator and [random.shuffle]. *)
Context {rng : Type} (shuffle : rng → list coord → list coord * rng).

Record t : Type := Build {
  cube_size : Z;
  origin : coord;
  start_temp : T;
  end_temp : T;
  increment : T;
  delay : Z;
  max_iterations : Z;
  delta_tolerance : T;
  heat_conductor : HeatConductor.t T
}.

(** [Propagator.__init__]: nine assignments to [self], nothing else. *)
Definition __init__ (cube_size : Z) (origin : coord)
    (start_temp end_temp increment : T) (delay max_iterations : Z)
    (delta_tolerance : T) (heat_conductor : HeatConductor.t T) : result t :=
  Ok (Build cube_size origin start_temp end_temp increment delay
            max_iterations delta_tolerance heat_conductor).

(** The local variables of [propagate] that live across the loop, and the
    generator. *)
Record state : Type := State {
  cube : lattice T;
  cube_states : list (lattice T);
  directions : list coord;
  propagation_queues : list (list coord);
  propagation_index : Z;
  iterations : Z;
  gen : rng
}.

Definition with_cube (c : lattice T) (st : state) : state :=
  State c (cube_states st) (directions st) (propagation_queues st)
        (propagation_index st) (iterations st) (gen st).

Definition with_queues (qs : list (list coord)) (st : state) : state :=
  State (cube st) (cube_states st) (directions st) qs
        (propagation_index st) (iterations st) (gen st).

(** [propagation_queues[i]] *)
Definition queue_at (i : nat) (st : state) : result (list coord) :=
  match propagation_queues st !! i with
  | Some q => Ok q
  | None => Err IndexError
  end.

(** [propagation_queues[i].append(c)] *)
Definition queue_append (i : nat) (c : coord) (st : state) : result state :=
  q ← queue_at i st;
  Ok (with_queues (<[i := q ++ [c]]> (propagation_queues st)) st).

(** [cube[c] += d] and [cube[c] -= d] *)
Definition cube_iadd (c : coord) (d : T) (st : state) : result state :=
  v ← cube_get (cube st) c;
  cube' ← cube_set (cube st) c (v + d)%num;
  Ok (with_cube cube' st).

Definition cube_isub (c : coord) (d : T) (st : state) : result state :=
  v ← cube_get (cube st) c;
  cube' ← cube_set (cube st) c (v - d)%num;
  Ok (with_cube cube' st).

(** NumPy's [isclose(x, y, rtol, atol)] on scalars, after its definition:
    [less_equal(abs(x - y), atol + rtol * abs(y)) & isfinite(y) | (x == y)]. *)
Definition isclose (x y rtol atol : T) : bool :=
  ((num_abs (x - y) <=? atol + rtol * num_abs y) && num_isfinite y
   || (x =? y))%num.

(** [np.all(np.isclose(cube, self.end_temp, rtol=0, atol=self.delta_tolerance))] *)
Definition all_close (self : t) (cube : lattice T) : bool :=
  forallb (forallb (forallb
    (λ x, isclose x (end_temp self) 0%num (delta_tolerance self)))) cube.

(** Lines 82-89: the reheat of the origin and the new queue. *)
Definition reheat_seed (self : t) (st : state) : result state :=
  if delay self =? 0 then Err ZeroDivisionError
  else if propagation_index st `mod` delay self =? 0 then
    v ← cube_get (cube st) (origin self);
    st1 ← (if (v <? end_temp self)%num
           then cube_iadd (origin self) (increment self) st
           else Ok st);
    Ok (with_queues (propagation_queues st1 ++ [[origin self]]) st1)
  else if propagation_index st <? delay self then
    Ok (with_queues (propagation_queues st ++ [[origin self]]) st)
  else Ok st.

Definition in_range (self : t) (v : Z) : bool :=
  (0 <=? v) && (v <? cube_size self).

(** Lines 111-137: one direction out of the cell [c] popped from queue [i]. *)
Definition visit (self : t) (i : nat) (c : coord) (d : coord) (st : state)
  : result state :=
  let '(x, y, z) := c in
  let '(dx, dy, dz) := d in
  let '(nx, ny, nz) := (x + dx, y + dy, z + dz) in
  if in_range self nx && in_range self ny && in_range self nz then
    cur ← cube_get (cube st) (x, y, z);
    nb ← cube_get (cube st) (nx, ny, nz);
    if (cur >? nb)%num then
      let diff :=
        HeatConductor.calculate_temperature_change (heat_conductor self) cur nb in
      q ← queue_at i st;
      if (diff <? 0)%num && negb (bool_decide ((nx, ny, nz) ∈ q)) then
        st1 ← cube_isub (nx, ny, nz) diff st;
        st2 ← cube_iadd (x, y, z) diff st1;
        queue_append i (nx, ny, nz) st2
      else if (diff >=? 0)%num && negb (bool_decide ((x, y, z) ∈ q)) then
        st1 ← cube_iadd (nx, ny, nz) diff st;
        st2 ← cube_isub (x, y, z) diff st1;
        queue_append i (x, y, z) st2
      else Ok st
    else Ok st
  else Ok st.

(** [random.shuffle(directions)]: the list is shuffled in place. *)
Definition shuffle_directions (st : state) : state :=
  let '(dirs, g) := shuffle (gen st) (directions st) in
  State (cube st) (cube_states st) dirs (propagation_queues st)
        (propagation_index st) (iterations st) g.

(** Lines 100-137: [popleft], the shuffle and the six directions. *)
Definition process_cell (self : t) (i : nat) (st : state) : result state :=
  q ← queue_at i st;
  match q with
  | [] => Ok st
  | c :: q' =>
    let st1 := with_queues (<[i := q']> (propagation_queues st)) st in
    let st2 := shuffle_directions st1 in
    for_each (visit self i c) (directions st2) st2
  end.

(** Lines 140-142: [propagation_queues.pop(i)] when the queue is empty. *)
Definition drop_if_empty (i : nat) (st : state) : result state :=
  q ← queue_at i st;
  match q with
  | [] => Ok (with_queues (delete i (propagation_queues st)) st)
  | _ => Ok st
  end.

Definition process_queue (self : t) (i : nat) (st : state) : result state :=
  st1 ← process_cell self i st;
  drop_if_empty i st1.

(** [for queue in propagation_queues: queue.clear()] *)
Definition clear_queues (st : state) : state :=
  with_queues ((λ _, []) <$> propagation_queues st) st.

(** [cube_states.append(cube.copy()); propagation_index += 1] *)
Definition record (st : state) : state :=
  State (cube st) (cube_states st ++ [cube st]) (directions st)
        (propagation_queues st) (propagation_index st + 1) (iterations st)
        (gen st).

(** [iterations += 1] *)
Definition tick (st : state) : state :=
  State (cube st) (cube_states st) (directions st) (propagation_queues st)
        (propagation_index st) (iterations st + 1) (gen st).

(** The body of the [while] loop; the boolean tells whether it left the
    loop by [break]. *)
Definition step (self : t) (st : state) : result (state * bool) :=
  st1 ← reheat_seed self (tick st);
  if all_close self (cube st1) then Ok (clear_queues st1, true)
  else
    st2 ← for_each (process_queue self)
             (reverse (seq 0 (length (propagation_queues st1)))) st1;
    Ok (record st2, false).

(** [while propagation_queues and iterations < max_iterations] *)
Definition guard (self : t) (st : state) : bool :=
  negb (bool_decide (propagation_queues st = [])) &&
  (iterations st <? max_iterations self).

(** The loop runs at most [max_iterations - iterations] times, which is
    what [fuel] counts: [run_loop_fuel] below shows that the result does
    not depend on it once it is that large. *)
Fixpoint run_loop (self : t) (fuel : nat) (st : state) : result state :=
  if guard self st then
    match fuel with
    | O => Ok st
    | S fuel' =>
      '(st', broke) ← step self st;
      if broke : bool then Ok st' else run_loop self fuel' st'
    end
  else Ok st.

(** Lines 57-76 *)
Definition initial_state (self : t) (g : rng) : result state :=
  cube0 ← np_full (cube_size self) (start_temp self);
  cube1 ← cube_set cube0 (origin self) (start_temp self + increment self)%num;
  Ok (State cube1 []
            [(1, 0, 0); (-1, 0, 0); (0, 1, 0); (0, -1, 0); (0, 0, 1); (0, 0, -1)]
            [[origin self]] 0 0 g).

(** Lines 148-152: [print(cube_states[-1])], then [return cube_states]
    (what is printed is not modelled, the failing index is). *)
Definition finish (st : state) : result (list (lattice T)) :=
  _ ← getitem (cube_states st) (-1);
  Ok (cube_states st).

Definition propagate (self : t) (g : rng) : result (list (lattice T)) :=
  st0 ← initial_state self g;
  st ← run_loop self (Z.to_nat (max_iterations self)) st0;
  finish st.

End Propagator.
Arguments t T : clear implicits.
Arguments state T rng : clear implicits.
End Propagator.

(** ** Instances to run the model on *)

(** A shuffle that leaves the list as it is (one of the 720 outcomes of
  [random.shuffle], at every call). *)
Definition keep_order (g : unit) (l : list coord) : list coord * unit := (l, g).

(** A scripted generator: the outcomes of the coming shuffles, as
  rearrangements of the list by position (a missing script keeps the
  order). *)
Definition scripted (g : list (list nat)) (l : list coord)
: list coord * list (list nat) :=
match g with
| [] => (l, [])
| p :: g' => (omap (λ i, l !! i) p, g')
end.

(** [HeatConductor()] with the defaults of its signature. *)
Definition aluminium : HeatConductor.t float :=
(HeatConductor.__init__ 237 900 2700 1e-5 1 1 1)%float.

(** [Propagator(cube_size=2, origin=(0, 0, 0), start_temp=0, end_temp=1,
  increment=1, delay, max_iterations, delta_tolerance=0.05,
  heat_conductor=HeatConductor())]: the scenario of the specification,
  with the delay and the cap left open. *)
Definition scenario (delay max_iterations : Z) : Propagator.t float :=
Propagator.Build 2 (0, 0, 0) 0%float 1%float 1%float delay max_iterations
                 0.05%float aluminium.

(** * Properties *)

(** ** The [result] monad *)

Lemma bind_Ok {A B} (m : result A) (f : A → result B) (b : B) :
m ≫= f = Ok b ↔ ∃ a, m = Ok a ∧ f a = Ok b.
Proof.
destruct m as [a|e]; simpl; split.
- intros Hf. by exists a.
- by intros (a' & [= <-] & Hf).
- done.
- by intros (a' & [=] & _).
Qed.

Lemma bind_Err {A B} (m : result A) (f : A → result B) (e : exception) :
m ≫= f = Err e ↔ m = Err e ∨ ∃ a, m = Ok a ∧ f a = Err e.
Proof.
destruct m as [a|e']; simpl; split.
- intros Hf. right. by exists a.
- by intros [[=] | (a' & [= <-] & Hf)].
- intros [= ->]. by left.
- by intros [[= ->] | (a' & [=] & _)].
Qed.

Ltac inv_result :=
repeat match goal with
| H : _ ≫= _ = Ok _ |- _ =>
  let r := fresh "r" in let Hr := fresh "H" r in
  apply bind_Ok in H as (r & Hr & H)
| H : Ok _ = Ok _ |- _ => injection H as H; try subst
| H : Err _ = Ok _ |- _ => discriminate H
| H : Ok _ = Err _ |- _ => discriminate H
end.

Lemma for_each_app {A S} (body : A → S → result S) (l1 l2 : list A) (s : S) :
for_each body (l1 ++ l2) s = s' ← for_each body l1 s; for_each body l2 s'.
Proof.
revert s. induction l1 as [|x l1 IH]; intros s; simpl; [done|].
destruct (body x s) as [s1|e]; simpl; [apply IH | done].
Qed.

(** An invariant of the body is an invariant of the loop. *)
Lemma for_each_invariant {A S} (body : A → S → result S) (P : S → Prop) l s s' :
(∀ x t t', x ∈ l → P t → body x t = Ok t' → P t') →
P s → for_each body l s = Ok s' → P s'.
Proof.
revert s. induction l as [|x l IH]; intros s Hbody Hs Hrun; simpl in Hrun.
- by inv_result.
- inv_result. eapply IH; [| |done].
  + intros y t t' Hy. apply Hbody. by right.
  + eapply Hbody; [by left | done..].
Qed.

Lemma for_each_rtc {A S} (body : A → S → result S) (R : relation S)
  (P : S → Prop) l s s' :
(∀ x t t', P t → body x t = Ok t' → rtc R t t' ∧ P t') →
P s → for_each body l s = Ok s' → rtc R s s' ∧ P s'.
Proof.
intros Hbody. revert s. induction l as [|x l IH]; intros s Hs Hrun; simpl in Hrun.
- by inv_result.
- inv_result. destruct (Hbody x s r Hs Hr) as [Hsr Hr'].
  destruct (IH r Hr' Hrun) as [Hrs' Hs']. split; [|done]. by etrans.
Qed.

(** ** Indexing the lattice *)

Definition in_cube (n : Z) (c : coord) : Prop :=
let '(x, y, z) := c in 0 ≤ x < n ∧ 0 ≤ y < n ∧ 0 ≤ z < n.

Section LatticeFacts.
Context {T : Type}.
Implicit Types (cube : lattice T) (c : coord) (v : T).

Lemma axis_index_lt len i j : axis_index len i = Ok j → (j < len)%nat.
Proof.
  unfold axis_index. intros Hj.
  destruct (0 <=? i) eqn:H0, (i <? Z.of_nat len) eqn:H1; simpl in Hj;
    try (injection Hj as <-; lia);
    destruct (- Z.of_nat len <=? i) eqn:H2, (i <? 0) eqn:H3; simpl in Hj;
    try discriminate; injection Hj as <-; lia.
Qed.

Lemma axis_index_nonneg len i :
  0 ≤ i < Z.of_nat len → axis_index len i = Ok (Z.to_nat i).
Proof.
  intros Hi. unfold axis_index.
  destruct (0 <=? i) eqn:H0, (i <? Z.of_nat len) eqn:H1; simpl; try done; lia.
Qed.

Lemma axis_index_negative len i j :
  - Z.of_nat len ≤ i < 0 → j = Z.to_nat (i + Z.of_nat len) →
  axis_index len i = Ok j.
Proof.
  intros Hi ->. unfold axis_index.
  destruct (0 <=? i) eqn:H0; [lia|]. simpl.
  destruct (- Z.of_nat len <=? i) eqn:H1, (i <? 0) eqn:H2; simpl; try done; lia.
Qed.

Lemma getitem_Ok {A} (l : list A) i x :
  getitem l i = Ok x → ∃ j, axis_index (length l) i = Ok j ∧ l !! j = Some x.
Proof.
  unfold getitem. intros Hx. inv_result. exists r. split; [done|].
  by destruct (l !! r); inv_result.
Qed.

Lemma getitem_elem_of {A} (l : list A) i x : getitem l i = Ok x → x ∈ l.
Proof. intros (j & _ & Hj)%getitem_Ok. by eapply list_elem_of_lookup_2. Qed.

Lemma getitem_nonneg {A} (l : list A) i :
  0 ≤ i < Z.of_nat (length l) → ∃ x, getitem l i = Ok x.
Proof.
  intros Hi. unfold getitem. rewrite axis_index_nonneg by done. simpl.
  destruct (lookup_lt_is_Some_2 l (Z.to_nat i)) as [x Hx]; [lia|].
  exists x. by rewrite Hx.
Qed.

Lemma setitem_Ok {A} (l l' : list A) i x :
  setitem l i x = Ok l' →
  ∃ j, axis_index (length l) i = Ok j ∧ l' = <[j:=x]> l.
Proof. unfold setitem. intros Hx. inv_result. by exists r. Qed.

Lemma setitem_length {A} (l l' : list A) i x :
  setitem l i x = Ok l' → length l' = length l.
Proof. intros (j & _ & ->)%setitem_Ok. apply length_insert. Qed.

Lemma setitem_nonneg {A} (l : list A) i x :
  0 ≤ i < Z.of_nat (length l) → setitem l i x = Ok (<[Z.to_nat i := x]> l).
Proof. intros Hi. unfold setitem. by rewrite axis_index_nonneg. Qed.

Lemma np_full_shape n v cube :
  np_full n v = Ok cube → has_shape (Z.to_nat n) cube.
Proof.
  unfold np_full. destruct (n <? 0); [done|]. intros [= <-].
  split; [apply length_replicate|].
  apply Forall_replicate. split; [apply length_replicate|].
  apply Forall_replicate, length_replicate.
Qed.

Lemma cube_set_shape n cube c v cube' :
  has_shape n cube → cube_set cube c v = Ok cube' → has_shape n cube'.
Proof.
  intros [Hlen Hplanes] Hset. destruct c as [[x y] z]. simpl in Hset.
  inv_result.
  apply getitem_elem_of in Hr as Hplane. apply getitem_elem_of in Hr0 as Hrow.
  destruct (proj1 (Forall_forall _ _) Hplanes _ Hplane) as [Hlp Hrows].
  pose proof (proj1 (Forall_forall _ _) Hrows _ Hrow) as Hlr. simpl in Hlr.
  apply setitem_Ok in Hr1 as (j1 & _ & ->).
  apply setitem_Ok in Hr2 as (j2 & _ & ->).
  apply setitem_Ok in Hset as (j3 & _ & ->).
  split; [by rewrite length_insert|].
  apply Forall_insert; [done|].
  split; [by rewrite length_insert|].
  apply Forall_insert; [done|].
  by rewrite length_insert.
Qed.

Lemma cube_get_in_cube n cube c :
  has_shape (Z.to_nat n) cube → in_cube n c → ∃ v, cube_get cube c = Ok v.
Proof.
  intros [Hlen Hplanes] Hc. destruct c as [[x y] z]. simpl in Hc. simpl.
  destruct (getitem_nonneg cube x) as [plane Hplane]; [lia|].
  rewrite Hplane. simpl.
  rewrite Forall_forall in Hplanes.
  destruct (Hplanes _ (getitem_elem_of _ _ _ Hplane)) as [Hlp Hrows].
  destruct (getitem_nonneg plane y) as [row Hrow]; [lia|].
  rewrite Hrow. simpl.
  rewrite Forall_forall in Hrows.
  specialize (Hrows _ (getitem_elem_of _ _ _ Hrow)).
  apply getitem_nonneg. lia.
Qed.

Lemma cube_set_in_cube n cube c v :
  has_shape (Z.to_nat n) cube → in_cube n c → ∃ cube', cube_set cube c v = Ok cube'.
Proof.
  intros [Hlen Hplanes] Hc. destruct c as [[x y] z]. simpl in Hc. simpl.
  destruct (getitem_nonneg cube x) as [plane Hplane]; [lia|].
  rewrite Hplane. simpl.
  rewrite Forall_forall in Hplanes.
  destruct (Hplanes _ (getitem_elem_of _ _ _ Hplane)) as [Hlp Hrows].
  destruct (getitem_nonneg plane y) as [row Hrow]; [lia|].
  rewrite Hrow. simpl.
  rewrite Forall_forall in Hrows.
  specialize (Hrows _ (getitem_elem_of _ _ _ Hrow)).
  rewrite !setitem_nonneg by (rewrite ?length_insert; lia). simpl.
  rewrite !setitem_nonneg by (rewrite ?length_insert; lia). simpl.
  rewrite !setitem_nonneg by (rewrite ?length_insert; lia). by eexists.
Qed.

End LatticeFacts.

Import Propagator.

(** ** The elementary operations of the propagator *)

Section Operations.
Context {T : Type} `{Number T}.
Context {rng : Type} (shuffle : rng → list coord → list coord * rng).
Context (self : Propagator.t T).
Implicit Types (st : state T rng) (c d : coord) (q : list coord).

Definition neighbour (c d : coord) : coord :=
  let '(x, y, z) := c in let '(dx, dy, dz) := d in (x + dx, y + dy, z + dz).

Lemma queue_at_Ok i st q :
  queue_at i st = Ok q ↔ propagation_queues st !! i = Some q.
Proof.
  unfold queue_at. destruct (propagation_queues st !! i); split; intros Hq;
    first [by inv_result | by simplify_eq].
Qed.

Lemma queue_at_lt i st :
  (i < length (propagation_queues st))%nat → ∃ q, queue_at i st = Ok q.
Proof.
  intros [q Hq]%lookup_lt_is_Some_2. exists q. by apply queue_at_Ok.
Qed.

Lemma queue_append_Ok i c st st' :
  queue_append i c st = Ok st' →
  ∃ q, propagation_queues st !! i = Some q ∧
       st' = with_queues (<[i := q ++ [c]]> (propagation_queues st)) st.
Proof.
  unfold queue_append. intros Hst. inv_result. exists r.
  by apply queue_at_Ok in Hr.
Qed.

Lemma cube_iadd_Ok c v st st' :
  cube_iadd c v st = Ok st' →
  ∃ old cube', cube_get (cube st) c = Ok old ∧
               cube_set (cube st) c (old + v)%num = Ok cube' ∧
               st' = with_cube cube' st.
Proof. unfold cube_iadd. intros Hst. inv_result. by exists r, r0. Qed.

Lemma cube_isub_Ok c v st st' :
  cube_isub c v st = Ok st' →
  ∃ old cube', cube_get (cube st) c = Ok old ∧
               cube_set (cube st) c (old - v)%num = Ok cube' ∧
               st' = with_cube cube' st.
Proof. unfold cube_isub. intros Hst. inv_result. by exists r, r0. Qed.

(** What a visit does when it changes the state: it moves [diff] between
    the cell and its neighbour and appends one of the two to the queue,
    which did not hold it. *)
Definition transfers i c d st st' : Prop :=
  ∃ q cur nb st1 st2 c',
    let n := neighbour c d in
    let diff :=
      HeatConductor.calculate_temperature_change (heat_conductor self) cur nb in
    in_cube (cube_size self) n ∧
    cube_get (cube st) c = Ok cur ∧ cube_get (cube st) n = Ok nb ∧
    (cur >? nb)%num = true ∧
    propagation_queues st !! i = Some q ∧ (c' ∉ q) ∧
    ((c' = n ∧ (diff <? 0)%num = true ∧
      cube_isub n diff st = Ok st1 ∧ cube_iadd c diff st1 = Ok st2) ∨
     (c' = c ∧ (diff >=? 0)%num = true ∧
      cube_iadd n diff st = Ok st1 ∧ cube_isub c diff st1 = Ok st2)) ∧
    st' = with_queues (<[i := q ++ [c']]> (propagation_queues st2)) st2.

Lemma in_range_spec v :
  in_range self v = true ↔ 0 ≤ v < cube_size self.
Proof. unfold in_range. rewrite andb_true_iff. lia. Qed.

Lemma visit_Ok i c d st st' :
  visit self i c d st = Ok st' → st' = st ∨ transfers i c d st st'.
Proof.
  destruct c as [[x y] z], d as [[dx dy] dz]. unfold visit.
  destruct (in_range self (x + dx) && in_range self (y + dy) &&
            in_range self (z + dz)) eqn:Hin; [|intros [= <-]; by left].
  apply andb_true_iff in Hin as [[Hx Hy]%andb_true_iff Hz].
  apply in_range_spec in Hx, Hy, Hz.
  intros Hv. apply bind_Ok in Hv as (cur & Hcur & Hv).
  apply bind_Ok in Hv as (nb & Hnb & Hv).
  destruct (nb <? cur)%num eqn:Hgt; [|injection Hv as <-; by left].
  apply bind_Ok in Hv as (q & Hq%queue_at_Ok & Hv).
  set (diff := HeatConductor.calculate_temperature_change _ _ _) in Hv.
  destruct (diff <? 0)%num eqn:Hneg; simpl in Hv.
  - destruct (bool_decide ((x + dx, y + dy, z + dz) ∈ q)) eqn:Hmem; simpl in Hv.
    + destruct (0 <=? diff)%num eqn:Hpos; simpl in Hv;
        [|injection Hv as <-; by left].
      destruct (bool_decide ((x, y, z) ∈ q)) eqn:Hmem'; simpl in Hv;
        [injection Hv as <-; by left|].
      apply bool_decide_eq_false in Hmem'.
      apply bind_Ok in Hv as (st1 & Hst1 & Hv).
      apply bind_Ok in Hv as (st2 & Hst2 & Hv).
      apply queue_append_Ok in Hv as (q2 & Hq2 & ->).
      apply cube_iadd_Ok in Hst1 as Hst1'. destruct Hst1' as (? & ? & _ & _ & ->).
      apply cube_isub_Ok in Hst2 as Hst2'. destruct Hst2' as (? & ? & _ & _ & ->).
      simpl in Hq2. rewrite Hq in Hq2. injection Hq2 as <-.
      right. exists q, cur, nb. eexists _, _, (x, y, z).
      cbv zeta. split_and!; try done. right. by split_and!.
    + apply bool_decide_eq_false in Hmem.
      apply bind_Ok in Hv as (st1 & Hst1 & Hv).
      apply bind_Ok in Hv as (st2 & Hst2 & Hv).
      apply queue_append_Ok in Hv as (q2 & Hq2 & ->).
      apply cube_isub_Ok in Hst1 as Hst1'. destruct Hst1' as (? & ? & _ & _ & ->).
      apply cube_iadd_Ok in Hst2 as Hst2'. destruct Hst2' as (? & ? & _ & _ & ->).
      simpl in Hq2. rewrite Hq in Hq2. injection Hq2 as <-.
      right. exists q, cur, nb. eexists _, _, (x + dx, y + dy, z + dz).
      cbv zeta. split_and!; try done. left. by split_and!.
  - destruct (0 <=? diff)%num eqn:Hpos; simpl in Hv;
      [|injection Hv as <-; by left].
    destruct (bool_decide ((x, y, z) ∈ q)) eqn:Hmem'; simpl in Hv;
      [injection Hv as <-; by left|].
    apply bool_decide_eq_false in Hmem'.
    apply bind_Ok in Hv as (st1 & Hst1 & Hv).
    apply bind_Ok in Hv as (st2 & Hst2 & Hv).
    apply queue_append_Ok in Hv as (q2 & Hq2 & ->).
    apply cube_iadd_Ok in Hst1 as Hst1'. destruct Hst1' as (? & ? & _ & _ & ->).
    apply cube_isub_Ok in Hst2 as Hst2'. destruct Hst2' as (? & ? & _ & _ & ->).
    simpl in Hq2. rewrite Hq in Hq2. injection Hq2 as <-.
    right. exists q, cur, nb. eexists _, _, (x, y, z).
    cbv zeta. split_and!; try done. right. by split_and!.
Qed.

End Operations.

(** ** A run as a sequence of elementary moves *)

Section Moves.
Context {T : Type} `{Number T}.
Context {rng : Type} (shuffle : rng → list coord → list coord * rng).
Context (self : Propagator.t T).
Implicit Types (st : state T rng) (c d : coord) (q : list coord).

(** Every mutation of the state that [propagate] performs, one constructor
    per statement (a visit, lines 111-137, performs at most one queue
    mutation, its last statement).  [ok] restricts the cells visits start
    from. *)
Inductive move (ok : coord → Prop) : state T rng → state T rng → Prop :=
| move_tick st :
    move ok st (tick st)
| move_seed st st' :
    reheat_seed self st = Ok st' → move ok st st'
| move_clear st :
    move ok st (clear_queues st)
| move_popleft i c q st :
    propagation_queues st !! i = Some (c :: q) →
    move ok st (with_queues (<[i := q]> (propagation_queues st)) st)
| move_shuffle st :
    move ok st (shuffle_directions shuffle st)
| move_visit i c d st st' :
    ok c → visit self i c d st = Ok st' → move ok st st'
| move_drop i st st' :
    drop_if_empty i st = Ok st' → move ok st st'
| move_record st :
    move ok st (record st).

(** The states a run from the generator state [g] goes through. *)
Definition instant (ok : coord → Prop) (g : rng) (st : state T rng) : Prop :=
  ∃ st0, initial_state self g = Ok st0 ∧ rtc (move ok) st0 st.

(** The states at the top of the [while] loop: the initial one, and the
    one after each completed pass through the body. *)
Inductive at_top (g : rng) : state T rng → Prop :=
| at_top_init st0 :
    initial_state self g = Ok st0 → at_top g st0
| at_top_step st st' :
    at_top g st → guard self st = true → step shuffle self st = Ok (st', false) →
    at_top g st'.

(** *** What the operations leave alone *)

Definition counters st : list (lattice T) * Z * Z :=
  (cube_states st, propagation_index st, iterations st).

Lemma reheat_seed_counters st st' :
  reheat_seed self st = Ok st' → counters st' = counters st.
Proof.
  unfold reheat_seed. intros Hst.
  destruct (delay self =? 0); [done|].
  destruct (propagation_index st `mod` delay self =? 0).
  - inv_result. destruct (r <? end_temp self)%num; inv_result; [|done].
    by apply cube_iadd_Ok in Hr0 as (? & ? & _ & _ & ->).
  - destruct (propagation_index st <? delay self); by inv_result.
Qed.

Lemma visit_counters i c d st st' :
  visit self i c d st = Ok st' → counters st' = counters st.
Proof.
  intros [->|Ht]%visit_Ok; [done|].
  destruct Ht as (q & cur & nb & st1 & st2 & c' & _ & _ & _ & _ & _ & _ & Hst & ->).
  destruct Hst as [(_ & _ & Hst1 & Hst2) | (_ & _ & Hst1 & Hst2)].
  - apply cube_isub_Ok in Hst1 as (? & ? & _ & _ & ->).
    by apply cube_iadd_Ok in Hst2 as (? & ? & _ & _ & ->).
  - apply cube_iadd_Ok in Hst1 as (? & ? & _ & _ & ->).
    by apply cube_isub_Ok in Hst2 as (? & ? & _ & _ & ->).
Qed.

Lemma shuffle_directions_counters st :
  counters (shuffle_directions shuffle st) = counters st.
Proof. unfold shuffle_directions. by destruct (shuffle _ _). Qed.

Lemma shuffle_directions_queues st :
  propagation_queues (shuffle_directions shuffle st) = propagation_queues st.
Proof. unfold shuffle_directions. by destruct (shuffle _ _). Qed.

Lemma shuffle_directions_cube st :
  cube (shuffle_directions shuffle st) = cube st.
Proof. unfold shuffle_directions. by destruct (shuffle _ _). Qed.

Lemma process_cell_counters i st st' :
  process_cell shuffle self i st = Ok st' → counters st' = counters st.
Proof.
  unfold process_cell. intros Hst. inv_result.
  destruct r as [|c q]; inv_result; [done|].
  eapply (for_each_invariant _ (λ t, counters t = counters st)); [| |done].
  - intros d t t' _ Ht Hv. by rewrite (visit_counters _ _ _ _ _ Hv).
  - by rewrite shuffle_directions_counters.
Qed.

Lemma drop_if_empty_counters i st st' :
  drop_if_empty i st = Ok st' → counters st' = counters st.
Proof.
  unfold drop_if_empty. intros Hst. inv_result. by destruct r; inv_result.
Qed.

Lemma process_queue_counters i st st' :
  process_queue shuffle self i st = Ok st' → counters st' = counters st.
Proof.
  unfold process_queue. intros Hst. inv_result.
  rewrite (drop_if_empty_counters _ _ _ Hst).
  by apply process_cell_counters in Hr.
Qed.

Lemma process_queues_counters l st st' :
  for_each (process_queue shuffle self) l st = Ok st' →
  counters st' = counters st.
Proof.
  apply (for_each_invariant _ (λ t, counters t = counters st)); [|done].
  intros i t t' _ Ht Hq. by rewrite (process_queue_counters _ _ _ Hq).
Qed.

(** A completed pass records one snapshot and advances both counters. *)
Lemma step_completed st st' :
  step shuffle self st = Ok (st', false) →
  ∃ st1 st2,
    reheat_seed self (tick st) = Ok st1 ∧ all_close self (cube st1) = false ∧
    for_each (process_queue shuffle self)
      (reverse (seq 0 (length (propagation_queues st1)))) st1 = Ok st2 ∧
    st' = record st2 ∧
    cube_states st' = cube_states st ++ [cube st2] ∧
    propagation_index st' = propagation_index st + 1 ∧
    iterations st' = iterations st + 1.
Proof.
  unfold step. intros Hst. apply bind_Ok in Hst as (st1 & Hst1 & Hst).
  destruct (all_close self (cube st1)) eqn:Hclose; [done|].
  apply bind_Ok in Hst as (st2 & Hst2 & [= <-]).
  exists st1, st2. split_and!; try done.
  all: apply reheat_seed_counters in Hst1 as [= E1 E2 E3];
    apply process_queues_counters in Hst2 as [= E4 E5 E6]; simpl; congruence.
Qed.

(** A pass that leaves by [break] records nothing. *)
Lemma step_broke st st' :
  step shuffle self st = Ok (st', true) →
  ∃ st1,
    reheat_seed self (tick st) = Ok st1 ∧ all_close self (cube st1) = true ∧
    st' = clear_queues st1 ∧
    cube_states st' = cube_states st.
Proof.
  unfold step. intros Hst. apply bind_Ok in Hst as (st1 & Hst1 & Hst).
  destruct (all_close self (cube st1)) eqn:Hclose.
  - injection Hst as <-. exists st1. split_and!; try done.
    by apply reheat_seed_counters in Hst1 as [= E1 E2 E3].
  - by inv_result.
Qed.

End Moves.

(** ** What the moves do to the queues *)

Section Queues.
Context {T : Type} `{Number T}.
Context {rng : Type} (shuffle : rng → list coord → list coord * rng).
Context (self : Propagator.t T).
Implicit Types (st : state T rng) (c d : coord) (q : list coord).

Lemma reheat_seed_queues st st' :
  reheat_seed self st = Ok st' →
  propagation_queues st' = propagation_queues st ∨
  propagation_queues st' = propagation_queues st ++ [[origin self]].
Proof.
  unfold reheat_seed. intros Hst.
  destruct (delay self =? 0); [done|].
  destruct (propagation_index st `mod` delay self =? 0).
  - inv_result. right. destruct (r <? end_temp self)%num; inv_result; [|done].
    by apply cube_iadd_Ok in Hr0 as (? & ? & _ & _ & ->).
  - destruct (propagation_index st <? delay self); inv_result; [by right | by left].
Qed.

Lemma transfers_queues i c d st st' :
  transfers self i c d st st' →
  ∃ q c', propagation_queues st !! i = Some q ∧ (c' ∉ q) ∧
          (c' = c ∨ c' = neighbour c d ∧ in_cube (cube_size self) c') ∧
          propagation_queues st' = <[i := q ++ [c']]> (propagation_queues st).
Proof.
  intros (q & cur & nb & st1 & st2 & c' & Hn & _ & _ & _ & Hq & Hc' & Hst & ->).
  exists q, c'. split_and!; try done.
  - destruct Hst as [(-> & _) | (-> & _)]; [by right | by left].
  - destruct Hst as [(_ & _ & Hst1 & Hst2) | (_ & _ & Hst1 & Hst2)].
    + apply cube_isub_Ok in Hst1 as (? & ? & _ & _ & ->).
      by apply cube_iadd_Ok in Hst2 as (? & ? & _ & _ & ->).
    + apply cube_iadd_Ok in Hst1 as (? & ? & _ & _ & ->).
      by apply cube_isub_Ok in Hst2 as (? & ? & _ & _ & ->).
Qed.

Lemma drop_if_empty_queues i st st' :
  drop_if_empty i st = Ok st' →
  propagation_queues st' = propagation_queues st ∨
  propagation_queues st !! i = Some [] ∧
  propagation_queues st' = delete i (propagation_queues st).
Proof.
  unfold drop_if_empty. intros Hst. inv_result.
  apply queue_at_Ok in Hr. destruct r; inv_result; [by right | by left].
Qed.

(** No move puts a coordinate into a queue that holds it already. *)
Lemma move_NoDup ok st st' :
  move shuffle self ok st st' →
  Forall NoDup (propagation_queues st) → Forall NoDup (propagation_queues st').
Proof.
  intros Hmove Hst. destruct Hmove as
    [st | st st' Hseed | st | i c q st Hq | st | i c d st st' _ Hvisit
    | i st st' Hdrop | st]; simpl; try done.
  - apply reheat_seed_queues in Hseed as [-> | ->]; [done|].
    apply Forall_app. split; [done|].
    apply Forall_singleton, NoDup_singleton.
  - apply Forall_fmap, Forall_true. intros q. apply NoDup_nil_2.
  - apply Forall_insert; [done|].
    eapply Forall_lookup_1 in Hq; [|done]. by apply NoDup_cons_1_2 in Hq.
  - by rewrite shuffle_directions_queues.
  - apply visit_Ok in Hvisit as [-> | Ht]; [done|].
    apply transfers_queues in Ht as (q & c' & Hq & Hc' & _ & ->).
    apply Forall_insert; [done|].
    apply NoDup_app. split_and!.
    + by eapply Forall_lookup_1 in Hq.
    + intros x Hx ->%list_elem_of_singleton. done.
    + apply NoDup_singleton.
  - apply drop_if_empty_queues in Hdrop as [-> | [_ ->]]; [done|].
    by apply Forall_delete.
Qed.

(** The cells in the queues are the origin, cells visits started from, and
    neighbours inside the cube. *)
Lemma move_queues ok st st' :
  ok (origin self) → (∀ c, in_cube (cube_size self) c → ok c) →
  move shuffle self ok st st' →
  Forall (Forall ok) (propagation_queues st) →
  Forall (Forall ok) (propagation_queues st').
Proof.
  intros Horigin Hcube Hmove Hst. destruct Hmove as
    [st | st st' Hseed | st | i c q st Hq | st | i c d st st' Hc Hvisit
    | i st st' Hdrop | st]; simpl; try done.
  - apply reheat_seed_queues in Hseed as [-> | ->]; [done|].
    apply Forall_app. split; [done|]. by apply Forall_singleton, Forall_singleton.
  - apply Forall_fmap, Forall_true. intros q. apply Forall_nil_2.
  - apply Forall_insert; [done|].
    eapply Forall_lookup_1 in Hq; [|done]. by apply Forall_cons_1 in Hq as [_ ?].
  - by rewrite shuffle_directions_queues.
  - apply visit_Ok in Hvisit as [-> | Ht]; [done|].
    apply transfers_queues in Ht as (q & c' & Hq & _ & Hc' & ->).
    apply Forall_insert; [done|].
    apply Forall_app. split; [by eapply Forall_lookup_1 in Hq|].
    apply Forall_singleton. destruct Hc' as [-> | [_ Hc']]; [done | by apply Hcube].
  - apply drop_if_empty_queues in Hdrop as [-> | [_ ->]]; [done|].
    by apply Forall_delete.
Qed.

(** The lattice keeps its shape. *)
Lemma move_shape ok n st st' :
  move shuffle self ok st st' → has_shape n (cube st) → has_shape n (cube st').
Proof.
  intros Hmove Hst. destruct Hmove as
    [st | st st' Hseed | st | i c q st Hq | st | i c d st st' Hc Hvisit
    | i st st' Hdrop | st]; simpl; try done.
  - unfold reheat_seed in Hseed.
    destruct (delay self =? 0); [done|].
    destruct (propagation_index st `mod` delay self =? 0).
    + inv_result. destruct (r <? end_temp self)%num; inv_result; [|done].
      apply cube_iadd_Ok in Hr0 as (? & ? & _ & Hset & ->). simpl.
      by eapply cube_set_shape.
    + destruct (propagation_index st <? delay self); by inv_result.
  - by rewrite shuffle_directions_cube.
  - apply visit_Ok in Hvisit as [-> | Ht]; [done|].
    destruct Ht as (q & cur & nb & st1 & st2 & c' & _ & _ & _ & _ & _ & _ & Ht & ->).
    simpl. destruct Ht as [(_ & _ & Hst1 & Hst2) | (_ & _ & Hst1 & Hst2)].
    + apply cube_isub_Ok in Hst1 as (? & ? & _ & Hset1 & ->).
      apply cube_iadd_Ok in Hst2 as (? & ? & _ & Hset2 & ->). simpl in *.
      eapply cube_set_shape; [|done]. by eapply cube_set_shape.
    + apply cube_iadd_Ok in Hst1 as (? & ? & _ & Hset1 & ->).
      apply cube_isub_Ok in Hst2 as (? & ? & _ & Hset2 & ->). simpl in *.
      eapply cube_set_shape; [|done]. by eapply cube_set_shape.
  - unfold drop_if_empty in Hdrop. inv_result. by destruct r; inv_result.
Qed.

End Queues.

(** ** A run is a sequence of moves *)

Section RunMoves.
Context {T : Type} `{Number T}.
Context {rng : Type} (shuffle : rng → list coord → list coord * rng).
Context (self : Propagator.t T).
Context (ok : coord → Prop).
Context (ok_origin : ok (origin self)).
Context (ok_cube : ∀ c, in_cube (cube_size self) c → ok c).
Implicit Types (st : state T rng) (c d : coord) (q : list coord).

Definition queues_ok st : Prop := Forall (Forall ok) (propagation_queues st).

Lemma rtc_move_queues st st' :
  rtc (move shuffle self ok) st st' → queues_ok st → queues_ok st'.
Proof.
  induction 1 as [|st st1 st' Hmove _ IH]; [done|].
  intros Hst. apply IH. by eapply move_queues.
Qed.

Lemma visits_moves i c l st st' :
  ok c → for_each (visit self i c) l st = Ok st' →
  rtc (move shuffle self ok) st st'.
Proof.
  intros Hc Hrun.
  apply (for_each_rtc _ (move shuffle self ok) (λ _, True)) in Hrun as [? _]; [done| |done].
  intros d t t' _ Hv. split; [|done]. by eapply rtc_once, move_visit.
Qed.

Lemma process_cell_moves i st st' :
  queues_ok st → process_cell shuffle self i st = Ok st' →
  rtc (move shuffle self ok) st st'.
Proof.
  intros Hst Hrun. unfold process_cell in Hrun. inv_result.
  apply queue_at_Ok in Hr. destruct r as [|c q]; inv_result; [done|].
  eapply rtc_l; [by eapply move_popleft|].
  eapply rtc_l; [by apply move_shuffle|].
  eapply visits_moves; [|done].
  eapply Forall_lookup_1 in Hr; [|done]. by apply Forall_cons_1 in Hr as [? _].
Qed.

Lemma process_queue_moves i st st' :
  queues_ok st → process_queue shuffle self i st = Ok st' →
  rtc (move shuffle self ok) st st'.
Proof.
  intros Hst Hrun. unfold process_queue in Hrun. inv_result.
  etrans; [by eapply process_cell_moves|]. by eapply rtc_once, move_drop.
Qed.

Lemma process_queues_moves l st st' :
  queues_ok st → for_each (process_queue shuffle self) l st = Ok st' →
  rtc (move shuffle self ok) st st'.
Proof.
  intros Hst Hrun.
  apply (for_each_rtc _ (move shuffle self ok) queues_ok) in Hrun as [? _]; [done| |done].
  intros i t t' Ht Hq. apply process_queue_moves in Hq as Hmoves; [|done].
  split; [done|]. by eapply rtc_move_queues.
Qed.

Lemma step_moves st st' broke :
  queues_ok st → step shuffle self st = Ok (st', broke) →
  rtc (move shuffle self ok) st st'.
Proof.
  intros Hst Hrun.
  eapply rtc_l; [apply move_tick|].
  assert (queues_ok (tick st)) as Htick by done.
  destruct broke.
  - apply step_broke in Hrun as (st1 & Hst1 & _ & -> & _).
    eapply rtc_l; [by apply move_seed|]. apply rtc_once, move_clear.
  - apply step_completed in Hrun as (st1 & st2 & Hst1 & _ & Hst2 & -> & _).
    eapply rtc_l; [by apply move_seed|].
    eapply rtc_r; [|apply move_record].
    eapply process_queues_moves; [|done].
    eapply rtc_move_queues; [|done]. by eapply rtc_once, move_seed.
Qed.

Lemma run_loop_moves fuel st st' :
  queues_ok st → run_loop shuffle self fuel st = Ok st' →
  rtc (move shuffle self ok) st st'.
Proof.
  revert st. induction fuel as [|fuel IH]; intros st Hst Hrun; simpl in Hrun.
  - destruct (guard self st); by inv_result.
  - destruct (guard self st); [|by inv_result].
    inv_result. destruct r as [st1 broke].
    apply step_moves in Hr as Hmoves; [|done].
    destruct broke; inv_result; [done|].
    etrans; [done|]. apply IH; [|done]. by eapply rtc_move_queues.
Qed.

Lemma initial_state_queues g st0 :
  initial_state self g = Ok st0 → propagation_queues st0 = [[origin self]].
Proof. unfold initial_state. intros Hst. by inv_result. Qed.

Lemma instant_queues g st : instant shuffle self ok g st → queues_ok st.
Proof.
  intros (st0 & Hst0 & Hmoves). eapply rtc_move_queues; [done|].
  unfold queues_ok. rewrite (initial_state_queues _ _ Hst0).
  by apply Forall_singleton, Forall_singleton.
Qed.

Lemma at_top_instant g st : at_top shuffle self g st → instant shuffle self ok g st.
Proof.
  induction 1 as [st0 Hst0 | st st' _ (st0 & Hst0 & Hmoves) _ Hstep].
  - by exists st0.
  - exists st0. split; [done|]. etrans; [done|].
    eapply step_moves; [|done]. apply (instant_queues g). by exists st0.
Qed.

End RunMoves.

(** ** No index of the loop is out of range *)

Section InBounds.
Context {T : Type} `{Number T}.
Context {rng : Type} (shuffle : rng → list coord → list coord * rng).
Context (self : Propagator.t T).
Context (origin_in_cube : in_cube (cube_size self) (origin self)).
Implicit Types (st : state T rng) (c d : coord) (q : list coord).

Let n := cube_size self.
Let inside := in_cube (cube_size self).

(** The lattice has its shape and the queues hold cells of the lattice. *)
Definition well_formed st : Prop :=
  has_shape (Z.to_nat n) (cube st) ∧ queues_ok inside st.

Lemma move_well_formed st st' :
  move shuffle self inside st st' → well_formed st → well_formed st'.
Proof.
  intros Hmove [Hshape Hqueues]. split.
  - by eapply move_shape.
  - by eapply move_queues.
Qed.

Lemma rtc_move_well_formed st st' :
  rtc (move shuffle self inside) st st' → well_formed st → well_formed st'.
Proof.
  induction 1 as [|st st1 st' Hmove _ IH]; [done|].
  intros Hst. apply IH. by eapply move_well_formed.
Qed.

Lemma initial_state_well_formed g :
  ∃ st0, initial_state self g = Ok st0 ∧ well_formed st0.
Proof.
  unfold initial_state, np_full.
  assert (0 < n) as Hn.
  { unfold n. destruct (origin self) as [[x y] z]. simpl in origin_in_cube. lia. }
  destruct (cube_size self <? 0) eqn:Hneg; [lia|]. simpl.
  set (cube0 := replicate _ _).
  assert (has_shape (Z.to_nat n) cube0) as Hshape.
  { apply (np_full_shape n (start_temp self)). unfold np_full, n. by rewrite Hneg. }
  destruct (cube_set_in_cube n cube0 (origin self)
              (start_temp self + increment self)%num) as [cube1 Hcube1]; [done..|].
  rewrite Hcube1. simpl. eexists. split; [done|]. split; simpl.
  - by eapply cube_set_shape.
  - by apply Forall_singleton, Forall_singleton.
Qed.

Lemma cube_iadd_total c v st :
  has_shape (Z.to_nat n) (cube st) → inside c →
  ∃ st', cube_iadd c v st = Ok st' ∧ has_shape (Z.to_nat n) (cube st') ∧
         propagation_queues st' = propagation_queues st.
Proof.
  intros Hshape Hc. unfold cube_iadd.
  destruct (cube_get_in_cube n (cube st) c) as [old ->]; [done..|]. simpl.
  destruct (cube_set_in_cube n (cube st) c (old + v)%num) as [cube' Hset]; [done..|].
  rewrite Hset. simpl. eexists. split_and!; try done. by eapply cube_set_shape.
Qed.

Lemma cube_isub_total c v st :
  has_shape (Z.to_nat n) (cube st) → inside c →
  ∃ st', cube_isub c v st = Ok st' ∧ has_shape (Z.to_nat n) (cube st') ∧
         propagation_queues st' = propagation_queues st.
Proof.
  intros Hshape Hc. unfold cube_isub.
  destruct (cube_get_in_cube n (cube st) c) as [old ->]; [done..|]. simpl.
  destruct (cube_set_in_cube n (cube st) c (old - v)%num) as [cube' Hset]; [done..|].
  rewrite Hset. simpl. eexists. split_and!; try done. by eapply cube_set_shape.
Qed.

Lemma queue_append_total i c st :
  (i < length (propagation_queues st))%nat → ∃ st', queue_append i c st = Ok st'.
Proof.
  intros [q Hq]%queue_at_lt. unfold queue_append. rewrite Hq. simpl. by eexists.
Qed.

Lemma visit_total i c d st :
  well_formed st → inside c → (i < length (propagation_queues st))%nat →
  ∃ st', visit self i c d st = Ok st'.
Proof.
  intros [Hshape _] Hc Hi. destruct c as [[x y] z], d as [[dx dy] dz].
  unfold visit.
  destruct (in_range self (x + dx) && in_range self (y + dy) &&
            in_range self (z + dz)) eqn:Hin; [|by eexists].
  apply andb_true_iff in Hin as [[Hx Hy]%andb_true_iff Hz].
  apply in_range_spec in Hx, Hy, Hz.
  assert (inside (x + dx, y + dy, z + dz)) as Hn by done.
  destruct (cube_get_in_cube n (cube st) (x, y, z)) as [cur ->]; [done..|].
  destruct (cube_get_in_cube n (cube st) (x + dx, y + dy, z + dz)) as [nb ->];
    [done..|]. simpl.
  destruct (nb <? cur)%num; [|by eexists].
  destruct (queue_at_lt i st Hi) as [q ->]. simpl.
  set (diff := HeatConductor.calculate_temperature_change _ _ _).
  destruct ((diff <? 0)%num && negb (bool_decide ((x + dx, y + dy, z + dz) ∈ q))).
  - destruct (cube_isub_total (x + dx, y + dy, z + dz) diff st)
      as (st1 & -> & Hshape1 & Hq1); [done..|]. simpl.
    destruct (cube_iadd_total (x, y, z) diff st1) as (st2 & -> & _ & Hq2); [done..|].
    simpl. apply queue_append_total. by rewrite Hq2, Hq1.
  - destruct ((0 <=? diff)%num && negb (bool_decide ((x, y, z) ∈ q))); [|by eexists].
    destruct (cube_iadd_total (x + dx, y + dy, z + dz) diff st)
      as (st1 & -> & Hshape1 & Hq1); [done..|]. simpl.
    destruct (cube_isub_total (x, y, z) diff st1) as (st2 & -> & _ & Hq2); [done..|].
    simpl. apply queue_append_total. by rewrite Hq2, Hq1.
Qed.

Lemma visit_length i c d st st' :
  visit self i c d st = Ok st' →
  length (propagation_queues st') = length (propagation_queues st).
Proof.
  intros [-> | Ht]%visit_Ok; [done|].
  apply transfers_queues in Ht as (q & c' & _ & _ & _ & ->).
  apply length_insert.
Qed.

Lemma visits_total i c l st :
  well_formed st → inside c → (i < length (propagation_queues st))%nat →
  ∃ st', for_each (visit self i c) l st = Ok st' ∧
         length (propagation_queues st') = length (propagation_queues st).
Proof.
  intros Hst Hc. revert st Hst. induction l as [|d l IH]; intros st Hst Hi; simpl.
  - by eexists.
  - destruct (visit_total i c d st) as [st1 Hst1]; [done..|]. rewrite Hst1. simpl.
    apply visit_length in Hst1 as Hlen.
    destruct (IH st1) as (st' & -> & Hlen'); [|lia|].
    + eapply move_well_formed; [|done]. by eapply move_visit.
    + exists st'. split; [done|]. lia.
Qed.

Lemma process_cell_total i st :
  well_formed st → (i < length (propagation_queues st))%nat →
  ∃ st', process_cell shuffle self i st = Ok st' ∧
         length (propagation_queues st') = length (propagation_queues st).
Proof.
  intros Hst Hi. unfold process_cell.
  destruct (queue_at_lt i st Hi) as [q Hq]. rewrite Hq. simpl.
  apply queue_at_Ok in Hq. destruct q as [|c q]; [by eexists|].
  set (st1 := with_queues _ st).
  assert (rtc (move shuffle self inside) st (shuffle_directions shuffle st1)) as Hmoves.
  { eapply rtc_l; [by eapply move_popleft|]. apply rtc_once, move_shuffle. }
  destruct (visits_total i c (directions (shuffle_directions shuffle st1))
              (shuffle_directions shuffle st1)) as (st' & -> & Hlen).
  - by eapply rtc_move_well_formed.
  - destruct Hst as [_ Hqueues]. eapply Forall_lookup_1 in Hq; [|done].
    by apply Forall_cons_1 in Hq as [? _].
  - rewrite shuffle_directions_queues. simpl. by rewrite length_insert.
  - exists st'. split; [done|]. rewrite Hlen, shuffle_directions_queues. simpl.
    apply length_insert.
Qed.

Lemma drop_if_empty_total i st :
  (i < length (propagation_queues st))%nat →
  ∃ st', drop_if_empty i st = Ok st' ∧
         (i ≤ length (propagation_queues st'))%nat.
Proof.
  intros Hi. unfold drop_if_empty.
  destruct (queue_at_lt i st Hi) as [q ->]. simpl.
  destruct q; eexists; (split; [done|]); simpl; [|lia].
  rewrite length_delete; [lia|]. by apply lookup_lt_is_Some_2.
Qed.

Lemma process_queue_total i st :
  well_formed st → (i < length (propagation_queues st))%nat →
  ∃ st', process_queue shuffle self i st = Ok st' ∧
         (i ≤ length (propagation_queues st'))%nat.
Proof.
  intros Hst Hi. unfold process_queue.
  destruct (process_cell_total i st) as (st1 & -> & Hlen); [done..|]. simpl.
  apply drop_if_empty_total. lia.
Qed.

(** [for i in reversed(range(len(propagation_queues)))]: the queues below
    [i] are still there when their turn comes. *)
Lemma process_queues_total k st :
  well_formed st → (k ≤ length (propagation_queues st))%nat →
  ∃ st', for_each (process_queue shuffle self) (reverse (seq 0 k)) st = Ok st'.
Proof.
  revert st. induction k as [|k IH]; intros st Hst Hk; [by eexists|].
  rewrite seq_S, reverse_snoc. change (0 + k)%nat with k. cbn [for_each].
  destruct (process_queue_total k st) as (st1 & Hst1 & Hlen); [done|lia|].
  rewrite Hst1. cbn [mbind result_bind]. apply IH; [|done].
  eapply rtc_move_well_formed; [|done].
  eapply process_queue_moves; [|done]. by destruct Hst.
Qed.

Lemma reheat_seed_total st :
  well_formed st → delay self ≠ 0 → ∃ st', reheat_seed self st = Ok st'.
Proof.
  intros [Hshape _] Hdelay. unfold reheat_seed.
  destruct (Z.eqb_spec (delay self) 0) as [|_]; [done|].
  destruct (propagation_index st `mod` delay self =? 0).
  - destruct (cube_get_in_cube n (cube st) (origin self)) as [v ->]; [done..|].
    simpl. destruct (v <? end_temp self)%num; [|by eexists].
    destruct (cube_iadd_total (origin self) (increment self) st)
      as (st1 & -> & _); [done..|]. by eexists.
  - destruct (propagation_index st <? delay self); by eexists.
Qed.

Lemma reheat_seed_delay_0 st :
  delay self = 0 → reheat_seed self st = Err ZeroDivisionError.
Proof. intros Hdelay. unfold reheat_seed. by rewrite Hdelay. Qed.

Lemma step_total st :
  well_formed st → delay self ≠ 0 → ∃ r, step shuffle self st = Ok r.
Proof.
  intros Hst Hdelay. unfold step.
  destruct (reheat_seed_total (tick st)) as [st1 Hst1]; [done..|].
  rewrite Hst1. simpl. destruct (all_close self (cube st1)); [by eexists|].
  destruct (process_queues_total (length (propagation_queues st1)) st1)
    as [st2 ->]; [|done|by eexists].
  eapply (move_well_formed (tick st)); [by apply move_seed | done].
Qed.

Lemma run_loop_total fuel st :
  well_formed st → delay self ≠ 0 → ∃ st', run_loop shuffle self fuel st = Ok st'.
Proof.
  intros Hst Hdelay. revert st Hst.
  induction fuel as [|fuel IH]; intros st Hst; simpl.
  - destruct (guard self st); by eexists.
  - destruct (guard self st); [|by eexists].
    destruct (step_total st) as [[st1 broke] Hstep]; [done..|].
    rewrite Hstep. simpl. destruct broke; [by eexists|].
    apply IH. eapply rtc_move_well_formed; [|done].
    eapply step_moves; [done..| |done]. by destruct Hst.
Qed.

Lemma run_loop_delay_0 fuel st :
  delay self = 0 → guard self st = true →
  run_loop shuffle self (S fuel) st = Err ZeroDivisionError.
Proof.
  intros Hdelay Hguard. simpl. rewrite Hguard. unfold step.
  by rewrite reheat_seed_delay_0.
Qed.

End InBounds.

(** ** The loop: its bound, its tops and its result *)

Section Loop.
Context {T : Type} `{Number T}.
Context {rng : Type} (shuffle : rng → list coord → list coord * rng).
Context (self : Propagator.t T).
Implicit Types (st : state T rng) (c d : coord) (q : list coord).

(** The passes the loop can still make. *)
Definition remaining st : nat := Z.to_nat (max_iterations self - iterations st).

Lemma guard_remaining st : guard self st = true → (0 < remaining st)%nat.
Proof. unfold guard, remaining. intros [_ Hlt%Z.ltb_lt]%andb_true_iff. lia. Qed.


Lemma initial_state_counters g st0 :
  initial_state self g = Ok st0 → counters st0 = ([], 0, 0).
Proof. unfold initial_state. intros Hst. by inv_result. Qed.


(** [cube_states[-1]] *)
Lemma finish_empty st :
  cube_states st = [] → finish st = Err IndexError.
Proof. unfold finish, getitem. by intros ->. Qed.

Lemma finish_recorded st prev snapshot :
  cube_states st = prev ++ [snapshot] → finish st = Ok (prev ++ [snapshot]).
Proof.
  unfold finish, getitem. intros ->.
  rewrite (axis_index_negative _ _ (length prev)); simpl.
  - by rewrite list_lookup_middle.
  - rewrite length_app. simpl. lia.
  - rewrite length_app. simpl. lia.
Qed.

Lemma finish_Ok st states :
  finish st = Ok states → states = cube_states st ∧ cube_states st ≠ [].
Proof.
  intros Hfin. destruct (cube_states st) eqn:Hstates.
  - by rewrite finish_empty in Hfin.
  - unfold finish in Hfin. inv_result. by rewrite Hstates.
Qed.

(** *** The snapshots *)

Let n := Z.to_nat (cube_size self).

(** What holds of the snapshots at every top of the loop. *)
Definition recorded st : Prop :=
  has_shape n (cube st) ∧
  Forall (has_shape n) (cube_states st) ∧
  Z.of_nat (length (cube_states st)) = iterations st ∧
  (iterations st = 0 ∨ iterations st ≤ max_iterations self).

Lemma rtc_move_shape st st' :
  rtc (move shuffle self (λ _, True)) st st' →
  has_shape n (cube st) → has_shape n (cube st').
Proof.
  induction 1 as [|st st1 st' Hmove _ IH]; [done|].
  intros Hst. apply IH. by eapply move_shape.
Qed.

Lemma initial_state_recorded g st0 :
  initial_state self g = Ok st0 → recorded st0.
Proof.
  unfold initial_state. intros Hst. inv_result. split_and!; simpl; try done.
  - eapply cube_set_shape; [|done]. by apply np_full_shape in Hr.
  - by left.
Qed.

Lemma step_recorded st st' :
  recorded st → guard self st = true → step shuffle self st = Ok (st', false) →
  recorded st'.
Proof.
  intros (Hshape & Hstates & Hlen & Hmax) [_ Hlt%Z.ltb_lt]%andb_true_iff Hstep.
  assert (has_shape n (cube st')) as Hshape'.
  { eapply rtc_move_shape; [|done].
    eapply (step_moves _ _ (λ _, True)); [..|done]; try done.
    apply Forall_true. intros q. by apply Forall_true. }
  apply step_completed in Hstep as (_ & st2 & _ & _ & _ & -> & Hst & _ & Hit).
  split_and!; try done.
  - rewrite Hst. apply Forall_app. split; [done|]. by apply Forall_singleton.
  - rewrite Hst, Hit, length_app. simpl. lia.
  - right. lia.
Qed.

Lemma at_top_recorded g st : at_top shuffle self g st → recorded st.
Proof.
  induction 1 as [st0 Hst0 | st st' _ IH Hguard Hstep].
  - by eapply initial_state_recorded.
  - by eapply step_recorded.
Qed.

Lemma run_loop_snapshots fuel st st' :
  recorded st → run_loop shuffle self fuel st = Ok st' →
  Forall (has_shape n) (cube_states st') ∧
  (cube_states st' = [] ∨
   Z.of_nat (length (cube_states st')) ≤ max_iterations self).
Proof.
  revert st. induction fuel as [|fuel IH]; intros st Hst Hrun; simpl in Hrun.
  - assert (st' = st) as -> by (destruct (guard self st); by inv_result).
    destruct Hst as (_ & Hstates & Hlen & [Hit|Hit]); (split; [done|]).
    + left. apply nil_length_inv. lia.
    + right. lia.
  - destruct (guard self st) eqn:Hguard.
    + inv_result. destruct r as [st1 broke]. destruct broke; inv_result.
      * apply step_broke in Hr as (_ & _ & _ & _ & ->).
        apply andb_true_iff in Hguard as [_ Hlt%Z.ltb_lt].
        destruct Hst as (_ & Hstates & Hlen & _). split; [done|]. right. lia.
      * eapply IH; [|done]. by eapply step_recorded.
    + inv_result.
      destruct Hst as (_ & Hstates & Hlen & [Hit|Hit]); (split; [done|]).
      * left. apply nil_length_inv. lia.
      * right. lia.
Qed.

End Loop.

(** * The propagator: what a run does *)

Section Claims.
Context {T : Type} `{Number T}.
Context {rng : Type} (shuffle : rng → list coord → list coord * rng).
Implicit Types (self : Propagator.t T) (st : state T rng) (g : rng).

Lemma run_loop_no_IndexError self fuel st :
  in_cube (cube_size self) (origin self) → well_formed self st →
  run_loop shuffle self fuel st ≠ Err IndexError.
Proof.
  intros Horigin Hst. destruct (decide (delay self = 0)) as [Hdelay|Hdelay].
  - destruct fuel as [|fuel].
    + simpl. by destruct (guard self st).
    + destruct (guard self st) eqn:Hguard.
      * by rewrite run_loop_delay_0.
      * simpl. by rewrite Hguard.
  - destruct (run_loop_total shuffle self Horigin fuel st) as [st' ->]; done.
Qed.

(** With the origin inside the cube and a delay that is not zero,
    [propagate] returns the snapshots or fails at [cube_states[-1]]. *)
Lemma propagate_result self g :
  in_cube (cube_size self) (origin self) → delay self ≠ 0 →
  (∃ states, propagate shuffle self g = Ok states) ∨
  propagate shuffle self g = Err IndexError.
Proof.
  intros Horigin Hdelay. unfold propagate.
  destruct (initial_state_well_formed self Horigin g) as (st0 & -> & Hst0). simpl.
  destruct (run_loop_total shuffle self Horigin
              (Z.to_nat (max_iterations self)) st0) as [st ->]; [done..|]. simpl.
  destruct (cube_states st) as [|s l] eqn:Hstates.
  - right. by apply finish_empty.
  - left. destruct (exists_last (l := s :: l)) as (prev & snapshot & Hlast); [done|].
    exists (prev ++ [snapshot]). apply finish_recorded. by rewrite Hstates.
Qed.


(** C7.  At every instant of a run, no queue holds a coordinate twice. *)
Theorem queues_hold_no_duplicates self g st :
  instant shuffle self (λ _, True) g st → Forall NoDup (propagation_queues st).
Proof.
  intros (st0 & Hst0 & Hmoves).
  assert (Forall NoDup (propagation_queues st0)) as Hinit.
  { rewrite (initial_state_queues _ _ _ Hst0).
    apply Forall_singleton, NoDup_singleton. }
  clear Hst0. induction Hmoves as [|st0 st1 st Hmove _ IH]; [done|].
  apply IH. by eapply move_NoDup.
Qed.

(** The states the loop stops in are such instants. *)
Lemma run_loop_instant self ok g fuel st0 st :
  ok (origin self) → (∀ c, in_cube (cube_size self) c → ok c) →
  initial_state self g = Ok st0 → run_loop shuffle self fuel st0 = Ok st →
  instant shuffle self ok g st.
Proof.
  intros Horigin Hcube Hst0 Hrun. exists st0. split; [done|].
  eapply run_loop_moves; [done..| |done].
  unfold queues_ok. rewrite (initial_state_queues _ _ _ Hst0).
  by apply Forall_singleton, Forall_singleton.
Qed.

(** C8.  The snapshots a run returns are at most [max_iterations], and
    each has the shape (cube_size, cube_size, cube_size). *)
Theorem snapshots_bounded_and_shaped self g states :
  propagate shuffle self g = Ok states →
  Z.of_nat (length states) ≤ max_iterations self ∧
  Forall (has_shape (Z.to_nat (cube_size self))) states.
Proof.
  unfold propagate. intros Hrun.
  apply bind_Ok in Hrun as (st0 & Hst0 & Hrun).
  apply bind_Ok in Hrun as (st & Hst & Hfin).
  apply finish_Ok in Hfin as [-> Hne].
  apply run_loop_snapshots in Hst as [Hshapes [Hnil|Hlen]];
    [done..| by eapply initial_state_recorded].
Qed.

(** C10.  With the origin inside the cube, every coordinate in every queue
    is inside the cube at every instant of the run (whose visits start from
    such cells only), and no index of the loop is out of range. *)
Theorem queue_cells_inside_cube self g :
  in_cube (cube_size self) (origin self) →
  (∀ st, instant shuffle self (in_cube (cube_size self)) g st →
         Forall (Forall (in_cube (cube_size self))) (propagation_queues st)) ∧
  ∃ st0, initial_state self g = Ok st0 ∧
         ∀ fuel,
           run_loop shuffle self fuel st0 ≠ Err IndexError ∧
           ∀ st, run_loop shuffle self fuel st0 = Ok st →
                 instant shuffle self (in_cube (cube_size self)) g st.
Proof.
  intros Horigin. split.
  - intros st Hst. by eapply instant_queues.
  - destruct (initial_state_well_formed self Horigin g) as (st0 & Hst0 & Hwf).
    exists st0. split; [done|]. intros fuel. split.
    + by apply run_loop_no_IndexError.
    + intros st Hrun. by eapply run_loop_instant.
Qed.

End Claims.

(** * Runs in binary64 *)

(** [Propagator(cube_size=1, heat_conductor=HeatConductor())]: a lattice of
    one cell, every other parameter at the default of the signature. *)
Definition single_cell : Propagator.t float :=
  Build 1 (0, 0, 0) 0%float 1%float 1%float 1 10000 0.1%float aluminium.


Section FirstPass.
Context {T : Type} `{Number T}.
Context {rng : Type} (shuffle : rng → list coord → list coord * rng).
Implicit Types (self : Propagator.t T) (st : state T rng) (g : rng).

(** A run whose tolerance test passes in the first pass has recorded
    nothing when it reaches [print(cube_states[-1])]. *)
Lemma propagate_converged_at_once self g st0 st1 :
  initial_state self g = Ok st0 → 0 < max_iterations self →
  reheat_seed self (tick st0) = Ok st1 → all_close self (cube st1) = true →
  propagate shuffle self g = Err IndexError.
Proof.
  intros Hst0 Hmax Hseed Hclose. unfold propagate. rewrite Hst0. simpl.
  apply initial_state_counters in Hst0 as Hcount. injection Hcount as Hstates _ Hit.
  apply initial_state_queues in Hst0 as Hqueues.
  assert (guard self st0 = true) as Hguard.
  { unfold guard. rewrite Hqueues, Hit. simpl. by apply Z.ltb_lt. }
  destruct (Z.to_nat (max_iterations self)) as [|fuel] eqn:Hfuel; [lia|].
  simpl. rewrite Hguard. unfold step. rewrite Hseed. simpl. rewrite Hclose. simpl.
  apply finish_empty. simpl.
  apply reheat_seed_counters in Hseed as [= -> _ _]. done.
Qed.

(** So has a run that is given no pass at all. *)
Lemma propagate_no_pass self g st0 :
  initial_state self g = Ok st0 → max_iterations self ≤ 0 →
  propagate shuffle self g = Err IndexError.
Proof.
  intros Hst0 Hmax. unfold propagate. rewrite Hst0. simpl.
  apply initial_state_counters in Hst0 as Hcount. injection Hcount as Hstates _ Hit.
  replace (Z.to_nat (max_iterations self)) with O by lia. simpl.
  assert (guard self st0 = false) as ->.
  { unfold guard. rewrite Hit. apply andb_false_iff. right. by apply Z.ltb_ge. }
  simpl. by apply finish_empty.
Qed.

(** A delay of zero is met by the first pass. *)
Lemma propagate_delay_0 self g st0 :
  initial_state self g = Ok st0 → 0 < max_iterations self → delay self = 0 →
  propagate shuffle self g = Err ZeroDivisionError.
Proof.
  intros Hst0 Hmax Hdelay. unfold propagate. rewrite Hst0. simpl.
  apply initial_state_counters in Hst0 as Hcount. injection Hcount as _ _ Hit.
  apply initial_state_queues in Hst0 as Hqueues.
  destruct (Z.to_nat (max_iterations self)) as [|fuel] eqn:Hfuel; [lia|].
  rewrite run_loop_delay_0; [done..|].
  unfold guard. rewrite Hqueues, Hit. simpl. by apply Z.ltb_lt.
Qed.

(** A negative size is met by [np.full]. *)
Lemma propagate_negative_size self g :
  cube_size self < 0 → propagate shuffle self g = Err ValueError.
Proof.
  intros Hsize. unfold propagate, initial_state, np_full.
  by destruct (Z.ltb_spec (cube_size self) 0); [|lia].
Qed.

End FirstPass.

(** C1.  The run on the lattice of one cell does not return: its tolerance
    test passes in the first pass, before any snapshot is recorded, and
    [print(cube_states[-1])] raises IndexError, whatever the shuffles. *)
Theorem propagate_single_cell_raises {rng : Type}
    (shuffle : rng → list coord → list coord * rng) (g : rng) :
  propagate shuffle single_cell g = Err IndexError.
Proof.
  eapply propagate_converged_at_once.
  - vm_compute. reflexivity.
  - reflexivity.
  - vm_compute. reflexivity.
  - vm_compute. reflexivity.
Qed.

(** C2.  The parameters the specification calls invalid. *)
Definition invalid_parameters (cube_size : Z) (origin : coord)
    (delay max_iterations : Z) : Prop :=
  cube_size ≤ 0 ∨ ¬ in_cube cube_size origin ∨ delay ≤ 0 ∨ max_iterations ≤ 0.

(** C2, as amended.  [Propagator.__init__] never fails: it stores its
    arguments as they are, valid or not. *)
Theorem init_stores_unchecked {T : Type} `{Number T}
    (cube_size : Z) (origin : coord) (start_temp end_temp increment : T)
    (delay max_iterations : Z) (delta_tolerance : T)
    (heat_conductor : HeatConductor.t T) :
  __init__ cube_size origin start_temp end_temp increment delay max_iterations
           delta_tolerance heat_conductor
  = Ok (Build cube_size origin start_temp end_temp increment delay
              max_iterations delta_tolerance heat_conductor).
Proof. reflexivity. Qed.

(** C2 as stated fails: a size of zero, an origin outside the lattice, a
    delay of zero and no pass allowed are all accepted. *)
Lemma init_accepts_invalid_parameters :
  ¬ ∀ cube_size origin (start_temp end_temp increment : float) delay
      max_iterations delta_tolerance heat_conductor,
      invalid_parameters cube_size origin delay max_iterations →
      raises (__init__ cube_size origin start_temp end_temp increment delay
                       max_iterations delta_tolerance heat_conductor).
Proof.
  intros Hclaim.
  destruct (Hclaim 0 (5, 5, 5) 0%float 1%float 1%float 0 0 0.1%float aluminium)
    as [e He].
  - left. lia.
  - discriminate He.
Qed.

(** ** Witnesses *)



Lemma queues_hold_no_duplicates_witness :
  ∃ st0 st,
    initial_state (scenario 1 3) tt = Ok st0 ∧
    run_loop keep_order (scenario 1 3) 3 st0 = Ok st ∧
    Forall NoDup (propagation_queues st).
Proof.
  eexists _, _. split; [vm_compute; reflexivity|]. split; [vm_compute; reflexivity|].
  apply (queues_hold_no_duplicates keep_order (scenario 1 3) tt).
  eapply (run_loop_instant keep_order (scenario 1 3) (λ _, True) tt 3).
  - exact I.
  - intros c _. exact I.
  - vm_compute. reflexivity.
  - vm_compute. reflexivity.
Defined.

Lemma snapshots_bounded_and_shaped_witness :
  ∃ states,
    propagate keep_order (scenario 1 3) tt = Ok states ∧
    Z.of_nat (length states) ≤ 3 ∧ Forall (has_shape 2) states.
Proof.
  eexists. split; [vm_compute; reflexivity|].
  apply (snapshots_bounded_and_shaped keep_order (scenario 1 3) tt).
  vm_compute. reflexivity.
Defined.

Lemma queue_cells_inside_cube_witness :
  in_cube 2 (0, 0, 0) ∧
  ∃ st0, initial_state (scenario 1 3) tt = Ok st0 ∧
         ∀ fuel, run_loop keep_order (scenario 1 3) fuel st0 ≠ Err IndexError.
Proof.
  assert (in_cube 2 (0, 0, 0)) as Horigin by (simpl; lia).
  split; [exact Horigin|].
  destruct (queue_cells_inside_cube keep_order (scenario 1 3) tt Horigin)
    as (_ & st0 & Hst0 & Hrun).
  exists st0. split; [exact Hst0|]. intros fuel. apply Hrun.
Defined.

(** * Heat in exact arithmetic *)

(** The sum of the lattice, [np.sum(cube)] without rounding: [value] reads a
    cell as a rational. *)
Definition sum_with {A : Type} (f : A → Q) (l : list A) : Q :=
  foldr (λ x acc, f x + acc)%Q 0%Q l.

Definition lattice_total {T : Type} (value : T → Q) (cube : lattice T) : Q :=
  sum_with (sum_with (sum_with value)) cube.

(** The rational a finite binary64 number is. *)
Definition float_to_Q (x : float) : Q :=
  match Prim2SF x with
  | S754_finite s m e =>
    let v := if (0 <=? e)%Z then inject_Z (Z.pos m * 2 ^ e)
             else Qmake (Z.pos m) (Z.to_pos (2 ^ (- e))) in
    if s then (- v)%Q else v
  | _ => 0%Q
  end.

(** What the reheat of lines 82-84 adds to the origin in the pass that
    starts in [st]. *)
Definition reheat_amount {T : Type} `{Number T} {rng : Type}
    (self : Propagator.t T) (st : state T rng) : T :=
  match cube_get (cube st) (origin self) with
  | Ok v =>
    if (propagation_index st `mod` delay self =? 0) && (v <? end_temp self)%num
    then increment self else 0%num
  | Err _ => 0%num
  end.

Lemma sum_with_insert {A : Type} (f : A → Q) (l : list A) (j : nat) (x old : A) :
  l !! j = Some old →
  (sum_with f (<[j := x]> l) == sum_with f l - f old + f x)%Q.
Proof.
  revert j. induction l as [|y l IH]; intros j Hj; [done|].
  destruct j as [|j]; simpl in *.
  - injection Hj as ->. ring.
  - rewrite (IH j Hj). ring.
Qed.

Section Totals.
Context {T : Type} (value : T → Q).

Lemma axis_index_unique len i j j' :
  axis_index len i = Ok j → axis_index len i = Ok j' → j = j'.
Proof. congruence. Qed.

(** Writing a cell changes the total by the change of the cell. *)
Lemma cube_set_total (cube cube' : lattice T) c old v :
  cube_get cube c = Ok old → cube_set cube c v = Ok cube' →
  (lattice_total value cube' ==
   lattice_total value cube - value old + value v)%Q.
Proof.
  destruct c as [[x y] z]. unfold cube_get, cube_set. intros Hget Hset.
  apply bind_Ok in Hget as (plane & Hplane & Hget).
  apply bind_Ok in Hget as (row & Hrow & Hget).
  rewrite Hplane in Hset. simpl in Hset. rewrite Hrow in Hset. simpl in Hset.
  apply bind_Ok in Hset as (row' & Hrow' & Hset).
  apply bind_Ok in Hset as (plane' & Hplane' & Hset).
  apply getitem_Ok in Hplane as (j1 & Hj1 & Hplane).
  apply getitem_Ok in Hrow as (j2 & Hj2 & Hrow).
  apply getitem_Ok in Hget as (j3 & Hj3 & Hget).
  apply setitem_Ok in Hrow' as (j3' & Hj3' & ->).
  apply setitem_Ok in Hplane' as (j2' & Hj2' & ->).
  apply setitem_Ok in Hset as (j1' & Hj1' & ->).
  rewrite <- (axis_index_unique _ _ _ _ Hj1 Hj1').
  rewrite <- (axis_index_unique _ _ _ _ Hj2 Hj2').
  rewrite <- (axis_index_unique _ _ _ _ Hj3 Hj3').
  unfold lattice_total.
  rewrite (sum_with_insert _ cube j1 _ plane Hplane).
  rewrite (sum_with_insert _ plane j2 _ row Hrow).
  rewrite (sum_with_insert _ row j3 _ old Hget). ring.
Qed.

End Totals.

(** The total of a lattice of rationals. *)
Definition heat (cube : lattice Q) : Q := lattice_total (λ x, x) cube.

Section Exact.
Context {rng : Type} (shuffle : rng → list coord → list coord * rng).
Context (self : Propagator.t Q).
Implicit Types (st : state Q rng) (c d : coord).

Lemma cube_iadd_heat c v st st' :
  cube_iadd c v st = Ok st' → (heat (cube st') == heat (cube st) + v)%Q.
Proof.
  intros (old & cube' & Hget & Hset & ->)%cube_iadd_Ok. simpl. unfold heat.
  rewrite (cube_set_total _ _ _ _ _ _ Hget Hset). simpl. ring.
Qed.

Lemma cube_isub_heat c v st st' :
  cube_isub c v st = Ok st' → (heat (cube st') == heat (cube st) - v)%Q.
Proof.
  intros (old & cube' & Hget & Hset & ->)%cube_isub_Ok. simpl. unfold heat.
  rewrite (cube_set_total _ _ _ _ _ _ Hget Hset). simpl. ring.
Qed.

(** The paired updates of a visit cancel. *)
Lemma visit_heat i c d st st' :
  visit self i c d st = Ok st' → (heat (cube st') == heat (cube st))%Q.
Proof.
  intros [-> | Ht]%visit_Ok; [done|].
  destruct Ht as (q & cur & nb & st1 & st2 & c' & _ & _ & _ & _ & _ & _ & Ht & ->).
  simpl. destruct Ht as [(_ & _ & Hst1 & Hst2) | (_ & _ & Hst1 & Hst2)].
  - rewrite (cube_iadd_heat _ _ _ _ Hst2), (cube_isub_heat _ _ _ _ Hst1). ring.
  - rewrite (cube_isub_heat _ _ _ _ Hst2), (cube_iadd_heat _ _ _ _ Hst1). ring.
Qed.

Lemma process_queue_heat i st st' :
  process_queue shuffle self i st = Ok st' → (heat (cube st') == heat (cube st))%Q.
Proof.
  unfold process_queue, process_cell, drop_if_empty. intros Hrun.
  apply bind_Ok in Hrun as (st1 & Hst1 & Hrun).
  assert (heat (cube st1) == heat (cube st))%Q as <-.
  { apply bind_Ok in Hst1 as (q & _ & Hst1). destruct q as [|c q].
    - by injection Hst1 as <-.
    - eapply (for_each_invariant _ (λ t, heat (cube t) == heat (cube st))%Q);
        [| |done].
      + intros d t t' _ Ht Hv. by rewrite (visit_heat _ _ _ _ _ Hv).
      + by rewrite shuffle_directions_cube. }
  apply bind_Ok in Hrun as (q & _ & Hrun). by destruct q; injection Hrun as <-.
Qed.

Lemma reheat_seed_heat st st' :
  reheat_seed self st = Ok st' →
  (heat (cube st') == heat (cube st) + reheat_amount self st)%Q.
Proof.
  unfold reheat_seed, reheat_amount. intros Hrun.
  destruct (delay self =? 0); [done|].
  destruct (propagation_index st `mod` delay self =? 0); cbn [andb].
  - apply bind_Ok in Hrun as (v & -> & Hrun).
    apply bind_Ok in Hrun as (st1 & Hst1 & [= <-]).
    change (cube (with_queues _ st1)) with (cube st1).
    destruct (v <? end_temp self)%num.
    + by apply cube_iadd_heat in Hst1.
    + injection Hst1 as <-. change 0%num with 0%Q. ring.
  - assert (cube st' = cube st) as ->
      by (destruct (propagation_index st <? delay self); by injection Hrun as <-).
    change 0%num with 0%Q. destruct (cube_get (cube st) (origin self)); ring.
Qed.

(** C6, as amended.  In exact arithmetic, a completed pass changes the sum
    of the lattice by what its reheat adds to the origin, and by nothing
    else. *)
Theorem pass_changes_heat_by_reheat st st' :
  step shuffle self st = Ok (st', false) →
  (heat (cube st') == heat (cube st) + reheat_amount self st)%Q ∧
  (Qabs (heat (cube st') - heat (cube st)) <= Qabs (reheat_amount self st))%Q.
Proof.
  intros Hstep.
  assert (heat (cube st') == heat (cube st) + reheat_amount self st)%Q as Heq.
  { apply step_completed in Hstep as (st1 & st2 & Hst1 & _ & Hst2 & -> & _).
    simpl. apply reheat_seed_heat in Hst1.
    change (reheat_amount self (tick st)) with (reheat_amount self st) in Hst1.
    change (cube (tick st)) with (cube st) in Hst1. rewrite <- Hst1.
    eapply (for_each_invariant _ (λ t, heat (cube t) == heat (cube st1))%Q);
      [|reflexivity|done].
    intros i t t' _ Ht Hq. by rewrite (process_queue_heat _ _ _ Hq). }
  split; [done|]. rewrite Heq.
  assert (heat (cube st) + reheat_amount self st - heat (cube st)
          == reheat_amount self st)%Q as -> by ring.
  apply Qle_refl.
Qed.

End Exact.

(** * The kernel and the cross-sectional area *)

(** C3, as amended.  In exact arithmetic, and with a cell length, a density
    and a specific heat that are not zero, two positive areas give the same
    temperature change. *)
Theorem area_cancels_in_exact_arithmetic
    (k c_p rho min_delta conduction_time delta_x a1 a2 t1 t2 : Q) :
  (0 < a1)%Q → (0 < a2)%Q →
  ¬ (delta_x == 0)%Q → ¬ (rho == 0)%Q → ¬ (c_p == 0)%Q →
  (HeatConductor.calculate_temperature_change
     (HeatConductor.__init__ k c_p rho min_delta conduction_time delta_x a1) t1 t2
   ==
   HeatConductor.calculate_temperature_change
     (HeatConductor.__init__ k c_p rho min_delta conduction_time delta_x a2) t1 t2)%Q.
Proof.
  intros Ha1 Ha2 Hdx Hrho Hcp.
  unfold HeatConductor.calculate_temperature_change, HeatConductor.delta_temp.
  cbn -[Qle_bool Qabs Qmult Qdiv Qplus Qminus Qopp].
  set (dt1 := (_ / (_ * a1 * _ * _))%Q). set (dt2 := (_ / (_ * a2 * _ * _))%Q).
  assert (dt1 == dt2)%Q as Hdt.
  { unfold dt1, dt2. field. split_and!; try done; lra. }
  rewrite (Qleb_comp _ _ (reflexivity min_delta) _ _ (Qabs_wd _ _ Hdt)).
  by destruct (negb _).
Qed.

Lemma area_cancels_in_exact_arithmetic_witness :
  (HeatConductor.calculate_temperature_change
     (HeatConductor.__init__ 237 900 2700 (1 # 100000) 1 1 1) (7 # 10) 0
   ==
   HeatConductor.calculate_temperature_change
     (HeatConductor.__init__ 237 900 2700 (1 # 100000) 1 1 3) (7 # 10) 0)%Q.
Proof.
  apply area_cancels_in_exact_arithmetic.
  - reflexivity.
  - reflexivity.
  - discriminate.
  - discriminate.
  - discriminate.
Defined.

(** C3 as stated fails in binary64: at temperatures 0.7 and 0.0 the
    conductor of the defaults gives -6.8271604938271592e-05 with area 1 and
    -6.8271604938271606e-05 with area 3. *)
Lemma area_changes_the_result :
  ¬ ∀ k c_p rho min_delta conduction_time delta_x a1 a2 t1 t2 : float,
      (0 <? a1)%float = true → (0 <? a2)%float = true →
      (HeatConductor.calculate_temperature_change
         (HeatConductor.__init__ k c_p rho min_delta conduction_time delta_x a1)
         t1 t2
       =?
       HeatConductor.calculate_temperature_change
         (HeatConductor.__init__ k c_p rho min_delta conduction_time delta_x a2)
         t1 t2)%float = true.
Proof.
  intros Hclaim.
  specialize (Hclaim 237 900 2700 1e-5 1 1 1 3 0.7 0 eq_refl eq_refl)%float.
  vm_compute in Hclaim. discriminate Hclaim.
Qed.

(** * Runs in exact arithmetic, and the sum of the lattice in binary64 *)

Definition aluminium_exact : HeatConductor.t Q :=
  (HeatConductor.__init__ 237 900 2700 (1 # 100000) 1 1 1)%Q.

(** The scenario with an end temperature of 2: the reheat fires in the
    first pass. *)
Definition heating : Propagator.t Q :=
  Build 2 (0, 0, 0) 0%Q 2%Q 1%Q 1 3 (1 # 20)%Q aluminium_exact.

Lemma pass_changes_heat_by_reheat_witness :
  ∃ st0 st',
    initial_state heating tt = Ok st0 ∧
    step keep_order heating st0 = Ok (st', false) ∧
    (heat (cube st') == heat (cube st0) + reheat_amount heating st0)%Q.
Proof.
  eexists _, _. split; [vm_compute; reflexivity|].
  lazymatch goal with
  | |- step _ _ ?st0 = _ ∧ _ =>
    eassert (step keep_order heating st0 = Ok (_, false)) as Hstep
      by (vm_compute; reflexivity)
  end.
  split; [exact Hstep|].
  apply (pass_changes_heat_by_reheat keep_order heating _ _ Hstep).
Defined.

(** C6 as stated fails in binary64: the first pass of the scenario reheats
    nothing (the origin is at the end temperature already), and the six
    transfers out of the origin, each rounded, change the sum of the lattice
    from 1 to 1 + 3039 / 2^65. *)
Lemma rounding_changes_the_sum :
  ¬ ∀ (self : Propagator.t float) (g : unit) st st',
      at_top keep_order self g st →
      step keep_order self st = Ok (st', false) →
      (Qabs (lattice_total float_to_Q (cube st') -
             lattice_total float_to_Q (cube st))
       <= Qabs (float_to_Q (reheat_amount self st)))%Q.
Proof.
  intros Hclaim.
  eassert (at_top keep_order (scenario 1 3) tt _) as Htop
    by (eapply at_top_init; vm_compute; reflexivity).
  lazymatch type of Htop with
  | at_top _ _ _ ?st0 =>
    eassert (step keep_order (scenario 1 3) st0 = Ok (_, false)) as Hstep
      by (vm_compute; reflexivity)
  end.
  specialize (Hclaim _ _ _ _ Htop Hstep).
  vm_compute in Hclaim. by apply Hclaim.
Qed.

(** * binary64: signs and negation *)

Lemma binary_round_aux_opp s m e l :
  binary_round_aux prec emax (negb s) m e l = SFopp (binary_round_aux prec emax s m e l).
Proof.
  unfold binary_round_aux.
  destruct (shr_fexp prec emax m e l) as [mrs e'].
  destruct (shr_fexp prec emax _ e' loc_Exact) as [mrs' e''].
  destruct (shr_m mrs'); [done| |done]. by destruct (e'' <=? emax - prec).
Qed.

Lemma binary_round_opp s m e :
  binary_round prec emax (negb s) m e = SFopp (binary_round prec emax s m e).
Proof.
  unfold binary_round. destruct (shl_align m e _) as [mz ez].
  apply binary_round_aux_opp.
Qed.

Lemma xorb_negb_r a b : xorb a (negb b) = negb (xorb a b).
Proof. by destruct a, b. Qed.
Lemma xorb_negb_l a b : xorb (negb a) b = negb (xorb a b).
Proof. by destruct a, b. Qed.

Lemma SFmul_opp_r x y : SF64mul x (SFopp y) = SFopp (SF64mul x y).
Proof.
  destruct x as [sx|sx| |sx mx ex], y as [sy|sy| |sy my ey]; simpl;
    rewrite ?xorb_negb_r; try done.
  apply binary_round_aux_opp.
Qed.

Lemma SFmul_opp_l x y : SF64mul (SFopp x) y = SFopp (SF64mul x y).
Proof.
  destruct x as [sx|sx| |sx mx ex], y as [sy|sy| |sy my ey]; simpl;
    rewrite ?xorb_negb_l; try done.
  apply binary_round_aux_opp.
Qed.

Lemma SFdiv_opp_l x y : SF64div (SFopp x) y = SFopp (SF64div x y).
Proof.
  destruct x as [sx|sx| |sx mx ex], y as [sy|sy| |sy my ey]; simpl;
    rewrite ?xorb_negb_l; try done.
  destruct (SFdiv_core_binary prec emax (Z.pos mx) ex (Z.pos my) ey) as [[mz ez] lz].
  apply binary_round_aux_opp.
Qed.

Lemma SFopp_involutive x : SFopp (SFopp x) = x.
Proof. destruct x; simpl; by rewrite ?negb_involutive. Qed.

Definition SFzero (x : spec_float) : Prop := ∃ s, x = S754_zero s.

(** [y] is the negative of [x], up to the sign of a zero. *)
Definition mirror (x y : spec_float) : Prop :=
  y = SFopp x ∨ SFzero x ∧ SFzero y.

Lemma binary_normalize_mirror m e :
  mirror (binary_normalize prec emax m e false) (binary_normalize prec emax (- m) e false).
Proof.
  destruct m as [|p|p]; simpl.
  - right. split; by eexists.
  - left. apply (binary_round_opp false).
  - left. change true with (negb false).
    by rewrite binary_round_opp, SFopp_involutive.
Qed.

Lemma SFsub_mirror x y : mirror (SF64sub x y) (SF64sub y x).
Proof.
  destruct x as [sx|sx| |sx mx ex], y as [sy|sy| |sy my ey]; simpl;
    try (by left); try (by left; destruct sx, sy);
    try (by right; split; destruct sx, sy; eexists).
  rewrite (Z.min_comm ey ex).
  set (a := cond_Zopp sx _). set (b := cond_Zopp sy _).
  replace (b - a) with (- (a - b)) by lia.
  apply binary_normalize_mirror.
Qed.

Lemma mirror_mul_l c x y : mirror x y → mirror (SF64mul c x) (SF64mul c y).
Proof.
  intros [-> | [[sx ->] [sy ->]]].
  - left. apply SFmul_opp_r.
  - destruct c as [sc|sc| |sc mc ec]; simpl; try (by left);
      right; split; by eexists.
Qed.

Lemma mirror_mul_r c x y : mirror x y → mirror (SF64mul x c) (SF64mul y c).
Proof.
  intros [-> | [[sx ->] [sy ->]]].
  - left. apply SFmul_opp_l.
  - destruct c as [sc|sc| |sc mc ec]; simpl; try (by left);
      right; split; by eexists.
Qed.

Lemma mirror_div_l c x y : mirror x y → mirror (SF64div x c) (SF64div y c).
Proof.
  intros [-> | [[sx ->] [sy ->]]].
  - left. apply SFdiv_opp_l.
  - destruct c as [sc|sc| |sc mc ec]; simpl; try (by left);
      right; split; by eexists.
Qed.

Lemma mirror_abs x y : mirror x y → SFabs x = SFabs y.
Proof.
  intros [-> | [[sx ->] [sy ->]]]; [|done]. by destruct x.
Qed.

Lemma SFcompare_refl x : x ≠ S754_nan → SFcompare x x = Some Eq.
Proof.
  destruct x as [s|s| |s m e]; intros Hx; simpl; try done.
  - by destruct s.
  - rewrite Z.compare_refl, Pos.compare_cont_refl. by destruct s.
Qed.

Lemma mirror_eqb x y :
  mirror x y → x = S754_nan ∧ y = S754_nan ∨ SFeqb x (SFopp y) = true.
Proof.
  intros [-> | [[sx ->] [sy ->]]]; [|by right].
  rewrite SFopp_involutive. unfold SFeqb.
  destruct x as [s|s| |s m e]; [right|right|by left|right];
    by rewrite SFcompare_refl.
Qed.

(** ** Signs *)

(** [x] is a NaN or has the sign bit [b]. *)
Definition has_sign (b : bool) (x : spec_float) : Prop :=
  match x with
  | S754_nan => True
  | S754_zero s | S754_infinity s | S754_finite s _ _ => s = b
  end.

Lemma binary_round_aux_sign s m e l :
  has_sign s (binary_round_aux prec emax s m e l).
Proof.
  unfold binary_round_aux.
  destruct (shr_fexp prec emax m e l) as [mrs e'].
  destruct (shr_fexp prec emax _ e' loc_Exact) as [mrs' e''].
  destruct (shr_m mrs'); [done| |done]. by destruct (e'' <=? emax - prec).
Qed.

Lemma binary_round_sign s m e : has_sign s (binary_round prec emax s m e).
Proof.
  unfold binary_round. destruct (shl_align m e _) as [mz ez].
  apply binary_round_aux_sign.
Qed.

Lemma SFmul_sign b1 b2 x y :
  has_sign b1 x → has_sign b2 y → has_sign (xorb b1 b2) (SF64mul x y).
Proof.
  destruct x as [sx|sx| |sx mx ex], y as [sy|sy| |sy my ey]; simpl;
    try done; try (by intros -> ->).
  intros -> ->. apply binary_round_aux_sign.
Qed.

Lemma SFdiv_sign b1 b2 x y :
  has_sign b1 x → has_sign b2 y → has_sign (xorb b1 b2) (SF64div x y).
Proof.
  destruct x as [sx|sx| |sx mx ex], y as [sy|sy| |sy my ey]; simpl;
    try done; try (by intros -> ->).
  intros -> ->.
  destruct (SFdiv_core_binary prec emax (Z.pos mx) ex (Z.pos my) ey) as [[mz ez] lz].
  apply binary_round_aux_sign.
Qed.

Lemma SFopp_sign b x : has_sign b x → has_sign (negb b) (SFopp x).
Proof. destruct x; simpl; try done; by intros ->. Qed.

Lemma SFltb_zero_sign x : SFltb (S754_zero false) x = true → has_sign false x.
Proof. destruct x as [s|s| |s m e]; simpl; try done; by destruct s. Qed.

Lemma has_sign_leb_zero x :
  has_sign true x → x = S754_nan ∨ SFleb x (S754_zero false) = true.
Proof. destruct x as [s|s| |s m e]; simpl; try (by left); intros ->; by right. Qed.

(** ** The difference of two ordered numbers *)

Lemma digits2_pos_bounds m :
  2 ^ (Z.pos (digits2_pos m) - 1) ≤ Z.pos m < 2 ^ Z.pos (digits2_pos m).
Proof.
  induction m as [m IH|m IH|]; simpl; [| |lia].
  - rewrite Pos2Z.inj_succ.
    replace (Z.succ (Z.pos (digits2_pos m)) - 1) with (Z.succ (Z.pos (digits2_pos m) - 1)) by lia.
    rewrite !Z.pow_succ_r by lia. lia.
  - rewrite Pos2Z.inj_succ.
    replace (Z.succ (Z.pos (digits2_pos m)) - 1) with (Z.succ (Z.pos (digits2_pos m) - 1)) by lia.
    rewrite !Z.pow_succ_r by lia. lia.
Qed.

Lemma shl_align_value m e e' :
  e' ≤ e → Z.pos (shl_align m e e').1 = Z.pos m * 2 ^ (e - e').
Proof.
  intros He. unfold shl_align. destruct (e' - e) as [|d|d] eqn:Hd.
  - replace (e - e') with 0 by lia. simpl. lia.
  - lia.
  - simpl. change (Pos.iter xO m d) with (shift_pos d m).
    rewrite shift_pos_correct, Z.pow_pos_fold.
    replace (e - e') with (Z.pos d) by lia. lia.
Qed.

(** A mantissa of a number of binary64 has at most [prec] digits, and
    exactly [prec] above the least exponent. *)
Lemma bounded_digits m e :
  bounded prec emax m e = true →
  emin ≤ e ∧ Z.pos (digits2_pos m) ≤ prec ∧
  (emin < e → Z.pos (digits2_pos m) = prec).
Proof.
  unfold bounded, canonical_mantissa, fexp.
  intros [He%Z.eqb_eq _]%andb_true_iff. lia.
Qed.

Lemma aligned_lt m1 e1 m2 e2 :
  bounded prec emax m1 e1 = true → bounded prec emax m2 e2 = true →
  e1 < e2 ∨ e1 = e2 ∧ (m1 < m2)%positive →
  Z.pos m1 * 2 ^ (e1 - e1 `min` e2) < Z.pos m2 * 2 ^ (e2 - e1 `min` e2).
Proof.
  intros (Hmin1 & Hd1 & _)%bounded_digits (_ & _ & Hd2)%bounded_digits [Hlt | [-> Hlt]].
  - rewrite Z.min_l by lia. rewrite Z.sub_diag. simpl.
    specialize (Hd2 ltac:(lia)).
    pose proof (digits2_pos_bounds m1) as [_ H1].
    pose proof (digits2_pos_bounds m2) as [H2 _].
    rewrite Hd2 in H2.
    assert (2 ^ Z.pos (digits2_pos m1) ≤ 2 ^ prec) by (apply Z.pow_le_mono_r; lia).
    assert (2 ^ 1 ≤ 2 ^ (e2 - e1)) by (apply Z.pow_le_mono_r; lia).
    change (2 ^ (prec - 1)) with 4503599627370496 in H2.
    change (2 ^ prec) with 9007199254740992 in *.
    change (2 ^ 1) with 2 in *. nia.
  - rewrite Z.min_id, Z.sub_diag. simpl. lia.
Qed.

Lemma binary_normalize_sign m e : 0 ≤ m → has_sign false (binary_normalize prec emax m e false).
Proof.
  destruct m as [|p|p]; simpl; [done| |lia]. intros _. apply binary_round_sign.
Qed.

(** The difference of a number and a smaller one has the sign bit clear. *)
Lemma SFsub_sign x y :
  valid_binary x = true → valid_binary y = true → SFltb y x = true →
  has_sign false (SF64sub x y).
Proof.
  destruct x as [sx|sx| |sx mx ex], y as [sy|sy| |sy my ey];
    unfold SFltb; simpl; try done;
    try (by destruct sx); try (by destruct sy); try (by destruct sx, sy).
  intros Hx Hy Hlt. apply binary_normalize_sign.
  rewrite !shl_align_value by lia.
  pose proof (aligned_lt my ey mx ex Hy Hx) as Hyx.
  pose proof (aligned_lt mx ex my ey Hx Hy) as Hxy.
  rewrite (Z.min_comm ey ex) in Hyx.
  assert (0 < 2 ^ (ex - ex `min` ey)) by (apply Z.pow_pos_nonneg; lia).
  assert (0 < 2 ^ (ey - ex `min` ey)) by (apply Z.pow_pos_nonneg; lia).
  change (Pos.compare_cont Eq my mx) with (Pos.compare my mx) in Hlt.
  destruct sx, sy; simpl; try done.
  - destruct (Z.compare_spec ey ex) as [-> | Hlt' | Hgt]; try done.
    + destruct (Pos.compare_spec my mx) as [| |Hm]; try done.
      specialize (Hxy ltac:(right; split; [done|lia])). lia.
    + specialize (Hxy ltac:(left; lia)). lia.
  - nia.
  - destruct (Z.compare_spec ey ex) as [-> | Hlt' | Hgt]; try done.
    + destruct (Pos.compare_spec my mx) as [|Hm|]; try done.
      specialize (Hyx ltac:(right; split; [done|lia])). lia.
    + specialize (Hyx ltac:(left; lia)). lia.
Qed.

(** ** The kernel in binary64 *)

(** [0 < p] for each of the seven parameters of the conductor. *)
Definition positive_parameters (self : HeatConductor.t float) : Prop :=
  (0 <? HeatConductor.k self)%float = true ∧
  (0 <? HeatConductor.c_p self)%float = true ∧
  (0 <? HeatConductor.rho self)%float = true ∧
  (0 <? HeatConductor.min_delta self)%float = true ∧
  (0 <? HeatConductor.conduction_time self)%float = true ∧
  (0 <? HeatConductor.delta_x self)%float = true ∧
  (0 <? HeatConductor.a self)%float = true.

Section Binary64Kernel.
Context (self : HeatConductor.t float).

Lemma positive_sign x : (0 <? x)%float = true → has_sign false (Prim2SF x).
Proof. rewrite FloatAxioms.ltb_spec. apply SFltb_zero_sign. Qed.

Lemma is_nan_spec x : Prim2SF x = S754_nan → is_nan x = true.
Proof. intros Hx. unfold is_nan. by rewrite FloatAxioms.eqb_spec, Hx. Qed.

(** Swapping the temperatures negates the unclamped change. *)
Lemma delta_temp_mirror t1 t2 :
  mirror (Prim2SF (HeatConductor.delta_temp self t1 t2))
         (Prim2SF (HeatConductor.delta_temp self t2 t1)).
Proof.
  unfold HeatConductor.delta_temp. simpl.
  rewrite !div_spec. apply mirror_div_l.
  rewrite !mul_spec. apply mirror_mul_r.
  rewrite !div_spec. apply mirror_div_l.
  rewrite !mul_spec. apply mirror_mul_l.
  rewrite !sub_spec. apply SFsub_mirror.
Qed.

Lemma delta_temp_sign t1 t2 :
  positive_parameters self → (t2 <? t1)%float = true →
  has_sign true (Prim2SF (HeatConductor.delta_temp self t1 t2)).
Proof.
  intros (Hk & Hcp & Hrho & _ & Hct & Hdx & Ha) Hlt.
  apply positive_sign in Hk, Hcp, Hrho, Hct, Hdx, Ha.
  unfold HeatConductor.delta_temp. simpl.
  rewrite div_spec. apply (SFdiv_sign true false).
  - rewrite mul_spec. apply (SFmul_sign true false); [|done].
    rewrite div_spec. apply (SFdiv_sign true false); [|done].
    rewrite mul_spec. apply (SFmul_sign true false).
    + rewrite mul_spec. apply (SFmul_sign true false); [|done].
      rewrite opp_spec. by apply (SFopp_sign false).
    + rewrite sub_spec. apply SFsub_sign; [apply Prim2SF_valid..|].
      by rewrite <- FloatAxioms.ltb_spec.
  - rewrite mul_spec. apply (SFmul_sign false false); [|done].
    rewrite mul_spec. apply (SFmul_sign false false); [|done].
    rewrite mul_spec. by apply (SFmul_sign false false).
Qed.

End Binary64Kernel.

(** C4, as amended.  In binary64 the clamp decides alike for the two
    orders of the temperatures, and the two results are negatives of each
    other ([==]) unless both are NaN; with positive parameters and
    [T1 > T2] the result is [<= 0] unless it is a NaN. *)
Theorem kernel_antisymmetric_up_to_nan (self : HeatConductor.t float)
    (t1 t2 : float) :
  let r12 := HeatConductor.calculate_temperature_change self t1 t2 in
  let r21 := HeatConductor.calculate_temperature_change self t2 t1 in
  (abs (HeatConductor.delta_temp self t1 t2) <? HeatConductor.min_delta self)%float
  = (abs (HeatConductor.delta_temp self t2 t1) <? HeatConductor.min_delta self)%float ∧
  (is_nan r12 = true ∧ is_nan r21 = true ∨ (r12 =? - r21)%float = true) ∧
  (positive_parameters self → (t2 <? t1)%float = true →
   is_nan r12 = true ∨ (r12 <=? 0)%float = true).
Proof.
  intros r12 r21.
  pose proof (delta_temp_mirror self t1 t2) as Hmirror.
  assert ((abs (HeatConductor.delta_temp self t1 t2) <? HeatConductor.min_delta self)%float
          = (abs (HeatConductor.delta_temp self t2 t1) <? HeatConductor.min_delta self)%float)
    as Hclamp.
  { rewrite !FloatAxioms.ltb_spec, !abs_spec. by rewrite (mirror_abs _ _ Hmirror). }
  split; [done|].
  unfold r12, r21, HeatConductor.calculate_temperature_change.
  cbn [num_ltb num_abs num_zero float_Number].
  rewrite <- Hclamp.
  destruct (abs (HeatConductor.delta_temp self t1 t2) <? HeatConductor.min_delta self)%float.
  - split; [by right|]. intros _ _. by right.
  - split.
    + rewrite FloatAxioms.eqb_spec, opp_spec.
      destruct (mirror_eqb _ _ Hmirror) as [[H12 H21] | Heq]; [|by right].
      left. split; by apply is_nan_spec.
    + intros Hpos Hlt. rewrite FloatAxioms.leb_spec.
      destruct (has_sign_leb_zero _ (delta_temp_sign self t1 t2 Hpos Hlt))
        as [Hnan | Hle]; [|by right].
      left. by apply is_nan_spec.
Qed.

Lemma kernel_antisymmetric_up_to_nan_witness :
  positive_parameters aluminium ∧ (0 <? 0.7)%float = true ∧
  (HeatConductor.calculate_temperature_change aluminium 0.7 0 <=? 0)%float = true.
Proof.
  assert (positive_parameters aluminium) as Hpos by (by vm_compute).
  assert ((0 <? 0.7)%float = true) as Hlt by reflexivity.
  split; [exact Hpos|]. split; [exact Hlt|].
  destruct (kernel_antisymmetric_up_to_nan aluminium 0.7 0) as (_ & _ & Hsign).
  destruct (Hsign Hpos Hlt) as [Hnan | Hle]; [discriminate Hnan | exact Hle].
Defined.

(** C4 as stated fails in binary64: with a density of 1e308 and a cell
    length of 10 the mass overflows, and between the temperatures 1e308 and
    -1e308 the change is -inf / inf, a NaN, which is neither [<= 0] nor
    [==] to anything. *)
Lemma kernel_result_may_be_nan :
  ¬ ∀ (self : HeatConductor.t float) (t1 t2 : float),
      positive_parameters self →
      ((t2 <? t1)%float = true →
       (HeatConductor.calculate_temperature_change self t1 t2 <=? 0)%float = true) ∧
      (HeatConductor.calculate_temperature_change self t1 t2
       =? - HeatConductor.calculate_temperature_change self t2 t1)%float = true.
Proof.
  intros Hclaim.
  destruct (Hclaim (HeatConductor.__init__ 237 900 1e308 1e-5 1 10 1)%float
              1e308%float (-1e308)%float) as [Hsign _].
  - by vm_compute.
  - specialize (Hsign eq_refl). vm_compute in Hsign. discriminate Hsign.
Qed.

(** * The scenario with a delay of 1000 and ten passes *)

(** The lattice with 2 x 2 x 2 cells: the origin, its three neighbours,
    and the four cells further away. *)
Definition lattice8 {T : Type} (o x y z xy xz yz xyz : T) : lattice T :=
  [[[o; z]; [y; yz]]; [[x; xz]; [xy; xyz]]].

Definition six : list coord :=
  [(1, 0, 0); (-1, 0, 0); (0, 1, 0); (0, -1, 0); (0, 0, 1); (0, 0, -1)].

Definition near : list coord := [(1, 0, 0); (0, 1, 0); (0, 0, 1)].

Lemma delete_insert_same {A : Type} (l : list A) (i : nat) (x : A) :
  delete i (<[i := x]> l) = delete i l.
Proof.
  revert i. induction l as [|y l IH]; intros [|i]; simpl; try done.
  f_equal. apply IH.
Qed.

Lemma last_insert_below {A : Type} (l : list A) (i : nat) (x : A) :
  (S i < length l)%nat → last (<[i := x]> l) = last l.
Proof.
  intros Hi. rewrite !last_lookup, length_insert.
  apply list_lookup_insert_ne. lia.
Qed.

Lemma last_delete_below {A : Type} (l : list A) (i : nat) :
  (S i < length l)%nat → last (delete i l) = last l.
Proof.
  intros Hi. rewrite !last_lookup.
  rewrite length_delete by (apply lookup_lt_is_Some_2; lia).
  rewrite list_lookup_delete_ge by lia. f_equal. lia.
Qed.

Section Exhausted.
Context {T : Type} `{Number T}.
Context {rng : Type} (shuffle : rng → list coord → list coord * rng).
(** [random.shuffle] rearranges the list. *)
Context (shuffle_perm : ∀ g l, (shuffle g l).1 ≡ₚ l).
Context (start_temp end_temp increment delta_tolerance : T).
Context (heat_conductor : HeatConductor.t T).

Definition ten_passes : Propagator.t T :=
  Build 2 (0, 0, 0) start_temp end_temp increment 1000 10 delta_tolerance
        heat_conductor.

(** What the proof needs of the numbers: the origin stays [hot] and its
    neighbours [warm] through 33 transfers ([j] counts them), the cells
    further away stay [cold]. *)
Context (hot warm : nat → T → Prop) (cold : T → Prop).
Context (hot_start : hot 0 (start_temp + increment)%num).
Context (warm_start : warm 0 start_temp).
Context (cold_start : cold start_temp).
Context (no_reheat : ((start_temp + increment) <? end_temp)%num = false).
Context (warm_S : ∀ j v, warm j v → warm (S j) v).
Context (cold_not_close :
  ∀ v, cold v → isclose v end_temp 0%num delta_tolerance = false).
(** The origin passes heat to a neighbour. *)
Context (flows : ∀ j o n, (j ≤ 33)%nat → hot j o → warm j n →
  let diff := HeatConductor.calculate_temperature_change heat_conductor o n in
  (o >? n)%num = true ∧ (diff <? 0)%num = true ∧ (diff >=? 0)%num = false).
Context (transfer : ∀ j o n, (j < 33)%nat → hot j o → warm j n →
  let diff := HeatConductor.calculate_temperature_change heat_conductor o n in
  warm (S j) (n - diff)%num ∧ hot (S j) (o + diff)%num).
Context (hot_S : ∀ j v, hot j v → hot (S j) v).
(** A neighbour is not hotter than the origin. *)
Context (no_backflow : ∀ j o n, (j ≤ 33)%nat → hot j o → warm j n →
  (n >? o)%num = false).
(** What a neighbour would pass further is below [min_delta]. *)
Context (clamped : ∀ j n f, (j ≤ 33)%nat → warm j n → cold f →
  (n >? f)%num = true →
  let diff := HeatConductor.calculate_temperature_change heat_conductor n f in
  (diff <? 0)%num = false ∧ cold (f + diff)%num ∧ warm j (n - diff)%num).

Implicit Types (st : state T rng) (c d : coord) (q : list coord).

Inductive thermal (j : nat) : lattice T → Prop :=
| thermal_lattice o x y z xy xz yz xyz :
    hot j o → warm j x → warm j y → warm j z →
    cold xy → cold xz → cold yz → cold xyz →
    thermal j (lattice8 o x y z xy xz yz xyz).

Lemma thermal_shape j cube : thermal j cube → has_shape 2 cube.
Proof. intros []. repeat constructor. Qed.

Lemma thermal_not_close j cube : thermal j cube → all_close ten_passes cube = false.
Proof.
  intros [o x y z xy xz yz xyz _ _ _ _ _ _ _ Hxyz]. unfold all_close. simpl.
  rewrite (cold_not_close xyz Hxyz). by rewrite !andb_false_r.
Qed.

Lemma thermal_S j cube :
  thermal j cube → ∀ o', hot (S j) o' →
  ∃ o x y z xy xz yz xyz, cube = lattice8 o x y z xy xz yz xyz ∧
    thermal (S j) (lattice8 o' x y z xy xz yz xyz).
Proof.
  intros [o x y z xy xz yz xyz Ho Hx Hy Hz Hxy Hxz Hyz Hxyz] o' Ho'.
  exists o, x, y, z, xy, xz, yz, xyz. split; [done|].
  constructor; auto.
Qed.


(** Queue [i] of [st'] is queue [i] of [st] with cells appended, and
    nothing else but the lattice differs. *)
Definition grows (i : nat) st st' : Prop :=
  ∃ q q', propagation_queues st !! i = Some q ∧
          propagation_queues st' = <[i := q ++ q']> (propagation_queues st) ∧
          cube_states st' = cube_states st ∧
          directions st' = directions st ∧
          propagation_index st' = propagation_index st ∧
          iterations st' = iterations st ∧ gen st' = gen st.

Lemma grows_refl i st q : propagation_queues st !! i = Some q → grows i st st.
Proof.
  intros Hq. exists q, []. rewrite app_nil_r, list_insert_id by done. done.
Qed.

Lemma grows_trans i st1 st2 st3 : grows i st1 st2 → grows i st2 st3 → grows i st1 st3.
Proof.
  intros (q1 & q1' & Hq1 & Hqs1 & ? & ? & ? & ? & ?)
         (q2 & q2' & Hq2 & Hqs2 & ? & ? & ? & ? & ?).
  rewrite Hqs1 in Hq2. rewrite list_lookup_insert_eq in Hq2
    by (by eapply lookup_lt_Some).
  injection Hq2 as <-.
  exists q1, (q1' ++ q2'). split_and!; try congruence.
  rewrite Hqs2, Hqs1, list_insert_insert_eq. by rewrite app_assoc.
Qed.

Lemma visit_grows i c d st st' q :
  propagation_queues st !! i = Some q →
  visit ten_passes i c d st = Ok st' → grows i st st'.
Proof.
  intros Hq [-> | Ht]%visit_Ok; [by eapply grows_refl|].
  pose proof (transfers_queues _ _ _ _ _ _ Ht) as (q0 & c' & Hq0 & _ & _ & Hqs).
  destruct Ht as (? & ? & ? & st1 & st2 & ? & _ & _ & _ & _ & _ & _ & Ht & ->).
  exists q0, [c']. split; [done|]. split; [done|].
  destruct Ht as [(_ & _ & Hst1 & Hst2) | (_ & _ & Hst1 & Hst2)].
  - apply cube_isub_Ok in Hst1 as (? & ? & _ & _ & ->).
    by apply cube_iadd_Ok in Hst2 as (? & ? & _ & _ & ->).
  - apply cube_iadd_Ok in Hst1 as (? & ? & _ & _ & ->).
    by apply cube_isub_Ok in Hst2 as (? & ? & _ & _ & ->).
Qed.

Lemma near_x : (1, 0, 0) ∈ near.
Proof. unfold near. by repeat constructor. Qed.
Lemma near_y : (0, 1, 0) ∈ near.
Proof. unfold near. by repeat constructor. Qed.
Lemma near_z : (0, 0, 1) ∈ near.
Proof. unfold near. by repeat constructor. Qed.
#[local] Hint Resolve near_x near_y near_z : core.

Lemma near_room q n :
  NoDup q → Forall (.∈ near) q → n ∈ near → n ∉ q → (length q ≤ 2)%nat.
Proof.
  intros Hnodup Hnear Hn Hnq.
  assert (n :: q ⊆+ near) as Hsub%submseteq_length.
  { apply NoDup_submseteq; [by constructor|].
    intros c [-> | Hc]%elem_of_cons; [done|].
    by eapply (proj1 (Forall_forall _ _) Hnear). }
  simpl in Hsub. lia.
Qed.

(** The origin's turn: each direction into the lattice finds a neighbour
    to heat, unless the queue holds it already. *)
Lemma visit_origin j i d st st' q :
  (j + 3 ≤ 33)%nat → d ∈ six →
  propagation_queues st !! i = Some q → Forall (.∈ near) q → NoDup q →
  thermal (j + length q) (cube st) →
  visit ten_passes i (0, 0, 0) d st = Ok st' →
  ∃ q', propagation_queues st' !! i = Some q' ∧ Forall (.∈ near) q' ∧
        thermal (j + length q') (cube st') ∧
        (d ∈ near → neighbour (0, 0, 0) d ∈ q').
Proof.
  intros Hj Hd Hq Hnear Hnodup Hcube Hvisit.
  assert (length q ≤ 3)%nat as Hlen.
  { assert (q ⊆+ near) as Hsub%submseteq_length; [|done].
    apply NoDup_submseteq; [done|]. by apply Forall_forall. }
  destruct st as [cube states dirs queues idx it g]. simpl in *.
  destruct Hcube as [o x y z xy xz yz xyz Ho Hx Hy Hz Hxy Hxz Hyz Hxyz].
  unfold six in Hd. repeat (apply elem_of_cons in Hd as [-> | Hd]);
    [..|by apply elem_of_nil in Hd];
    unfold visit in Hvisit; simpl in Hvisit;
    try (injection Hvisit as <-; exists q; split_and!; try done;
         by (constructor) || (intros Hin; unfold near in Hin;
             repeat (apply elem_of_cons in Hin as [[=] | Hin]);
             by apply elem_of_nil in Hin)).
  - destruct (flows (j + length q)%nat o x ltac:(lia) Ho Hx) as (Hgt & Hneg & Hpos).
    rewrite Hgt in Hvisit. unfold queue_at in Hvisit. simpl in Hvisit.
    rewrite Hq in Hvisit. simpl in Hvisit. rewrite Hneg, Hpos in Hvisit.
    simpl in Hvisit.
    destruct (bool_decide ((0 + 1, 0 + 0, 0 + 0) ∈ q)) eqn:Hmem; simpl in Hvisit.
    + apply bool_decide_eq_true in Hmem. injection Hvisit as <-. exists q.
      split_and!; done.
    + apply bool_decide_eq_false in Hmem.
      unfold queue_append, queue_at in Hvisit. simpl in Hvisit.
      rewrite Hq in Hvisit. simpl in Hvisit. injection Hvisit as <-. simpl.
      exists (q ++ [(1, 0, 0)]).
      rewrite list_lookup_insert_eq by (by eapply lookup_lt_Some).
      assert (length q ≤ 2)%nat
        by (eapply (near_room q (1, 0, 0)); try done).
      destruct (transfer (j + length q)%nat o x ltac:(lia) Ho Hx) as (Hn' & Ho').
      split_and!; try done.
      * apply Forall_app. split; [done|]. by apply Forall_singleton.
      * rewrite length_app. simpl. replace (j + (length q + 1))%nat
          with (S (j + length q)) by lia.
        constructor; auto.
      * intros _. apply elem_of_app. right. by apply list_elem_of_singleton.
  - destruct (flows (j + length q)%nat o y ltac:(lia) Ho Hy) as (Hgt & Hneg & Hpos).
    rewrite Hgt in Hvisit. unfold queue_at in Hvisit. simpl in Hvisit.
    rewrite Hq in Hvisit. simpl in Hvisit. rewrite Hneg, Hpos in Hvisit.
    simpl in Hvisit.
    destruct (bool_decide ((0 + 0, 0 + 1, 0 + 0) ∈ q)) eqn:Hmem; simpl in Hvisit.
    + apply bool_decide_eq_true in Hmem. injection Hvisit as <-. exists q.
      split_and!; done.
    + apply bool_decide_eq_false in Hmem.
      unfold queue_append, queue_at in Hvisit. simpl in Hvisit.
      rewrite Hq in Hvisit. simpl in Hvisit. injection Hvisit as <-. simpl.
      exists (q ++ [(0, 1, 0)]).
      rewrite list_lookup_insert_eq by (by eapply lookup_lt_Some).
      assert (length q ≤ 2)%nat
        by (eapply (near_room q (0, 1, 0)); try done).
      destruct (transfer (j + length q)%nat o y ltac:(lia) Ho Hy) as (Hn' & Ho').
      split_and!; try done.
      * apply Forall_app. split; [done|]. by apply Forall_singleton.
      * rewrite length_app. simpl. replace (j + (length q + 1))%nat
          with (S (j + length q)) by lia.
        constructor; auto.
      * intros _. apply elem_of_app. right. by apply list_elem_of_singleton.
  - destruct (flows (j + length q)%nat o z ltac:(lia) Ho Hz) as (Hgt & Hneg & Hpos).
    rewrite Hgt in Hvisit. unfold queue_at in Hvisit. simpl in Hvisit.
    rewrite Hq in Hvisit. simpl in Hvisit. rewrite Hneg, Hpos in Hvisit.
    simpl in Hvisit.
    destruct (bool_decide ((0 + 0, 0 + 0, 0 + 1) ∈ q)) eqn:Hmem; simpl in Hvisit.
    + apply bool_decide_eq_true in Hmem. injection Hvisit as <-. exists q.
      split_and!; done.
    + apply bool_decide_eq_false in Hmem.
      unfold queue_append, queue_at in Hvisit. simpl in Hvisit.
      rewrite Hq in Hvisit. simpl in Hvisit. injection Hvisit as <-. simpl.
      exists (q ++ [(0, 0, 1)]).
      rewrite list_lookup_insert_eq by (by eapply lookup_lt_Some).
      assert (length q ≤ 2)%nat
        by (eapply (near_room q (0, 0, 1)); try done).
      destruct (transfer (j + length q)%nat o z ltac:(lia) Ho Hz) as (Hn' & Ho').
      split_and!; try done.
      * apply Forall_app. split; [done|]. by apply Forall_singleton.
      * rewrite length_app. simpl. replace (j + (length q + 1))%nat
          with (S (j + length q)) by lia.
        constructor; auto.
      * intros _. apply elem_of_app. right. by apply list_elem_of_singleton.
Qed.


(** A neighbour's turn: it takes nothing from the origin and passes
    nothing on; the queue gets at most the neighbour itself back. *)
Lemma visit_near j i c d st st' q :
  (j ≤ 33)%nat → c ∈ near → d ∈ six →
  propagation_queues st !! i = Some q → thermal j (cube st) →
  visit ten_passes i c d st = Ok st' →
  thermal j (cube st') ∧
  ∃ q', propagation_queues st' !! i = Some q' ∧ (q' = q ∨ q' = q ++ [c]).
Proof.
  intros Hj Hc Hd Hq Hcube Hvisit.
  destruct st as [cube states dirs queues idx it g]. simpl in *.
  destruct Hcube as [o x y z xy xz yz xyz Ho Hx Hy Hz Hxy Hxz Hyz Hxyz].
  unfold near in Hc. unfold six in Hd.
  repeat (apply elem_of_cons in Hc as [-> | Hc]); [..|by apply elem_of_nil in Hc];
  repeat (apply elem_of_cons in Hd as [-> | Hd]); try (by apply elem_of_nil in Hd);
  unfold visit in Hvisit; simpl in Hvisit;
  try (injection Hvisit as <-; split; [by constructor | exists q; split; [done | by left]]);
  try (erewrite no_backflow in Hvisit by eassumption;
       injection Hvisit as <-; split; [by constructor | exists q; split; [done | by left]]);
  (lazymatch type of Hvisit with
   | (if (?nb <? ?cur)%num then _ else _) = _ =>
     destruct (nb <? cur)%num eqn:Hgt;
     [ destruct (clamped j cur nb Hj ltac:(eassumption) ltac:(eassumption) Hgt)
         as (Hneg & Hcold & Hwarm);
       unfold queue_at in Hvisit; simpl in Hvisit; rewrite Hq in Hvisit;
       simpl in Hvisit; rewrite Hneg in Hvisit; simpl in Hvisit;
       lazymatch type of Hvisit with
       | (if ?b then _ else _) = _ =>
         destruct b;
         [ unfold queue_append, queue_at in Hvisit; simpl in Hvisit;
           rewrite Hq in Hvisit; simpl in Hvisit; injection Hvisit as <-; simpl;
           split; [by constructor|];
           eexists; split;
             [apply list_lookup_insert_eq; by eapply lookup_lt_Some | by right]
         | injection Hvisit as <-; split;
             [by constructor | exists q; split; [done | by left]] ]
       end
     | injection Hvisit as <-; split;
         [by constructor | exists q; split; [done | by left]] ]
   end).
Qed.


Lemma thermal_le j j' cube : (j ≤ j')%nat → thermal j cube → thermal j' cube.
Proof.
  induction 1 as [|j' _ IH]; [done|]. intros Hcube.
  destruct (IH Hcube). constructor; auto.
Qed.

Lemma grows_lookup i st st' q :
  grows i st st' → propagation_queues st !! i = Some q →
  ∃ q', propagation_queues st' !! i = Some (q ++ q') ∧
        propagation_queues st' = <[i := q ++ q']> (propagation_queues st).
Proof.
  intros (q0 & q' & Hq0 & Hqs & _) Hq. rewrite Hq in Hq0. injection Hq0 as <-.
  exists q'. split; [|done]. rewrite Hqs.
  apply list_lookup_insert_eq. by eapply lookup_lt_Some.
Qed.

Lemma rtc_move_NoDup (self : Propagator.t T) ok st st' :
  rtc (move shuffle self ok) st st' →
  Forall NoDup (propagation_queues st) → Forall NoDup (propagation_queues st').
Proof.
  induction 1 as [|st st1 st' Hmove _ IH]; [done|].
  intros Hst. apply IH. by eapply move_NoDup.
Qed.

(** The six directions out of the origin, in any order. *)
Lemma visits_origin j i l st st' q :
  (j + 3 ≤ 33)%nat → Forall (.∈ six) l →
  propagation_queues st !! i = Some q → Forall (.∈ near) q →
  Forall NoDup (propagation_queues st) → thermal (j + length q) (cube st) →
  for_each (visit ten_passes i (0, 0, 0)) l st = Ok st' →
  ∃ q', propagation_queues st' !! i = Some q' ∧ Forall (.∈ near) q' ∧
        Forall NoDup (propagation_queues st') ∧
        thermal (j + length q') (cube st') ∧ grows i st st' ∧
        ∀ d, d ∈ l → d ∈ near → neighbour (0, 0, 0) d ∈ q'.
Proof.
  intros Hj Hl. revert st q.
  induction Hl as [|d l Hd Hl IH]; intros st q Hq Hnear Hnodup Hcube Hrun;
    cbn [for_each] in Hrun.
  - injection Hrun as <-. exists q. split_and!; try done.
    + by eapply grows_refl.
    + by intros d Hd%elem_of_nil.
  - apply bind_Ok in Hrun as (st1 & Hst1 & Hrun).
    assert (NoDup q) as Hq_nodup by (by eapply Forall_lookup_1 in Hnodup).
    destruct (visit_origin j i d st st1 q) as (q1 & Hq1 & Hnear1 & Hcube1 & Hd1);
      try done.
    assert (Forall NoDup (propagation_queues st1)) as Hnodup1.
    { eapply (move_NoDup shuffle ten_passes (λ _, True)); [|done].
      eapply move_visit; [done | exact Hst1]. }
    apply (visit_grows _ _ _ _ _ _ Hq) in Hst1 as Hgrows1.
    destruct (IH st1 q1) as (q' & Hq' & Hnear' & Hnodup' & Hcube' & Hgrows' & Hl');
      try done.
    exists q'. split_and!; try done.
    + by eapply grows_trans.
    + intros d' [-> | Hd']%elem_of_cons Hd'near; [|by apply Hl'].
      destruct (grows_lookup _ _ _ _ Hgrows' Hq1) as (q2 & Hq2 & _).
      rewrite Hq' in Hq2. injection Hq2 as ->.
      apply elem_of_app. left. by apply Hd1.
Qed.

(** The six directions out of a neighbour, in any order. *)
Lemma visits_near j i c l st st' q :
  (j ≤ 33)%nat → c ∈ near → Forall (.∈ six) l →
  propagation_queues st !! i = Some q → Forall (.∈ near) q →
  thermal j (cube st) →
  for_each (visit ten_passes i c) l st = Ok st' →
  ∃ q', propagation_queues st' !! i = Some q' ∧ Forall (.∈ near) q' ∧
        thermal j (cube st') ∧ grows i st st'.
Proof.
  intros Hj Hc Hl. revert st q.
  induction Hl as [|d l Hd Hl IH]; intros st q Hq Hnear Hcube Hrun;
    cbn [for_each] in Hrun.
  - injection Hrun as <-. exists q. split_and!; try done. by eapply grows_refl.
  - apply bind_Ok in Hrun as (st1 & Hst1 & Hrun).
    destruct (visit_near j i c d st st1 q) as (Hcube1 & q1 & Hq1 & Hq1'); try done.
    apply (visit_grows _ _ _ _ _ _ Hq) in Hst1 as Hgrows1.
    destruct (IH st1 q1) as (q' & Hq' & Hnear' & Hcube' & Hgrows'); try done.
    { destruct Hq1' as [-> | ->]; [done|].
      apply Forall_app. split; [done|]. by apply Forall_singleton. }
    exists q'. split_and!; try done. by eapply grows_trans.
Qed.


Lemma shuffle_directions_perm st :
  directions st ≡ₚ six → directions (shuffle_directions shuffle st) ≡ₚ six.
Proof.
  intros Hdirs. unfold shuffle_directions.
  pose proof (shuffle_perm (gen st) (directions st)) as Hperm.
  destruct (shuffle (gen st) (directions st)) as [dirs g]. simpl in *.
  by rewrite Hperm.
Qed.

Lemma near_length q : NoDup q → Forall (.∈ near) q → (length q ≤ 3)%nat.
Proof.
  intros Hnodup Hnear.
  assert (q ⊆+ near) as Hsub%submseteq_length; [|done].
  apply NoDup_submseteq; [done|]. by apply Forall_forall.
Qed.

(** Lines 100-137 for a queue that holds the origin alone. *)
Lemma process_cell_origin j i st st' :
  (j + 3 ≤ 33)%nat → propagation_queues st !! i = Some [(0, 0, 0)] →
  thermal j (cube st) → Forall NoDup (propagation_queues st) →
  directions st ≡ₚ six →
  process_cell shuffle ten_passes i st = Ok st' →
  ∃ q, q ≠ [] ∧ Forall (.∈ near) q ∧
       propagation_queues st' = <[i := q]> (propagation_queues st) ∧
       thermal (j + 3) (cube st') ∧ directions st' ≡ₚ six.
Proof.
  intros Hj Hq Hcube Hnodup Hdirs Hrun. unfold process_cell in Hrun.
  rewrite (proj2 (queue_at_Ok _ _ _) Hq) in Hrun. cbn [mbind result_bind] in Hrun.
  set (st1 := with_queues _ st) in Hrun.
  set (st2 := shuffle_directions shuffle st1) in Hrun.
  assert (directions st2 ≡ₚ six) as Hdirs2 by (by apply shuffle_directions_perm).
  assert (propagation_queues st2 !! i = Some []) as Hq2.
  { unfold st2. rewrite shuffle_directions_queues. simpl.
    apply list_lookup_insert_eq. by eapply lookup_lt_Some. }
  destruct (visits_origin j i (directions st2) st2 st' [])
    as (q & Hq' & Hnear & Hnodup' & Hcube' & Hgrows & Hin); try done.
  { apply Forall_forall. intros d Hd. by rewrite Hdirs2 in Hd. }
  { unfold st2. rewrite shuffle_directions_queues. simpl.
    apply Forall_insert; [done | apply NoDup_nil_2]. }
  { unfold st2. rewrite shuffle_directions_cube. simpl. by rewrite Nat.add_0_r. }
  destruct (grows_lookup _ _ _ _ Hgrows Hq2) as (q2 & Hq2' & Hqs).
  rewrite Hq' in Hq2'. injection Hq2' as ->. simpl in Hqs.
  exists q2. split_and!; try done.
  - assert ((1, 0, 0) ∈ q2) as Hx; [|by destruct q2; [apply elem_of_nil in Hx|]].
    apply (Hin (1, 0, 0)); [|done]. rewrite Hdirs2. unfold six. by constructor.
  - rewrite Hqs. unfold st2. rewrite shuffle_directions_queues. simpl.
    by rewrite list_insert_insert_eq.
  - eapply thermal_le; [|done].
    assert (length q2 ≤ 3)%nat; [|lia].
    apply near_length; [|done]. by eapply Forall_lookup_1 in Hnodup'.
  - destruct Hgrows as (_ & _ & _ & _ & _ & -> & _). done.
Qed.

(** Lines 100-137 for a queue of neighbours. *)
Lemma process_cell_near j i st st' q :
  (j ≤ 33)%nat → propagation_queues st !! i = Some q → Forall (.∈ near) q →
  thermal j (cube st) → directions st ≡ₚ six →
  process_cell shuffle ten_passes i st = Ok st' →
  ∃ q', Forall (.∈ near) q' ∧
        propagation_queues st' = <[i := q']> (propagation_queues st) ∧
        thermal j (cube st') ∧ directions st' ≡ₚ six.
Proof.
  intros Hj Hq Hnear Hcube Hdirs Hrun. unfold process_cell in Hrun.
  rewrite (proj2 (queue_at_Ok _ _ _) Hq) in Hrun. cbn [mbind result_bind] in Hrun.
  destruct q as [|c q].
  { injection Hrun as <-. exists []. split_and!; try done.
    by rewrite list_insert_id. }
  apply Forall_cons_1 in Hnear as [Hc Hnear].
  set (st1 := with_queues _ st) in Hrun.
  set (st2 := shuffle_directions shuffle st1) in Hrun.
  assert (directions st2 ≡ₚ six) as Hdirs2 by (by apply shuffle_directions_perm).
  assert (propagation_queues st2 !! i = Some q) as Hq2.
  { unfold st2. rewrite shuffle_directions_queues. simpl.
    apply list_lookup_insert_eq. by eapply lookup_lt_Some. }
  destruct (visits_near j i c (directions st2) st2 st' q)
    as (q' & Hq' & Hnear' & Hcube' & Hgrows); try done.
  { apply Forall_forall. intros d Hd. by rewrite Hdirs2 in Hd. }
  { unfold st2. by rewrite shuffle_directions_cube. }
  destruct (grows_lookup _ _ _ _ Hgrows Hq2) as (q2 & Hq2' & Hqs).
  rewrite Hq' in Hq2'. injection Hq2' as ->.
  exists (q ++ q2). split_and!; try done.
  - rewrite Hqs. unfold st2. rewrite shuffle_directions_queues. simpl.
    by rewrite list_insert_insert_eq.
  - destruct Hgrows as (_ & _ & _ & _ & _ & -> & _). done.
Qed.


Lemma process_queue_origin j i st st' :
  (j + 3 ≤ 33)%nat → propagation_queues st !! i = Some [(0, 0, 0)] →
  thermal j (cube st) → Forall NoDup (propagation_queues st) →
  directions st ≡ₚ six →
  process_queue shuffle ten_passes i st = Ok st' →
  ∃ q, q ≠ [] ∧ Forall (.∈ near) q ∧
       propagation_queues st' = <[i := q]> (propagation_queues st) ∧
       thermal (j + 3) (cube st') ∧ directions st' ≡ₚ six.
Proof.
  intros Hj Hq Hcube Hnodup Hdirs Hrun. unfold process_queue in Hrun.
  apply bind_Ok in Hrun as (st1 & Hst1 & Hrun).
  destruct (process_cell_origin j i st st1)
    as (q & Hne & Hnear & Hqs & Hcube1 & Hdirs1); try done.
  exists q. unfold drop_if_empty, queue_at in Hrun. rewrite Hqs in Hrun.
  rewrite list_lookup_insert_eq in Hrun by (by eapply lookup_lt_Some).
  simpl in Hrun. destruct q; [done|]. by injection Hrun as <-.
Qed.

Lemma process_queue_near j i st st' q :
  (j ≤ 33)%nat → propagation_queues st !! i = Some q → Forall (.∈ near) q →
  thermal j (cube st) → directions st ≡ₚ six →
  process_queue shuffle ten_passes i st = Ok st' →
  ∃ q', Forall (.∈ near) q' ∧
        (propagation_queues st' = <[i := q']> (propagation_queues st) ∨
         propagation_queues st' = delete i (propagation_queues st)) ∧
        thermal j (cube st') ∧ directions st' ≡ₚ six.
Proof.
  intros Hj Hq Hnear Hcube Hdirs Hrun. unfold process_queue in Hrun.
  apply bind_Ok in Hrun as (st1 & Hst1 & Hrun).
  destruct (process_cell_near j i st st1 q)
    as (q' & Hnear' & Hqs & Hcube1 & Hdirs1); try done.
  exists q'. unfold drop_if_empty, queue_at in Hrun. rewrite Hqs in Hrun.
  rewrite list_lookup_insert_eq in Hrun by (by eapply lookup_lt_Some).
  simpl in Hrun. destruct q'; injection Hrun as <-; simpl.
  - split_and!; try done. right. by rewrite delete_insert_same.
  - split_and!; try done. by left.
Qed.

(** The lattice and the queues once the new queue has had its turn:
    [q_new] is that queue, the last one. *)
Definition settled (j : nat) (q_new : list coord) st : Prop :=
  thermal j (cube st) ∧
  Forall (Forall (.∈ near)) (propagation_queues st) ∧
  last (propagation_queues st) = Some q_new ∧
  directions st ≡ₚ six.

Lemma process_queue_settled j q_new i st st' :
  (j ≤ 33)%nat → settled j q_new st →
  (S i < length (propagation_queues st))%nat →
  process_queue shuffle ten_passes i st = Ok st' →
  settled j q_new st' ∧ (i < length (propagation_queues st'))%nat.
Proof.
  intros Hj (Hcube & Hnear & Hlast & Hdirs) Hi Hrun.
  destruct (lookup_lt_is_Some_2 (propagation_queues st) i) as [q Hq]; [lia|].
  destruct (process_queue_near j i st st' q)
    as (q' & Hnear' & Hqs & Hcube' & Hdirs'); try done.
  { by eapply Forall_lookup_1 in Hnear. }
  unfold settled. destruct Hqs as [-> | ->].
  - rewrite length_insert. split; [|lia]. split_and!; try done.
    + by apply Forall_insert.
    + by rewrite last_insert_below.
  - rewrite length_delete by (by eexists). split; [|lia]. split_and!; try done.
    + by apply Forall_delete.
    + by rewrite last_delete_below.
Qed.

(** The queues below the new one have their turns, last to first. *)
Lemma process_queues_settled j q_new k st st' :
  (j ≤ 33)%nat → settled j q_new st →
  (k < length (propagation_queues st))%nat →
  for_each (process_queue shuffle ten_passes) (reverse (seq 0 k)) st = Ok st' →
  settled j q_new st'.
Proof.
  intros Hj. revert st. induction k as [|k IH]; intros st Hst Hk Hrun.
  - by injection Hrun as <-.
  - rewrite seq_S, reverse_snoc in Hrun. change (0 + k)%nat with k in Hrun.
    cbn [for_each] in Hrun. apply bind_Ok in Hrun as (st1 & Hst1 & Hrun).
    destruct (process_queue_settled j q_new k st st1) as [Hst1' Hk1]; try done.
    by eapply IH.
Qed.


(** The top of the loop after [k] passes, [k >= 1]. *)
Definition top (k : nat) st : Prop :=
  iterations st = Z.of_nat k ∧ propagation_index st = Z.of_nat k ∧
  length (cube_states st) = k ∧ directions st ≡ₚ six ∧
  thermal (3 * (k + 1)) (cube st) ∧ propagation_queues st ≠ [] ∧
  Forall (Forall (.∈ near)) (propagation_queues st) ∧
  Forall NoDup (propagation_queues st).

Lemma near_in_cube c : c ∈ near → in_cube 2 c.
Proof.
  unfold near. intros Hc.
  repeat (apply elem_of_cons in Hc as [-> | Hc]); [..|by apply elem_of_nil in Hc];
    simpl; lia.
Qed.

Lemma origin_in_cube : in_cube (cube_size ten_passes) (origin ten_passes).
Proof. simpl. lia. Qed.

Lemma step_NoDup st st' broke :
  Forall NoDup (propagation_queues st) →
  step shuffle ten_passes st = Ok (st', broke) →
  Forall NoDup (propagation_queues st').
Proof.
  intros Hnodup Hstep. eapply (rtc_move_NoDup ten_passes (λ _, True)); [|done].
  eapply step_moves; [done..| |done].
  apply Forall_true. intros q. by apply Forall_true.
Qed.

(** The top of a pass after the first: the branch of line 88 appends the
    new queue. *)
Lemma seed_top k st :
  (1 ≤ k < 10)%nat → top k st →
  reheat_seed ten_passes (tick st)
  = Ok (with_queues (propagation_queues st ++ [[(0, 0, 0)]]) (tick st)).
Proof.
  intros Hk (Hit & Hidx & _). unfold reheat_seed. simpl. rewrite Hidx.
  rewrite Z.mod_small by lia.
  destruct (Z.eqb_spec (Z.of_nat k) 0) as [|_]; [lia|].
  destruct (Z.ltb_spec (Z.of_nat k) 1000) as [_|]; [done|lia].
Qed.

Lemma step_top k st :
  (1 ≤ k < 10)%nat → top k st →
  ∃ st', step shuffle ten_passes st = Ok (st', false) ∧ top (S k) st'.
Proof.
  intros Hk Htop. pose proof (seed_top k st Hk Htop) as Hseed.
  destruct Htop as (Hit & Hidx & Hstates & Hdirs & Hcube & Hne & Hnear & Hnodup).
  destruct (step_total shuffle ten_passes origin_in_cube st) as [[st' broke] Hstep].
  { split.
    - by eapply thermal_shape.
    - eapply Forall_impl; [exact Hnear|]. intros q Hq.
      eapply Forall_impl; [exact Hq|]. apply near_in_cube. }
  { done. }
  exists st'. apply step_NoDup in Hstep as Hnodup'; [|done].
  destruct broke.
  { apply step_broke in Hstep as (st1 & Hst1 & Hclose & _).
    rewrite Hseed in Hst1. injection Hst1 as <-. simpl in Hclose.
    by rewrite (thermal_not_close _ _ Hcube) in Hclose. }
  split; [done|].
  apply step_completed in Hstep
    as (st1 & st2 & Hst1 & _ & Hst2 & -> & Hstates' & Hidx' & Hit').
  rewrite Hseed in Hst1. injection Hst1 as <-.
  cbn [propagation_queues with_queues] in Hst2.
  rewrite length_app in Hst2. cbn [length] in Hst2.
  rewrite Nat.add_1_r, seq_S, reverse_snoc in Hst2.
  change (0 + length (propagation_queues st))%nat
    with (length (propagation_queues st)) in Hst2.
  cbn [for_each] in Hst2. apply bind_Ok in Hst2 as (st1 & Hst1 & Hst2).
  destruct (process_queue_origin (3 * (k + 1))
              (length (propagation_queues st))
              (with_queues (propagation_queues st ++ [[(0, 0, 0)]]) (tick st))
              st1 ltac:(lia)
              (list_lookup_middle (propagation_queues st) [] [(0, 0, 0)] _ eq_refl)
              Hcube
              (proj2 (Forall_app _ _ _)
                 (conj Hnodup (proj2 (Forall_singleton _ _)
                                 (NoDup_singleton (0, 0, 0)))))
              Hdirs Hst1)
    as (q & Hq & Hqnear & Hqs & Hcube1 & Hdirs1).
  cbn [propagation_queues with_queues] in Hqs.
  rewrite insert_app_r_alt, Nat.sub_diag in Hqs by done. simpl in Hqs.
  assert (settled (3 * (k + 1) + 3) q st1) as Hsettled.
  { split_and!; try done.
    - rewrite Hqs. apply Forall_app. split; [done|]. by apply Forall_singleton.
    - rewrite Hqs. apply last_snoc. }
  apply process_queues_settled with (j := (3 * (k + 1) + 3)%nat) (q_new := q)
    in Hst2 as (Hcube2 & Hnear2 & Hlast2 & Hdirs2); [|lia|done|].
  2: { rewrite Hqs, length_app. simpl. lia. }
  split_and!; try done.
  - rewrite Hit'. lia.
  - rewrite Hidx'. lia.
  - rewrite Hstates', length_app. simpl. lia.
  - by replace (3 * (S k + 1))%nat with (3 * (k + 1) + 3)%nat by lia.
  - intros Hnil. simpl in Hnil. by rewrite Hnil in Hlast2.
Qed.


Lemma initial_state_ten (g : rng) :
  initial_state ten_passes g
  = Ok (State (lattice8 (start_temp + increment)%num start_temp start_temp
                        start_temp start_temp start_temp start_temp start_temp)
              [] six [[(0, 0, 0)]] 0 0 g).
Proof. reflexivity. Qed.

(** The top of the first pass: the branch of line 82 appends the new
    queue, and the origin is at [end_temp] already. *)
Lemma seed_initial (g : rng) st0 :
  initial_state ten_passes g = Ok st0 →
  reheat_seed ten_passes (tick st0)
  = Ok (with_queues (propagation_queues st0 ++ [[(0, 0, 0)]]) (tick st0)).
Proof.
  rewrite initial_state_ten. intros [= <-].
  unfold reheat_seed. simpl. by rewrite no_reheat.
Qed.

(** The first pass: the queue of the start and the new queue both hold the
    origin alone. *)
Lemma first_step (g : rng) st0 :
  initial_state ten_passes g = Ok st0 →
  ∃ st', step shuffle ten_passes st0 = Ok (st', false) ∧ top 1 st'.
Proof.
  intros Hinit. pose proof (seed_initial g st0 Hinit) as Hseed.
  revert Hinit Hseed. rewrite initial_state_ten. intros [= <-].
  set (st0 := State _ _ _ _ _ _ _). intros Hseed.
  change (propagation_queues st0) with [[(0, 0, 0)]] in Hseed.
  assert (thermal 0 (cube st0)) as Hcube by (by constructor).
  destruct (step_total shuffle ten_passes origin_in_cube st0) as [[st' broke] Hstep].
  { split; [by eapply thermal_shape|].
    apply Forall_singleton, Forall_singleton. simpl. lia. }
  { done. }
  exists st'.
  apply step_NoDup in Hstep as Hnodup';
    [|apply Forall_singleton, NoDup_singleton].
  destruct broke.
  { apply step_broke in Hstep as (st1 & Hst1 & Hclose & _).
    rewrite Hseed in Hst1. injection Hst1 as <-.
    change (all_close ten_passes (cube st0) = true) in Hclose.
    by rewrite (thermal_not_close _ _ Hcube) in Hclose. }
  split; [done|].
  apply step_completed in Hstep
    as (st1 & st2 & Hst1 & _ & Hst2 & -> & Hstates' & Hidx' & Hit').
  rewrite Hseed in Hst1. injection Hst1 as <-.
  cbn [propagation_queues with_queues app length seq reverse rev_append for_each]
    in Hst2.
  change (reverse [0; 1]%nat) with [1; 0]%nat in Hst2. cbn [for_each] in Hst2.
  apply bind_Ok in Hst2 as (sta & Hsta & Hst2).
  apply bind_Ok in Hst2 as (stb & Hstb & [= <-]).
  destruct (process_queue_origin 0 1
              (with_queues [[(0, 0, 0)]; [(0, 0, 0)]] (tick st0)) sta)
    as (q1 & Hq1 & Hnear1 & Hqs1 & Hcube1 & Hdirs1); try done.
  { lia. }
  { repeat constructor; apply not_elem_of_nil. }
  assert (Forall NoDup (propagation_queues sta)) as Hnodup1.
  { eapply (rtc_move_NoDup ten_passes (λ _, True)).
    - eapply process_queue_moves; [|exact Hsta].
      apply Forall_true. intros q. by apply Forall_true.
    - repeat constructor; apply not_elem_of_nil. }
  simpl in Hqs1.
  destruct (process_queue_origin 3 0 sta stb)
    as (q0 & Hq0 & Hnear0 & Hqs0 & Hcube0 & Hdirs0); try done.
  { lia. }
  { by rewrite Hqs1. }
  rewrite Hqs1 in Hqs0. simpl in Hqs0.
  split_and!; try done.
  - by rewrite Hstates'.
  - simpl. by rewrite Hqs0.
  - simpl. rewrite Hqs0. by repeat constructor.
Qed.

(** From the top after [k] passes the loop runs until ten are made. *)
Lemma run_from_top k fuel st :
  (1 ≤ k ≤ 10)%nat → top k st → (10 - k ≤ fuel)%nat →
  ∃ st', run_loop shuffle ten_passes fuel st = Ok st' ∧ top 10 st'.
Proof.
  revert k st. induction fuel as [|fuel IH]; intros k st Hk Htop Hfuel.
  - assert (k = 10)%nat as -> by lia. exists st. split; [|done].
    simpl. by destruct (guard ten_passes st).
  - destruct (decide (k = 10%nat)) as [-> | Hk10].
    + exists st. split; [|done]. simpl.
      destruct Htop as [Hit _]. unfold guard. rewrite Hit. simpl.
      by rewrite andb_false_r.
    + destruct (step_top k st) as (st1 & Hstep & Htop1); [lia|done|].
      simpl. destruct Htop as (Hit & _ & _ & _ & _ & Hne & _).
      assert (guard ten_passes st = true) as ->.
      { unfold guard. rewrite Hit. simpl.
        rewrite bool_decide_eq_false_2 by done. simpl. apply Z.ltb_lt. lia. }
      rewrite Hstep. simpl. apply (IH (S k)); [lia|done|lia].
Qed.

Lemma top_guard k st : top k st → guard ten_passes st = true → (k < 10)%nat.
Proof.
  intros [Hit _] [_ Hlt%Z.ltb_lt]%andb_true_iff. simpl in Hlt. lia.
Qed.

(** The tops of the loop are the start and the tops after 1 to 10 passes. *)
Lemma at_top_cases (g : rng) st :
  at_top shuffle ten_passes g st →
  initial_state ten_passes g = Ok st ∨ ∃ k, (1 ≤ k ≤ 10)%nat ∧ top k st.
Proof.
  induction 1 as [st0 Hinit | st st' _ IH Hguard Hstep]; [by left|]. right.
  destruct IH as [Hinit | (k & Hk & Htop)].
  - destruct (first_step g st Hinit) as (st1 & Hstep1 & Htop1).
    rewrite Hstep in Hstep1. injection Hstep1 as <-. exists 1%nat. split; [lia|done].
  - pose proof (top_guard k st Htop Hguard) as Hlt.
    destruct (step_top k st ltac:(lia) Htop) as (st1 & Hstep1 & Htop1).
    rewrite Hstep in Hstep1. injection Hstep1 as <-. exists (S k). split; [lia|done].
Qed.

(** Every pass starts with a new queue that holds the origin. *)
Lemma seeded_every_pass (g : rng) st :
  at_top shuffle ten_passes g st → guard ten_passes st = true →
  reheat_seed ten_passes (tick st)
  = Ok (with_queues (propagation_queues st ++ [[origin ten_passes]]) (tick st)).
Proof.
  intros [Hinit | (k & Hk & Htop)]%at_top_cases Hguard.
  - by apply (seed_initial g).
  - pose proof (top_guard k st Htop Hguard). apply (seed_top k); [lia|done].
Qed.

(** Ten passes are made, and the queues are not empty after the tenth. *)
Lemma ten_passes_made (g : rng) :
  ∃ st0 st states,
    initial_state ten_passes g = Ok st0 ∧
    run_loop shuffle ten_passes (Z.to_nat (max_iterations ten_passes)) st0 = Ok st ∧
    iterations st = max_iterations ten_passes ∧ propagation_queues st ≠ [] ∧
    propagate shuffle ten_passes g = Ok states ∧ length states = 10%nat.
Proof.
  destruct (first_step g _ (initial_state_ten g)) as (st1 & Hstep & Htop1).
  destruct (run_from_top 1 9 st1) as (st & Hrun & Htop); [lia|done|lia|].
  eexists _, st, (cube_states st). split; [apply initial_state_ten|].
  assert (run_loop shuffle ten_passes (Z.to_nat (max_iterations ten_passes))
            (State (lattice8 (start_temp + increment)%num start_temp start_temp
                      start_temp start_temp start_temp start_temp start_temp)
               [] six [[(0, 0, 0)]] 0 0 g) = Ok st) as Hloop.
  { change (Z.to_nat (max_iterations ten_passes)) with 10%nat.
    cbn [run_loop]. change (guard ten_passes (State _ _ _ _ _ _ _)) with true.
    cbv iota. rewrite Hstep. exact Hrun. }
  destruct Htop as (Hit & _ & Hstates & _ & _ & Hne & _).
  split_and!; try done.
  unfold propagate. rewrite initial_state_ten. cbn [mbind result_bind].
  rewrite Hloop. cbn [mbind result_bind].
  assert (cube_states st ≠ []) as Hrec by (by intros Heq; rewrite Heq in Hstates).
  destruct (exists_last Hrec) as (prev & snapshot & Heq).
  rewrite Heq. by apply finish_recorded.
Qed.

(** The run of the scenario: ten passes, each seeded, and queues left. *)
Lemma ten_passes_exhausted (g : rng) :
  (∃ st0 st states,
    initial_state ten_passes g = Ok st0 ∧
    run_loop shuffle ten_passes (Z.to_nat (max_iterations ten_passes)) st0 = Ok st ∧
    iterations st = max_iterations ten_passes ∧ propagation_queues st ≠ [] ∧
    propagate shuffle ten_passes g = Ok states ∧ length states = 10%nat) ∧
  (∀ st, at_top shuffle ten_passes g st → guard ten_passes st = true →
    reheat_seed ten_passes (tick st)
    = Ok (with_queues (propagation_queues st ++ [[origin ten_passes]]) (tick st))).
Proof. split; [apply ten_passes_made | apply seeded_every_pass]. Qed.

End Exhausted.

(** ** Rounding to binary64, between two numbers of binary64 *)

Lemma fexp_eq z : fexp prec emax z = Z.max (z - 53) (-1074).
Proof. reflexivity. Qed.

Lemma Zdigits2_bounds m :
  0 < m → 2 ^ (Zdigits2 m - 1) ≤ m < 2 ^ Zdigits2 m.
Proof. destruct m as [|m|m]; [lia| |lia]. intros _. apply digits2_pos_bounds. Qed.

Lemma Zdigits2_nonneg m : 0 ≤ Zdigits2 m.
Proof. destruct m; simpl; lia. Qed.

Lemma Zdigits2_unique m d :
  2 ^ (d - 1) ≤ m < 2 ^ d → 0 < d → Zdigits2 m = d.
Proof.
  intros [Hlo Hhi] Hd.
  assert (0 < m) as Hm.
  { assert (0 < 2 ^ (d - 1)) by (apply Z.pow_pos_nonneg; lia). lia. }
  pose proof (Zdigits2_bounds m Hm) as [Hlo' Hhi'].
  pose proof (Zdigits2_nonneg m).
  destruct (Z.lt_trichotomy (Zdigits2 m) d) as [Hlt | [Heq | Hgt]]; [|done|].
  - assert (2 ^ Zdigits2 m ≤ 2 ^ (d - 1)) by (apply Z.pow_le_mono_r; lia). lia.
  - assert (2 ^ d ≤ 2 ^ (Zdigits2 m - 1)) by (apply Z.pow_le_mono_r; lia). lia.
Qed.

Lemma Zdigits2_le m m' : 0 ≤ m ≤ m' → Zdigits2 m ≤ Zdigits2 m'.
Proof.
  intros [Hm Hle]. destruct (Z.eq_dec m 0) as [-> | Hne].
  { apply Zdigits2_nonneg. }
  pose proof (Zdigits2_bounds m ltac:(lia)) as [Hlo _].
  pose proof (Zdigits2_bounds m' ltac:(lia)) as [_ Hhi].
  destruct (Z.le_gt_cases (Zdigits2 m) (Zdigits2 m')) as [|Hgt]; [done|].
  assert (2 ^ Zdigits2 m' ≤ 2 ^ (Zdigits2 m - 1)).
  { apply Z.pow_le_mono_r; [lia|]. lia. }
  lia.
Qed.

(** The digits that a shift to the right leaves. *)
Lemma Zdigits2_shift m n :
  0 < m → 0 ≤ n →
  (n < Zdigits2 m → Zdigits2 (m / 2 ^ n) = Zdigits2 m - n) ∧
  (Zdigits2 m ≤ n → m / 2 ^ n = 0).
Proof.
  intros Hm Hn. pose proof (Zdigits2_bounds m Hm) as [Hlo Hhi].
  assert (0 < 2 ^ n) as Hpow by (apply Z.pow_pos_nonneg; lia).
  split; intros Hd.
  - apply Zdigits2_unique; [|lia]. split.
    + apply Z.div_le_lower_bound; [done|].
      rewrite <-Z.pow_add_r by lia.
      by replace (n + (Zdigits2 m - n - 1)) with (Zdigits2 m - 1) by lia.
    + apply Z.div_lt_upper_bound; [done|].
      rewrite <-Z.pow_add_r by lia.
      by replace (n + (Zdigits2 m - n)) with (Zdigits2 m) by lia.
  - apply Z.div_small. split; [lia|].
    assert (2 ^ Zdigits2 m ≤ 2 ^ n) by (apply Z.pow_le_mono_r; lia). lia.
Qed.

(** *** Shifts to the right *)

(** [mrs'] is [mrs] shifted [n] times. *)
Definition shifted (n : Z) (mrs mrs' : shr_record) : Prop :=
  shr_m mrs' = shr_m mrs / 2 ^ n ∧
  (shr_r mrs = false → shr_s mrs = false → shr_m mrs mod 2 ^ n = 0 →
   shr_r mrs' = false ∧ shr_s mrs' = false).

Lemma shifted_1 mrs : 0 ≤ shr_m mrs → shifted 1 mrs (shr_1 mrs).
Proof.
  destruct mrs as [m r s]. unfold shifted. simpl. intros Hm.
  change (2 ^ 1) with 2.
  destruct m as [|[m|m|]|m]; try lia; (split; [|intros -> -> Hmod]); simpl; try done.
  - rewrite Pos2Z.inj_xI. apply Z.div_unique with 1; lia.
  - rewrite Pos2Z.inj_xI in Hmod.
    rewrite Z.add_comm, Z.mul_comm, Z.mod_add in Hmod by lia. done.
  - rewrite Pos2Z.inj_xO. apply Z.div_unique with 0; lia.
Qed.

Lemma shifted_trans a b mrs1 mrs2 mrs3 :
  0 ≤ a → 0 ≤ b → shifted a mrs1 mrs2 → shifted b mrs2 mrs3 →
  shifted (a + b) mrs1 mrs3.
Proof.
  intros Ha Hb [Hm1 He1] [Hm2 He2].
  assert (0 < 2 ^ a) by (apply Z.pow_pos_nonneg; lia).
  assert (0 < 2 ^ b) by (apply Z.pow_pos_nonneg; lia).
  split.
  - rewrite Hm2, Hm1, Z.pow_add_r by done. apply Z.div_div; lia.
  - intros Hr Hs Hmod. rewrite Z.pow_add_r in Hmod by done.
    apply Z.mod_divide in Hmod as [k Hk]; [|lia].
    assert (shr_m mrs1 mod 2 ^ a = 0) as Hmoda.
    { apply Z.mod_divide; [lia|]. exists (k * 2 ^ b). lia. }
    destruct (He1 Hr Hs Hmoda) as [Hr2 Hs2].
    apply He2; [done..|]. rewrite Hm1.
    apply Z.mod_divide; [lia|]. exists k.
    symmetry. apply Z.div_unique_exact; lia.
Qed.

Lemma shifted_nonneg n mrs mrs' :
  0 ≤ n → 0 ≤ shr_m mrs → shifted n mrs mrs' → 0 ≤ shr_m mrs'.
Proof.
  intros Hn Hm [-> _]. apply Z.div_pos; [done|]. apply Z.pow_pos_nonneg; lia.
Qed.

Lemma iter_pos_shr_1 p mrs :
  0 ≤ shr_m mrs → shifted (Z.pos p) mrs (SpecFloat.iter_pos shr_1 p mrs).
Proof.
  revert mrs. induction p as [p IH|p IH|]; intros mrs Hm; simpl.
  - pose proof (shifted_1 mrs Hm) as H1.
    pose proof (shifted_nonneg 1 _ _ ltac:(lia) Hm H1) as Hm1.
    pose proof (IH _ Hm1) as H2.
    pose proof (shifted_nonneg (Z.pos p) _ _ ltac:(lia) Hm1 H2) as Hm2.
    pose proof (IH _ Hm2) as H3.
    replace (Z.pos p~1) with (1 + Z.pos p + Z.pos p) by lia.
    eapply shifted_trans; [lia..| |done].
    eapply shifted_trans; [lia..|done|done].
  - pose proof (IH _ Hm) as H2.
    pose proof (shifted_nonneg (Z.pos p) _ _ ltac:(lia) Hm H2) as Hm2.
    pose proof (IH _ Hm2) as H3.
    replace (Z.pos p~0) with (Z.pos p + Z.pos p) by lia.
    eapply shifted_trans; [lia..|done|done].
  - by apply shifted_1.
Qed.

(** [shr_fexp], when the mantissa has at least the digits of a number of
    binary64: the mantissa loses [n] digits, and the location is exact if
    it was and the lost digits were zeros. *)
Lemma shr_fexp_spec m e l :
  0 ≤ m → e ≤ fexp prec emax (Zdigits2 m + e) →
  ∃ mrs, shr_fexp prec emax m e l = (mrs, fexp prec emax (Zdigits2 m + e)) ∧
         shr_m mrs = m / 2 ^ (fexp prec emax (Zdigits2 m + e) - e) ∧
         (l = loc_Exact → m mod 2 ^ (fexp prec emax (Zdigits2 m + e) - e) = 0 →
          loc_of_shr_record mrs = loc_Exact).
Proof.
  intros Hm Hn. unfold shr_fexp, shr.
  destruct (fexp prec emax (Zdigits2 m + e) - e) as [|n|n] eqn:Hdiff; [| |lia].
  - exists (shr_record_of_loc m l).
    replace (fexp prec emax (Zdigits2 m + e)) with e by lia.
    split; [done|]. split.
    + rewrite Z.div_1_r. by destruct l as [|[]].
    + by intros -> _.
  - exists (SpecFloat.iter_pos shr_1 n (shr_record_of_loc m l)).
    assert (shr_m (shr_record_of_loc m l) = m) as Hrec by (by destruct l as [|[]]).
    destruct (iter_pos_shr_1 n (shr_record_of_loc m l)) as [Hshift Hexact].
    { by rewrite Hrec. }
    rewrite Hrec in Hshift, Hexact. split; [f_equal; lia|]. split; [done|].
    intros -> Hmod. destruct (Hexact eq_refl eq_refl Hmod) as [Hr Hs].
    destruct (SpecFloat.iter_pos shr_1 n _) as [m' r' s']. simpl in Hr, Hs. by subst.
Qed.

(** The mantissa that is left is the one of a number of binary64, or 0 at
    the least exponent. *)
Lemma shr_fexp_canonical m e :
  0 ≤ m → e ≤ fexp prec emax (Zdigits2 m + e) →
  let e1 := fexp prec emax (Zdigits2 m + e) in
  fexp prec emax (Zdigits2 (m / 2 ^ (e1 - e)) + e1) = e1.
Proof.
  intros Hm Hn e1. pose proof (Zdigits2_nonneg m) as Hd.
  destruct (Z.eq_dec m 0) as [-> | Hne].
  { rewrite Z.div_0_l by (apply Z.pow_nonzero; lia). simpl.
    subst e1. simpl in *. rewrite !fexp_eq in *. lia. }
  destruct (Zdigits2_shift m (e1 - e) ltac:(lia) ltac:(lia)) as [Hlt Hge].
  destruct (Z.lt_ge_cases (e1 - e) (Zdigits2 m)) as [Hcase | Hcase].
  - rewrite (Hlt Hcase). by replace (Zdigits2 m - (e1 - e) + e1) with (Zdigits2 m + e) by lia.
  - rewrite (Hge Hcase). simpl. subst e1. rewrite !fexp_eq in *. lia.
Qed.

(** *** The numbers of binary64 *)

(** The values of the numbers of binary64 that are not negative, in units
    of [2 ^ emin], the least of them above 0. *)
Definition representable (z : Z) : Prop :=
  z = 0 ∨ ∃ m e, bounded prec emax m e = true ∧ z = Z.pos m * 2 ^ (e + 1074).

Lemma bounded_lt m e :
  bounded prec emax m e = true → -1074 ≤ e ≤ 971 ∧ Z.pos m < 2 ^ 53.
Proof.
  intros Hb. pose proof (bounded_digits m e Hb) as (He & Hd & _).
  apply andb_true_iff in Hb as [_ Hmax%Z.leb_le].
  change prec with 53 in *. change emax with 1024 in *.
  change (SpecFloat.emin 53 1024) with (-1074) in *.
  split; [lia|]. pose proof (digits2_pos_bounds m) as [_ Hm].
  assert (2 ^ Z.pos (digits2_pos m) ≤ 2 ^ 53) by (apply Z.pow_le_mono_r; lia).
  lia.
Qed.

Lemma bounded_spec m e :
  bounded prec emax m e = true →
  -1074 ≤ e ≤ 971 ∧ Z.pos (digits2_pos m) ≤ 53 ∧
  (-1074 < e → Z.pos (digits2_pos m) = 53).
Proof.
  intros Hb. pose proof (bounded_lt m e Hb) as [He _].
  unfold bounded, canonical_mantissa in Hb. rewrite fexp_eq in Hb.
  apply andb_true_iff in Hb as [Hc%Z.eqb_eq _]. lia.
Qed.

Lemma representable_bounds z : representable z → 0 ≤ z < 2 ^ 2098.
Proof.
  intros [-> | (m & e & Hb & ->)]; [done|].
  apply bounded_lt in Hb as [He Hm].
  assert (0 < 2 ^ (e + 1074)) by (apply Z.pow_pos_nonneg; lia).
  assert (2 ^ (e + 1074) ≤ 2 ^ 2045) by (apply Z.pow_le_mono_r; lia).
  change (2 ^ 2098) with (2 ^ (53 + 2045)).
  rewrite (Z.pow_add_r 2 53 2045) by lia.
  generalize dependent (2 ^ 2045). generalize dependent (2 ^ 53).
  generalize dependent (2 ^ (e + 1074)). intros P HP A Hm B HB. split.
  - apply Z.mul_nonneg_nonneg; lia.
  - apply Z.le_lt_trans with (Z.pos m * B).
    + apply Z.mul_le_mono_nonneg_l; lia.
    + apply Z.mul_lt_mono_pos_r; lia.
Qed.

(** No number of binary64 lies between two neighbours of a binade. *)
Lemma grid m e z :
  0 ≤ m → fexp prec emax (Zdigits2 m + e) = e → representable z →
  z < (m + 1) * 2 ^ (e + 1074) → z ≤ m * 2 ^ (e + 1074).
Proof.
  intros Hm He [-> | (mg & eg & Hb & ->)] Hlt.
  { apply Z.mul_nonneg_nonneg; [done|]. apply Z.pow_nonneg. lia. }
  rewrite fexp_eq in He.
  pose proof (bounded_lt mg eg Hb) as [Heg Hmg].
  assert (0 < 2 ^ (e + 1074)) as Hpow by (apply Z.pow_pos_nonneg; lia).
  destruct (Z.le_gt_cases e eg) as [Hle | Hgt].
  - replace (eg + 1074) with ((eg - e) + (e + 1074)) in * by lia.
    rewrite Z.pow_add_r in * by lia. rewrite Z.mul_assoc in *.
    apply Z.mul_lt_mono_pos_r in Hlt; [|done].
    apply Z.mul_le_mono_nonneg_r; lia.
  - assert (Zdigits2 m = 53) as Hd by lia.
    assert (0 < m) as Hpos by (destruct m; simpl in Hd; lia).
    pose proof (Zdigits2_bounds m Hpos) as [Hlo _]. rewrite Hd in Hlo.
    assert (2 ^ (eg + 1 + 1074) ≤ 2 ^ (e + 1074)) as Hmono
      by (apply Z.pow_le_mono_r; lia).
    replace (eg + 1 + 1074) with (1 + (eg + 1074)) in Hmono by lia.
    rewrite Z.pow_add_r in Hmono by lia.
    assert (0 < 2 ^ (eg + 1074)) by (apply Z.pow_pos_nonneg; lia).
    change (2 ^ (53 - 1)) with 4503599627370496 in Hlo.
    change (2 ^ 53) with 9007199254740992 in Hmg.
    change (2 ^ 1) with 2 in Hmono. nia.
Qed.

Lemma round_nearest_even_bounds m l :
  m ≤ round_nearest_even m l ≤ m + 1 ∧
  (l = loc_Exact → round_nearest_even m l = m).
Proof.
  destruct l as [|[]]; simpl; try (split; [lia|done]).
  destruct (Z.even m); split; (lia || done).
Qed.

Lemma fexp_le a b : a ≤ b → fexp prec emax a ≤ fexp prec emax b.
Proof. rewrite !fexp_eq. lia. Qed.

(** [binary_round_aux] of the quotient [X / Y] at the exponent [e], with
    [m] its integer part: the result lies between the numbers of binary64
    [L] and [G] that the quotient lies between.  [K] is an offset that
    makes the exponents positive. *)
Lemma binary_round_aux_between sx m e l X Y K L G :
  0 < Y → 0 ≤ X → m = X / Y → (l ≠ loc_Exact → X mod Y ≠ 0) →
  e ≤ fexp prec emax (Zdigits2 m + e) →
  1074 ≤ K → 0 ≤ e + K →
  representable L → representable G →
  L * Y * 2 ^ (K - 1074) ≤ X * 2 ^ (e + K) ≤ G * Y * 2 ^ (K - 1074) →
  ∃ z, L ≤ z ≤ G ∧
    (binary_round_aux prec emax sx m e l = S754_zero sx ∧ z = 0 ∨
     ∃ p e', binary_round_aux prec emax sx m e l = S754_finite sx p e' ∧
             bounded prec emax p e' = true ∧
             z = Z.pos p * 2 ^ (e' + 1074)).
Proof.
  intros HY HX Hm Hl Hn HK HeK HL HG [Hlow Hupp].
  assert (0 ≤ m) as Hm0 by (subst m; apply Z.div_pos; lia).
  destruct (shr_fexp_spec m e l Hm0 Hn) as (mrs1 & Hshr1 & Hm1 & Hexact1).
  pose proof (shr_fexp_canonical m e Hm0 Hn) as Hcan1. cbv zeta in Hcan1.
  set (e1 := fexp prec emax (Zdigits2 m + e)) in *.
  set (n := e1 - e) in *. rewrite <-Hm1 in Hcan1.
  set (m1 := shr_m mrs1) in *.
  assert (0 ≤ n) as Hn0 by lia.
  assert (-1074 ≤ e1) as He1 by (subst e1; rewrite fexp_eq; lia).
  assert (0 < 2 ^ n) as Hpn by (apply Z.pow_pos_nonneg; lia).
  assert (0 ≤ m1) as Hm10 by (rewrite Hm1; apply Z.div_pos; lia).
  (* the integer part and the quotient *)
  assert (m1 = X / (Y * 2 ^ n)) as Hm1X.
  { rewrite Hm1, Hm. apply Z.div_div; lia. }
  assert (m1 * (Y * 2 ^ n) ≤ X < (m1 + 1) * (Y * 2 ^ n)) as [Hfl1 Hfl2].
  { rewrite Hm1X. split.
    - rewrite Z.mul_comm. apply Z.mul_div_le. lia.
    - rewrite Z.mul_comm. apply Z.mul_succ_div_gt. lia. }
  set (E1 := 2 ^ (e1 + 1074)). set (P := 2 ^ (K - 1074)) in *.
  assert (0 < E1) as HE1 by (apply Z.pow_pos_nonneg; lia).
  assert (0 < P) as HP by (apply Z.pow_pos_nonneg; lia).
  assert (2 ^ n * 2 ^ (e + K) = E1 * P) as Hunits.
  { unfold E1, P. rewrite <-!Z.pow_add_r by lia. f_equal. lia. }
  set (W := 2 ^ (e + K)) in *.
  assert (0 < W) as HW by (apply Z.pow_pos_nonneg; lia).
  assert (m1 * E1 ≤ G) as HupG.
  { apply Z.mul_le_mono_pos_r with (Y * P); [lia|].
    transitivity (X * W); [|lia].
    transitivity (m1 * (Y * 2 ^ n) * W); [|apply Z.mul_le_mono_nonneg_r; lia].
    replace (m1 * (Y * 2 ^ n) * W) with (m1 * Y * (2 ^ n * W)) by ring.
    rewrite Hunits. lia. }
  assert (L < (m1 + 1) * E1) as HlowL.
  { apply Z.mul_lt_mono_pos_r with (Y * P); [lia|].
    apply Z.le_lt_trans with (X * W); [lia|].
    apply Z.lt_le_trans with ((m1 + 1) * (Y * 2 ^ n) * W).
    - apply Z.mul_lt_mono_pos_r; lia.
    - replace ((m1 + 1) * (Y * 2 ^ n) * W) with ((m1 + 1) * Y * (2 ^ n * W)) by ring.
      rewrite Hunits. lia. }
  pose proof (grid m1 e1 L Hm10 Hcan1 HL HlowL) as HL1.
  (* the rounded mantissa *)
  destruct (round_nearest_even_bounds m1 (loc_of_shr_record mrs1)) as [[Hr1 Hr2] Hr3].
  set (mr := round_nearest_even m1 (loc_of_shr_record mrs1)) in *.
  assert (mr * E1 ≤ G) as HmrG.
  { destruct (Z.eq_dec mr m1) as [-> | Hne]; [done|].
    assert (mr = m1 + 1) as -> by lia.
    destruct (Z.lt_ge_cases G ((m1 + 1) * E1)) as [Hlt | Hge]; [|done].
    pose proof (grid m1 e1 G Hm10 Hcan1 HG Hlt) as HG1.
    assert (m1 * (Y * 2 ^ n) < X) as Hstrict.
    { destruct (Z.eq_dec (m1 * (Y * 2 ^ n)) X) as [Heq | ?]; [|lia].
      exfalso. apply Hne, Hr3, Hexact1.
      - destruct l as [|c]; [done|]. exfalso. apply Hl; [done|].
        rewrite <-Heq. replace (m1 * (Y * 2 ^ n)) with (m1 * 2 ^ n * Y) by ring.
        apply Z.mod_mul. lia.
      - assert (m * Y ≤ X) as HmY.
        { rewrite Hm, Z.mul_comm. apply Z.mul_div_le. lia. }
        assert (m1 * 2 ^ n ≤ m) as Hm1m.
        { rewrite Hm1, Z.mul_comm. apply Z.mul_div_le. lia. }
        assert (m = m1 * 2 ^ n) as Hmeq by nia.
        fold n. rewrite Hmeq. apply Z.mod_mul. lia. }
    exfalso.
    assert (m1 * (Y * 2 ^ n) * W < X * W) as H1 by (apply Z.mul_lt_mono_pos_r; lia).
    replace (m1 * (Y * 2 ^ n) * W) with (m1 * Y * (2 ^ n * W)) in H1 by ring.
    rewrite Hunits in H1.
    assert (G * (Y * P) ≤ m1 * E1 * (Y * P)) as H2
      by (apply Z.mul_le_mono_nonneg_r; lia).
    lia. }
  assert (L ≤ mr * E1) as HLmr.
  { transitivity (m1 * E1); [done|]. apply Z.mul_le_mono_nonneg_r; lia. }
  (* the second shift *)
  assert (0 ≤ mr) as Hmr0 by lia.
  assert (e1 ≤ fexp prec emax (Zdigits2 mr + e1)) as Hn2.
  { rewrite <-Hcan1 at 1. apply fexp_le.
    pose proof (Zdigits2_le m1 mr ltac:(lia)). lia. }
  destruct (shr_fexp_spec mr e1 loc_Exact Hmr0 Hn2) as (mrs2 & Hshr2 & Hm2 & _).
  pose proof (shr_fexp_canonical mr e1 Hmr0 Hn2) as Hcan2. cbv zeta in Hcan2.
  set (e2 := fexp prec emax (Zdigits2 mr + e1)) in *.
  set (n2 := e2 - e1) in *. rewrite <-Hm2 in Hcan2.
  set (m2 := shr_m mrs2) in *.
  assert (0 < 2 ^ n2) as Hpn2 by (apply Z.pow_pos_nonneg; lia).
  assert (0 ≤ m2) as Hm20 by (rewrite Hm2; apply Z.div_pos; lia).
  assert (m2 * 2 ^ n2 ≤ mr < (m2 + 1) * 2 ^ n2) as [Hfl3 Hfl4].
  { rewrite Hm2. split.
    - rewrite Z.mul_comm. apply Z.mul_div_le. lia.
    - rewrite Z.mul_comm. apply Z.mul_succ_div_gt. lia. }
  set (E2 := 2 ^ (e2 + 1074)).
  assert (E2 = 2 ^ n2 * E1) as HE2.
  { unfold E2, E1. rewrite <-Z.pow_add_r by lia. f_equal. lia. }
  assert (0 < E2) as HE2pos by (apply Z.pow_pos_nonneg; lia).
  assert (m2 * E2 ≤ G) as Hm2G.
  { transitivity (mr * E1); [|done]. rewrite HE2, Z.mul_assoc.
    apply Z.mul_le_mono_nonneg_r; lia. }
  assert (L ≤ m2 * E2) as HLm2.
  { apply grid; [done..|].
    apply Z.le_lt_trans with (mr * E1); [done|].
    fold E2. rewrite HE2, Z.mul_assoc. apply Z.mul_lt_mono_pos_r; lia. }
  (* the result *)
  exists (m2 * E2). split; [done|].
  unfold binary_round_aux. rewrite Hshr1. fold m1. fold mr. rewrite Hshr2. fold m2.
  destruct m2 as [|p|p] eqn:Hm2p; [by left|..|lia].
  right. destruct (Z.leb_spec e2 (emax - prec)) as [Hin | Hover].
  { exists p, e2. split; [done|]. split; [|done].
    unfold bounded, canonical_mantissa. apply andb_true_iff. split.
    - apply Z.eqb_eq. exact Hcan2.
    - by apply Z.leb_le. }
  exfalso. change (emax - prec) with 971 in Hover.
  rewrite fexp_eq in Hcan2.
  assert (Zdigits2 (Z.pos p) = 53) as Hd by lia.
  pose proof (Zdigits2_bounds (Z.pos p) ltac:(lia)) as [Hlo _]. rewrite Hd in Hlo.
  pose proof (representable_bounds G HG) as [_ HGlt].
  assert (2 ^ 2046 ≤ E2) as HE2big by (apply Z.pow_le_mono_r; lia).
  change (2 ^ 2098) with (2 ^ ((53 - 1) + 2046)) in HGlt.
  rewrite (Z.pow_add_r 2 (53 - 1) 2046) in HGlt by lia.
  assert (0 < 2 ^ (53 - 1)) as HA by (apply Z.pow_pos_nonneg; lia).
  assert (0 < 2 ^ 2046) as HB by (apply Z.pow_pos_nonneg; lia).
  clear -Hlo HGlt HE2big Hm2G HA HB.
  generalize dependent (2 ^ 2046). generalize dependent (2 ^ (53 - 1)).
  intros A HA Hlo B HGlt HE2big HB.
  assert (A * B ≤ Z.pos p * E2) by (apply Z.mul_le_mono_nonneg; lia).
  lia.
Qed.

(** *** Values *)

(** The value of a number of binary64, in units of [2 ^ emin]
    (0 for what is no number). *)
Definition SFvalue (x : spec_float) : Z :=
  match x with
  | S754_finite s m e => cond_Zopp s (Z.pos m * 2 ^ (e + 1074))
  | _ => 0
  end.

(** Zero or a finite number of binary64. *)
Definition SFfinite (x : spec_float) : bool :=
  match x with
  | S754_zero _ => true
  | S754_finite _ m e => bounded prec emax m e
  | _ => false
  end.

Lemma representable_value x :
  SFfinite x = true →
  representable (Z.max 0 (SFvalue x)) ∧ representable (Z.max 0 (- SFvalue x)).
Proof.
  destruct x as [s|s| |s m e]; simpl; try done; intros Hb.
  - split; by left.
  - pose proof (bounded_lt m e Hb) as [He _].
    assert (0 < 2 ^ (e + 1074)) by (apply Z.pow_pos_nonneg; lia).
    assert (0 < Z.pos m * 2 ^ (e + 1074)) by lia.
    destruct s; simpl; split.
    + left. lia.
    + right. exists m, e. split; [done|]. lia.
    + right. exists m, e. split; [done|]. lia.
    + left. lia.
Qed.

(** The same with the sign, and between two numbers of any sign. *)
Lemma binary_round_aux_signed sx m e l X Y K L G :
  0 < Y → 0 ≤ X → m = X / Y → (l ≠ loc_Exact → X mod Y ≠ 0) →
  e ≤ fexp prec emax (Zdigits2 m + e) →
  1074 ≤ K → 0 ≤ e + K →
  SFfinite L = true → SFfinite G = true →
  SFvalue L * Y * 2 ^ (K - 1074) ≤ cond_Zopp sx X * 2 ^ (e + K)
    ≤ SFvalue G * Y * 2 ^ (K - 1074) →
  SFfinite (binary_round_aux prec emax sx m e l) = true ∧
  SFvalue L ≤ SFvalue (binary_round_aux prec emax sx m e l) ≤ SFvalue G.
Proof.
  intros HY HX Hm Hl Hn HK HeK HL HG [Hlow Hupp].
  destruct (representable_value L HL) as [HLpos HLneg].
  destruct (representable_value G HG) as [HGpos HGneg].
  set (P := 2 ^ (K - 1074)) in *. set (W := 2 ^ (e + K)) in *.
  assert (0 < P) as HP by (apply Z.pow_pos_nonneg; lia).
  assert (0 < W) as HW by (apply Z.pow_pos_nonneg; lia).
  assert (0 < Y * P) as HYP by lia.
  assert (0 ≤ X * W) as HXW by lia.
  rewrite <-!Z.mul_assoc in Hlow, Hupp.
  destruct sx; simpl in Hlow, Hupp.
  - destruct (binary_round_aux_between true m e l X Y K
                (Z.max 0 (- SFvalue G)) (Z.max 0 (- SFvalue L)))
      as (z & [Hz1 Hz2] & Hres); try done.
    { fold P W. rewrite <-!Z.mul_assoc. split; nia. }
    assert (SFvalue L ≤ 0) as HL0 by nia.
    destruct Hres as [[-> ->] | (p & e' & -> & Hb & ->)]; simpl.
    + split; [done|]. lia.
    + split; [done|]. lia.
  - destruct (binary_round_aux_between false m e l X Y K
                (Z.max 0 (SFvalue L)) (Z.max 0 (SFvalue G)))
      as (z & [Hz1 Hz2] & Hres); try done.
    { fold P W. rewrite <-!Z.mul_assoc. split; nia. }
    assert (0 ≤ SFvalue G) as HG0 by nia.
    destruct Hres as [[-> ->] | (p & e' & -> & Hb & ->)]; simpl.
    + split; [done|]. lia.
    + split; [done|]. lia.
Qed.

(** *** The operations *)

Lemma Zdigits2_ge m k : 0 ≤ k → 2 ^ k ≤ m → k + 1 ≤ Zdigits2 m.
Proof.
  intros Hk Hm.
  assert (0 < 2 ^ k) by (apply Z.pow_pos_nonneg; lia).
  pose proof (Zdigits2_bounds m ltac:(lia)) as [_ Hhi].
  pose proof (Zdigits2_nonneg m).
  destruct (Z.le_gt_cases (k + 1) (Zdigits2 m)) as [|Hgt]; [done|].
  assert (2 ^ Zdigits2 m ≤ 2 ^ k) by (apply Z.pow_le_mono_r; lia). lia.
Qed.

Lemma Zdigits2_shiftl m k :
  0 < m → 0 ≤ k → Zdigits2 (m * 2 ^ k) = Zdigits2 m + k.
Proof.
  intros Hm Hk. pose proof (Zdigits2_bounds m Hm) as [Hlo Hhi].
  assert (0 < Zdigits2 m) by (destruct m; simpl; lia).
  assert (0 < 2 ^ k) by (apply Z.pow_pos_nonneg; lia).
  apply Zdigits2_unique; [|lia].
  replace (Zdigits2 m + k - 1) with (Zdigits2 m - 1 + k) by lia.
  rewrite !Z.pow_add_r by lia. nia.
Qed.

Lemma SFvalue_finite s m e :
  SFvalue (S754_finite s m e) = cond_Zopp s (Z.pos m * 2 ^ (e + 1074)).
Proof. done. Qed.

Lemma cond_Zopp_mul s1 s2 a b :
  cond_Zopp s1 a * cond_Zopp s2 b = cond_Zopp (xorb s1 s2) (a * b).
Proof. destruct s1, s2; simpl; lia. Qed.

Lemma cond_Zopp_mul_l s a b : cond_Zopp s a * b = cond_Zopp s (a * b).
Proof. destruct s; simpl; lia. Qed.

(** The product lies between the numbers of binary64 that the product of
    the values lies between. *)
Lemma SFmul_between x y L G :
  SFfinite x = true → SFfinite y = true →
  SFfinite L = true → SFfinite G = true →
  SFvalue L * 2 ^ 1074 ≤ SFvalue x * SFvalue y ≤ SFvalue G * 2 ^ 1074 →
  SFfinite (SFmul prec emax x y) = true ∧
  SFvalue L ≤ SFvalue (SFmul prec emax x y) ≤ SFvalue G.
Proof.
  intros Hx Hy HL HG Hbetween.
  assert (0 < 2 ^ 1074) as HU by (by apply Z.pow_pos_nonneg).
  set (U := 2 ^ 1074) in *.
  destruct x as [sx|sx| |sx mx ex], y as [sy|sy| |sy my ey]; try done;
    try (simpl in *; split; [done|nia]).
  cbn [SFmul]. simpl in Hx, Hy.
  pose proof (bounded_spec mx ex Hx) as (Hex & Hdx & Hnx).
  pose proof (bounded_spec my ey Hy) as (Hey & Hdy & Hny).
  pose proof (digits2_pos_bounds mx) as [Hlox _].
  pose proof (digits2_pos_bounds my) as [Hloy _].
  apply (binary_round_aux_signed _ _ _ _ (Z.pos (mx * my)) 1 2148);
    try done; try lia.
  - by rewrite Z.div_1_r.
  - rewrite fexp_eq.
    assert (Z.pos (digits2_pos mx) + Z.pos (digits2_pos my) - 1
            ≤ Zdigits2 (Z.pos (mx * my))) as Hd.
    { replace (Z.pos (digits2_pos mx) + Z.pos (digits2_pos my) - 1)
        with ((Z.pos (digits2_pos mx) - 1) + (Z.pos (digits2_pos my) - 1) + 1) by lia.
      apply Zdigits2_ge; [lia|]. rewrite Z.pow_add_r by lia.
      rewrite Pos2Z.inj_mul.
      assert (0 < 2 ^ (Z.pos (digits2_pos mx) - 1)) by (apply Z.pow_pos_nonneg; lia).
      assert (0 < 2 ^ (Z.pos (digits2_pos my) - 1)) by (apply Z.pow_pos_nonneg; lia).
      nia. }
    lia.
  - change (2148 - 1074) with 1074. fold U. rewrite !Z.mul_1_r.
    rewrite !SFvalue_finite, cond_Zopp_mul in Hbetween.
    rewrite cond_Zopp_mul_l.
    replace (ex + ey + 2148) with ((ex + 1074) + (ey + 1074)) by lia.
    rewrite Z.pow_add_r by lia. rewrite Pos2Z.inj_mul.
    replace (Z.pos mx * Z.pos my * (2 ^ (ex + 1074) * 2 ^ (ey + 1074)))
      with (Z.pos mx * 2 ^ (ex + 1074) * (Z.pos my * 2 ^ (ey + 1074))) by ring.
    done.
Qed.

Lemma shl_align_spec m e e' :
  ∃ m1 e1, shl_align m e e' = (m1, e1) ∧
    (e' ≤ e → Z.pos m1 = Z.pos m * 2 ^ (e - e') ∧ e1 = e') ∧
    (e ≤ e' → m1 = m ∧ e1 = e).
Proof.
  pose proof (shl_align_value m e e') as Hv.
  unfold shl_align in *. destruct (e' - e) as [|d|d] eqn:Hd; simpl in *.
  - exists m, e. split; [done|]. split; intros; [|done].
    replace (e - e') with 0 by lia. lia.
  - exists m, e. split; [done|]. split; intros; [lia|done].
  - eexists _, _. split; [done|]. split; intros; [|lia].
    split; [|done]. apply Hv. lia.
Qed.

Lemma binary_round_between s p e L G :
  -1074 ≤ e → SFfinite L = true → SFfinite G = true →
  SFvalue L ≤ cond_Zopp s (Z.pos p * 2 ^ (e + 1074)) ≤ SFvalue G →
  SFfinite (binary_round prec emax s p e) = true ∧
  SFvalue L ≤ SFvalue (binary_round prec emax s p e) ≤ SFvalue G.
Proof.
  intros He HL HG Hbetween. unfold binary_round.
  set (t := fexp prec emax (Z.pos (digits2_pos p) + e)).
  assert (-1074 ≤ t) as Ht by (unfold t; rewrite fexp_eq; lia).
  destruct (shl_align_spec p e t) as (m1 & e1 & -> & Hleft & Hkeep).
  assert (-1074 ≤ e1 ∧ Z.pos m1 * 2 ^ (e1 + 1074) = Z.pos p * 2 ^ (e + 1074) ∧
          e1 ≤ fexp prec emax (Zdigits2 (Z.pos m1) + e1)) as (He1 & Hval & Hn).
  { destruct (Z.le_gt_cases t e) as [Hle | Hgt].
    - destruct (Hleft Hle) as [Hm1 ->]. split; [done|]. split.
      + rewrite Hm1, <-Z.mul_assoc, <-Z.pow_add_r by lia. do 2 f_equal. lia.
      + rewrite Hm1, Zdigits2_shiftl by lia. simpl Zdigits2.
        replace (Z.pos (digits2_pos p) + (e - t) + t)
          with (Z.pos (digits2_pos p) + e) by lia.
        fold t. lia.
    - destruct (Hkeep ltac:(lia)) as [-> ->]. split; [done|]. split; [done|].
      simpl Zdigits2. fold t. lia. }
  apply (binary_round_aux_signed _ _ _ _ (Z.pos m1) 1 1074); try done; try lia.
  - by rewrite Z.div_1_r.
  - rewrite Z.sub_diag, !Z.mul_1_r. rewrite cond_Zopp_mul_l, Hval. done.
Qed.

Lemma binary_normalize_between m e L G :
  -1074 ≤ e → SFfinite L = true → SFfinite G = true →
  SFvalue L ≤ m * 2 ^ (e + 1074) ≤ SFvalue G →
  SFfinite (binary_normalize prec emax m e false) = true ∧
  SFvalue L ≤ SFvalue (binary_normalize prec emax m e false) ≤ SFvalue G.
Proof.
  intros He HL HG Hbetween. destruct m as [|p|p]; simpl.
  - split; [done|]. lia.
  - by apply binary_round_between.
  - apply binary_round_between; try done. simpl. lia.
Qed.

(** The mantissas of two numbers at their common exponent. *)
Lemma aligned_value s m e e' :
  -1074 ≤ e' ≤ e →
  cond_Zopp s (Z.pos (shl_align m e e').1) * 2 ^ (e' + 1074)
  = SFvalue (S754_finite s m e).
Proof.
  intros He. rewrite shl_align_value by lia. simpl.
  rewrite cond_Zopp_mul_l. f_equal.
  rewrite <-Z.mul_assoc, <-Z.pow_add_r by lia. do 2 f_equal. lia.
Qed.

(** The sum lies between the numbers of binary64 that the sum of the
    values lies between. *)
Lemma SFadd_between x y L G :
  SFfinite x = true → SFfinite y = true →
  SFfinite L = true → SFfinite G = true →
  SFvalue L ≤ SFvalue x + SFvalue y ≤ SFvalue G →
  SFfinite (SFadd prec emax x y) = true ∧
  SFvalue L ≤ SFvalue (SFadd prec emax x y) ≤ SFvalue G.
Proof.
  intros Hx Hy HL HG Hbetween.
  destruct x as [sx|sx| |sx mx ex], y as [sy|sy| |sy my ey]; try done;
    try (destruct sx, sy; simpl in *; (split; [done|lia])).
  - cbn [SFadd]. simpl in Hx, Hy.
    pose proof (bounded_spec mx ex Hx) as (Hex & _).
    pose proof (bounded_spec my ey Hy) as (Hey & _).
    apply binary_normalize_between; try done; [lia|].
    rewrite Z.mul_add_distr_r, !aligned_value by lia. done.
Qed.

(** The same for the difference. *)
Lemma SFsub_between x y L G :
  SFfinite x = true → SFfinite y = true →
  SFfinite L = true → SFfinite G = true →
  SFvalue L ≤ SFvalue x - SFvalue y ≤ SFvalue G →
  SFfinite (SFsub prec emax x y) = true ∧
  SFvalue L ≤ SFvalue (SFsub prec emax x y) ≤ SFvalue G.
Proof.
  intros Hx Hy HL HG Hbetween.
  destruct x as [sx|sx| |sx mx ex], y as [sy|sy| |sy my ey]; try done;
    try (destruct sx, sy; simpl in *; (split; [done|lia])).
  - cbn [SFsub]. simpl in Hx, Hy.
    pose proof (bounded_spec mx ex Hx) as (Hex & _).
    pose proof (bounded_spec my ey Hy) as (Hey & _).
    apply binary_normalize_between; try done; [lia|].
    rewrite Z.mul_sub_distr_r, !aligned_value by lia. done.
Qed.

Lemma new_location_exact n r : new_location n r ≠ loc_Exact → r ≠ 0.
Proof.
  intros Hl ->. apply Hl. unfold new_location, new_location_even, new_location_odd.
  by destruct (Z.even n).
Qed.

(** The quotient by a positive number lies between the numbers of binary64
    that the quotient of the values lies between. *)
Lemma SFdiv_between x y L G :
  SFfinite x = true → SFfinite y = true →
  SFfinite L = true → SFfinite G = true →
  0 < SFvalue y →
  SFvalue L * SFvalue y ≤ SFvalue x * 2 ^ 1074 ≤ SFvalue G * SFvalue y →
  SFfinite (SFdiv prec emax x y) = true ∧
  SFvalue L ≤ SFvalue (SFdiv prec emax x y) ≤ SFvalue G.
Proof.
  intros Hx Hy HL HG Hpos Hbetween.
  assert (0 < 2 ^ 1074) as HU by (by apply Z.pow_pos_nonneg).
  destruct y as [sy|sy| |sy my ey]; try done.
  destruct sy; [simpl in Hpos; lia|]. simpl in Hy.
  pose proof (bounded_spec my ey Hy) as (Hey & Hdy & _).
  destruct x as [sx|sx| |sx mx ex]; try done.
  { simpl in *. split; [done|]. nia. }
  simpl in Hx. pose proof (bounded_spec mx ex Hx) as (Hex & Hdx & _).
  cbn [SFdiv]. unfold SFdiv_core_binary.
  set (d1 := Zdigits2 (Z.pos mx)). set (d2 := Zdigits2 (Z.pos my)).
  set (e' := Z.min (fexp prec emax (d1 + ex - (d2 + ey))) (ex - ey)).
  set (s := ex - ey - e').
  assert (0 ≤ s) as Hs by lia.
  set (X := match s with Z.pos _ => Z.shiftl (Z.pos mx) s | 0 => Z.pos mx | Z.neg _ => 0 end).
  assert (X = Z.pos mx * 2 ^ s) as HX.
  { unfold X. destruct s as [|p|p] eqn:Hsp; [simpl; lia| |lia].
    by rewrite Z.shiftl_mul_pow2. }
  assert (0 < 2 ^ s) as Hps by (apply Z.pow_pos_nonneg; lia).
  assert (Z.div_eucl X (Z.pos my) = (X / Z.pos my, X mod Z.pos my)) as ->.
  { unfold Z.div, Z.modulo. by destruct (Z.div_eucl X (Z.pos my)). }
  rewrite xorb_false_r.
  assert (-1074 ≤ fexp prec emax (d1 + ex - (d2 + ey))) as Hf
    by (rewrite fexp_eq; lia).
  apply (binary_round_aux_signed _ _ _ _ X (Z.pos my) (ey + 2148));
    try done; try lia.
  - by apply new_location_exact.
  - transitivity (fexp prec emax (d1 + ex - (d2 + ey))); [lia|].
    apply fexp_le.
    assert (d1 + s - d2 ≤ Zdigits2 (X / Z.pos my)) as Hd; [|lia].
    pose proof (Zdigits2_nonneg (X / Z.pos my)).
    destruct (Z.le_gt_cases (d1 + s - d2) 0) as [|Hgt]; [lia|].
    replace (d1 + s - d2) with ((d1 + s - d2 - 1) + 1) by lia.
    apply Zdigits2_ge; [lia|].
    apply Z.div_le_lower_bound; [lia|].
    pose proof (digits2_pos_bounds mx) as [Hlo _].
    pose proof (digits2_pos_bounds my) as [_ Hhi].
    fold (Zdigits2 (Z.pos mx)) in Hlo. fold (Zdigits2 (Z.pos my)) in Hhi.
    fold d1 in Hlo. fold d2 in Hhi. rewrite HX.
    assert (2 ^ d2 * 2 ^ (d1 + s - d2 - 1) = 2 ^ (d1 - 1) * 2 ^ s) as Heq.
    { assert (1 ≤ d1 ∧ 1 ≤ d2) as [? ?] by (unfold d1, d2; simpl; lia).
      rewrite <-!Z.pow_add_r by lia. f_equal. lia. }
    assert (0 < 2 ^ (d1 + s - d2 - 1)) by (apply Z.pow_pos_nonneg; lia).
    nia.
  - replace (ey + 2148 - 1074) with (ey + 1074) by lia.
    rewrite cond_Zopp_mul_l, HX.
    replace (Z.pos mx * 2 ^ s * 2 ^ (e' + (ey + 2148)))
      with (Z.pos mx * 2 ^ (ex + 1074) * 2 ^ 1074).
    2: { rewrite <-!Z.mul_assoc, <-!Z.pow_add_r by lia. do 2 f_equal. lia. }
    rewrite <-cond_Zopp_mul_l. rewrite <-!Z.mul_assoc. exact Hbetween.
Qed.

(** *** The order *)

Lemma bounded_value_lt m1 e1 m2 e2 :
  bounded prec emax m1 e1 = true → bounded prec emax m2 e2 = true →
  e1 < e2 → Z.pos m1 * 2 ^ (e1 + 1074) < Z.pos m2 * 2 ^ (e2 + 1074).
Proof.
  intros H1 H2 Hlt.
  pose proof (bounded_spec m1 e1 H1) as (He1 & _).
  pose proof (bounded_lt m1 e1 H1) as [_ Hm1].
  pose proof (bounded_spec m2 e2 H2) as (He2 & _ & Hd2).
  pose proof (digits2_pos_bounds m2) as [Hlo _]. rewrite Hd2 in Hlo by lia.
  assert (2 ^ (e1 + 1 + 1074) ≤ 2 ^ (e2 + 1074)) as Hmono
    by (apply Z.pow_le_mono_r; lia).
  replace (e1 + 1 + 1074) with (1 + (e1 + 1074)) in Hmono by lia.
  rewrite Z.pow_add_r in Hmono by lia.
  assert (0 < 2 ^ (e1 + 1074)) by (apply Z.pow_pos_nonneg; lia).
  change (2 ^ (53 - 1)) with 4503599627370496 in Hlo.
  change (2 ^ 53) with 9007199254740992 in Hm1.
  change (2 ^ 1) with 2 in Hmono. nia.
Qed.

Lemma bounded_value_compare m1 e1 m2 e2 :
  bounded prec emax m1 e1 = true → bounded prec emax m2 e2 = true →
  match e1 ?= e2 with
  | Lt => Lt
  | Gt => Gt
  | Eq => Pos.compare_cont Eq m1 m2
  end = (Z.pos m1 * 2 ^ (e1 + 1074) ?= Z.pos m2 * 2 ^ (e2 + 1074)).
Proof.
  intros H1 H2. destruct (Z.compare_spec e1 e2) as [-> | Hlt | Hgt].
  - pose proof (bounded_spec m2 e2 H2) as (He2 & _).
    assert (0 < 2 ^ (e2 + 1074)) by (apply Z.pow_pos_nonneg; lia).
    change (Pos.compare_cont Eq m1 m2) with (Z.pos m1 ?= Z.pos m2).
    destruct (Z.compare_spec (Z.pos m1) (Z.pos m2)) as [Heq | ? | ?]; symmetry.
    + apply Z.compare_eq_iff. by rewrite Heq.
    + apply Z.compare_lt_iff. nia.
    + apply Z.compare_gt_iff. nia.
  - symmetry. apply Z.compare_lt_iff. by apply bounded_value_lt.
  - symmetry. apply Z.compare_gt_iff. by apply bounded_value_lt.
Qed.

(** Finite numbers compare as their values do. *)
Lemma SFcompare_value x y :
  SFfinite x = true → SFfinite y = true →
  SFcompare x y = Some (SFvalue x ?= SFvalue y).
Proof.
  destruct x as [sx|sx| |sx mx ex], y as [sy|sy| |sy my ey]; try done;
    cbn [SFcompare SFfinite SFvalue]; intros Hx Hy.
  - pose proof (bounded_spec my ey Hy) as (He & _).
    assert (0 < 2 ^ (ey + 1074)) by (apply Z.pow_pos_nonneg; lia).
    f_equal. symmetry. destruct sy; cbn [cond_Zopp].
    + apply Z.compare_gt_iff. lia.
    + apply Z.compare_lt_iff. lia.
  - pose proof (bounded_spec mx ex Hx) as (He & _).
    assert (0 < 2 ^ (ex + 1074)) by (apply Z.pow_pos_nonneg; lia).
    f_equal. symmetry. destruct sx; cbn [cond_Zopp].
    + apply Z.compare_lt_iff. lia.
    + apply Z.compare_gt_iff. lia.
  - pose proof (bounded_spec mx ex Hx) as (Hex & _).
    pose proof (bounded_spec my ey Hy) as (Hey & _).
    assert (0 < 2 ^ (ex + 1074)) by (apply Z.pow_pos_nonneg; lia).
    assert (0 < 2 ^ (ey + 1074)) by (apply Z.pow_pos_nonneg; lia).
    pose proof (bounded_value_compare mx ex my ey Hx Hy) as Hcmp.
    f_equal. destruct sx, sy; cbn [cond_Zopp].
    + rewrite Z.compare_opp, (Z.compare_antisym (Z.pos mx * _)), <-Hcmp.
      by destruct (ex ?= ey), (Pos.compare_cont Eq mx my).
    + symmetry. apply Z.compare_lt_iff. lia.
    + symmetry. apply Z.compare_gt_iff. lia.
    + done.
Qed.

(** *** Numbers of binary64 as values *)

(** The values of the finite numbers of binary64. *)
Definition float_point (z : Z) : Prop :=
  ∃ x, SFfinite x = true ∧ SFvalue x = z.

(** An integer below [2 ^ 53] times a power of two is one, if the
    exponent is in range. *)
Lemma float_point_scaled c k :
  Z.abs c < 2 ^ 53 → 0 ≤ k ≤ 2045 → float_point (c * 2 ^ k).
Proof.
  intros Hc Hk. destruct (Z.eq_dec c 0) as [-> | Hne].
  { by exists (S754_zero false). }
  set (a := Z.abs c). assert (0 < a) as Ha by lia.
  pose proof (Zdigits2_bounds a Ha) as [Hlo Hhi].
  assert (0 < Zdigits2 a ≤ 53) as [Hd0 Hd].
  { split; [destruct a; simpl; lia|].
    destruct (Z.le_gt_cases (Zdigits2 a) 53) as [|Hgt]; [done|].
    assert (2 ^ 53 ≤ 2 ^ (Zdigits2 a - 1)) by (apply Z.pow_le_mono_r; lia). lia. }
  set (e := k - 1074).
  set (t := fexp prec emax (Zdigits2 a + e)).
  assert (-1074 ≤ t ≤ e) as Ht by (unfold t; rewrite fexp_eq; lia).
  assert (0 < 2 ^ (e - t)) as Hp by (apply Z.pow_pos_nonneg; lia).
  assert (0 < a * 2 ^ (e - t)) as Hm by lia.
  exists (S754_finite (c <? 0) (Z.to_pos (a * 2 ^ (e - t))) t). split.
  - simpl. unfold bounded, canonical_mantissa. apply andb_true_iff. split.
    + apply Z.eqb_eq.
      change (Z.pos (digits2_pos ?p)) with (Zdigits2 (Z.pos p)).
      rewrite Z2Pos.id by done. rewrite Zdigits2_shiftl by lia.
      replace (Zdigits2 a + (e - t) + t) with (Zdigits2 a + e) by lia. done.
    + apply Z.leb_le. change (emax - prec) with 971. lia.
  - simpl. rewrite Z2Pos.id by done.
    rewrite <-Z.mul_assoc, <-Z.pow_add_r by lia.
    replace (e - t + (t + 1074)) with k by lia.
    unfold a. destruct (Z.ltb_spec c 0); simpl; lia.
Qed.

(** The value of a number of binary64, and whether it has one. *)
Definition float_value (x : float) : Z := SFvalue (Prim2SF x).

Definition float_finite (x : float) : bool := SFfinite (Prim2SF x).

(** A finite number with its value in a range. *)
Definition within (lo hi : Z) (x : float) : Prop :=
  float_finite x = true ∧ lo ≤ float_value x ≤ hi.

Lemma ltb_value x y :
  float_finite x = true → float_finite y = true →
  (x <? y)%float = (float_value x <? float_value y).
Proof.
  intros Hx Hy. rewrite FloatAxioms.ltb_spec. unfold SFltb.
  by rewrite (SFcompare_value _ _ Hx Hy).
Qed.

Lemma leb_value x y :
  float_finite x = true → float_finite y = true →
  (x <=? y)%float = (float_value x <=? float_value y).
Proof.
  intros Hx Hy. rewrite FloatAxioms.leb_spec. unfold SFleb.
  rewrite (SFcompare_value _ _ Hx Hy). unfold Z.leb, float_value.
  by destruct (SFvalue (Prim2SF x) ?= SFvalue (Prim2SF y)).
Qed.

Lemma abs_within x :
  float_finite x = true →
  float_finite (abs x) = true ∧ float_value (abs x) = Z.abs (float_value x).
Proof.
  unfold float_finite, float_value. rewrite FloatAxioms.abs_spec.
  destruct (Prim2SF x) as [s|s| |s m e]; try done. simpl. intros Hb.
  split; [done|]. pose proof (bounded_spec m e Hb) as (He & _).
  assert (0 < 2 ^ (e + 1074)) by (apply Z.pow_pos_nonneg; lia).
  destruct s; simpl; lia.
Qed.

Lemma add_within lo hi x y :
  float_point lo → float_point hi →
  float_finite x = true → float_finite y = true →
  lo ≤ float_value x + float_value y ≤ hi → within lo hi (x + y).
Proof.
  intros (L & HL & <-) (G & HG & <-) Hx Hy Hbetween.
  unfold within, float_finite, float_value. rewrite FloatAxioms.add_spec.
  by apply SFadd_between.
Qed.

Lemma sub_within lo hi x y :
  float_point lo → float_point hi →
  float_finite x = true → float_finite y = true →
  lo ≤ float_value x - float_value y ≤ hi → within lo hi (x - y).
Proof.
  intros (L & HL & <-) (G & HG & <-) Hx Hy Hbetween.
  unfold within, float_finite, float_value. rewrite FloatAxioms.sub_spec.
  by apply SFsub_between.
Qed.

(** The product with a whole number [c] ([2 ^ 1074] is the value of 1). *)
Lemma mul_within lo hi x y c :
  float_point lo → float_point hi →
  float_finite x = true → float_finite y = true →
  float_value y = c * 2 ^ 1074 →
  lo ≤ float_value x * c ≤ hi → within lo hi (x * y).
Proof.
  intros (L & HL & <-) (G & HG & <-) Hx Hy Hc Hbetween.
  unfold within, float_finite, float_value. rewrite FloatAxioms.mul_spec.
  apply SFmul_between; try done. fold (float_value x) (float_value y).
  rewrite Hc. assert (0 < 2 ^ 1074) by (by apply Z.pow_pos_nonneg).
  rewrite Z.mul_assoc. split; apply Z.mul_le_mono_nonneg_r; lia.
Qed.

(** The quotient by a positive whole number [c]. *)
Lemma div_within lo hi x y c :
  float_point lo → float_point hi →
  float_finite x = true → float_finite y = true →
  float_value y = c * 2 ^ 1074 → 0 < c →
  c * lo ≤ float_value x ≤ c * hi → within lo hi (x / y).
Proof.
  intros (L & HL & <-) (G & HG & <-) Hx Hy Hc Hpos Hbetween.
  unfold within, float_finite, float_value. rewrite FloatAxioms.div_spec.
  assert (0 < 2 ^ 1074) by (by apply Z.pow_pos_nonneg).
  apply SFdiv_between; try done; fold (float_value x) (float_value y); rewrite Hc.
  - lia.
  - rewrite !Z.mul_assoc. split; apply Z.mul_le_mono_nonneg_r; lia.
Qed.

Lemma mul_within_l lo hi x y c :
  float_point lo → float_point hi →
  float_finite x = true → float_finite y = true →
  float_value x = c * 2 ^ 1074 →
  lo ≤ c * float_value y ≤ hi → within lo hi (x * y).
Proof.
  intros (L & HL & <-) (G & HG & <-) Hx Hy Hc Hbetween.
  unfold within, float_finite, float_value. rewrite FloatAxioms.mul_spec.
  apply SFmul_between; try done. fold (float_value x) (float_value y).
  rewrite Hc. assert (0 < 2 ^ 1074) by (by apply Z.pow_pos_nonneg).
  replace (c * 2 ^ 1074 * float_value y) with (c * float_value y * 2 ^ 1074) by ring.
  split; apply Z.mul_le_mono_nonneg_r; lia.
Qed.

(** ** The kernel of the scenario in binary64 *)

(** [2 ^ -17], in the units of [float_value]. *)
Definition tick17 : Z := 2 ^ 1057.

Lemma tick17_pos : 0 < tick17.
Proof. unfold tick17. by apply Z.pow_pos_nonneg. Qed.

Lemma float_point_tick17 c : Z.abs c < 2 ^ 53 → float_point (c * tick17).
Proof. intros Hc. by apply float_point_scaled. Qed.

Lemma value_whole (x : float) (c : Z) :
  float_value x = c * 2 ^ 1074 → float_value x = 131072 * c * tick17.
Proof.
  intros ->. unfold tick17. change (2 ^ 1074) with (2 ^ (17 + 1057)).
  rewrite (Z.pow_add_r 2 17 1057) by lia. change (2 ^ 17) with 131072. ring.
Qed.

Lemma value_0 : float_value 0 = 0.
Proof. reflexivity. Qed.

Lemma value_1 : float_value 1 = 1 * 2 ^ 1074.
Proof. vm_compute. reflexivity. Qed.

Lemma value_237 : float_value (-237) = -237 * 2 ^ 1074.
Proof. vm_compute. reflexivity. Qed.

Lemma value_2430000 : float_value 2430000 = 2430000 * 2 ^ 1074.
Proof. vm_compute. reflexivity. Qed.

(** [min_delta] is between [2 ^ -17] and [2 ^ -14]. *)
Lemma value_min_delta : tick17 < float_value 1e-5 < 8 * tick17.
Proof. split; vm_compute; reflexivity. Qed.

Opaque tick17.

Lemma delta_temp_aluminium (o n : float) :
  HeatConductor.delta_temp aluminium o n
  = (-237 * (o - n) / 1 * 1 / 2430000)%float.
Proof. reflexivity. Qed.

Lemma change_aluminium (o n : float) :
  HeatConductor.calculate_temperature_change aluminium o n
  = if (abs (HeatConductor.delta_temp aluminium o n) <? 1e-5)%float
    then 0%float else HeatConductor.delta_temp aluminium o n.
Proof. reflexivity. Qed.

(** [q * conduction_time / (mass * c_p)] of a [q] in a range. *)
Lemma scaled_within lo hi lo' hi' (d : float) :
  Z.abs lo < 2 ^ 40 → Z.abs hi < 2 ^ 40 → Z.abs lo' < 2 ^ 53 → Z.abs hi' < 2 ^ 53 →
  lo' ≤ 0 → -237 * hi ≤ -237 * lo →
  2430000 * lo' ≤ -237 * hi → -237 * lo ≤ 2430000 * hi' →
  within (lo * tick17) (hi * tick17) d →
  within (lo' * tick17) (hi' * tick17) (-237 * d / 1 * 1 / 2430000)%float.
Proof.
  intros Hlo Hhi Hlo' Hhi' Hneg Hord Hlow Hupp [Hfd Hvd].
  pose proof tick17_pos as Hu.
  assert (Z.abs (-237 * hi) < 2 ^ 53 ∧ Z.abs (-237 * lo) < 2 ^ 53) as [Ha Hb].
  { change (2 ^ 53) with 9007199254740992 in *.
    change (2 ^ 40) with 1099511627776 in *. lia. }
  assert (within (-237 * hi * tick17) (-237 * lo * tick17) (-237 * d)) as [Hf1 Hv1].
  { apply (mul_within_l _ _ _ _ (-237));
      [by apply float_point_tick17 | by apply float_point_tick17
      | reflexivity | done | exact value_237 | lia]. }
  assert (within (-237 * hi * tick17) (-237 * lo * tick17) (-237 * d / 1)) as [Hf2 Hv2].
  { apply (div_within _ _ _ _ 1);
      [by apply float_point_tick17 | by apply float_point_tick17
      | done | reflexivity | exact value_1 | lia | lia]. }
  assert (within (-237 * hi * tick17) (-237 * lo * tick17) (-237 * d / 1 * 1))
    as [Hf3 Hv3].
  { apply (mul_within _ _ _ _ 1);
      [by apply float_point_tick17 | by apply float_point_tick17
      | done | reflexivity | exact value_1 | lia]. }
  apply (div_within _ _ _ _ 2430000);
    [by apply float_point_tick17 | by apply float_point_tick17
    | done | reflexivity | exact value_2430000 | lia | nia].
Qed.

(** The origin after [j] transfers of at most [2 ^ -13], a neighbour of
    it, and a cell further away. *)
Definition hot64 (j : nat) (o : float) : Prop :=
  within ((131072 - 16 * Z.of_nat j) * tick17) (131072 * tick17) o.

Definition warm64 (j : nat) (n : float) : Prop :=
  within 0 (16 * Z.of_nat j * tick17) n.

Definition cold64 (f : float) : Prop := f = 0%float.

(** From the origin to a neighbour, the kernel passes between [2 ^ -14]
    and [2 ^ -13], which [min_delta] is below. *)
Lemma kernel_flows j o n :
  (j ≤ 33)%nat → hot64 j o → warm64 j n →
  within (-16 * tick17) (-8 * tick17) (HeatConductor.delta_temp aluminium o n) ∧
  HeatConductor.calculate_temperature_change aluminium o n
  = HeatConductor.delta_temp aluminium o n.
Proof.
  intros Hj [Hfo Hvo] [Hfn Hvn]. pose proof tick17_pos as Hu.
  assert (0 ≤ Z.of_nat j * tick17 ≤ 33 * tick17) as Hju by nia.
  assert (within (130016 * tick17) (131072 * tick17) (o - n)) as Hd.
  { apply sub_within;
      [by apply float_point_tick17 | by apply float_point_tick17 | done | done | lia]. }
  assert (within (-16 * tick17) (-8 * tick17) (HeatConductor.delta_temp aluminium o n))
    as HD.
  { rewrite delta_temp_aluminium.
    by apply (scaled_within 130016 131072 (-16) (-8)). }
  split; [done|]. rewrite change_aluminium.
  destruct HD as [HfD HvD].
  destruct (abs_within _ HfD) as [Hfa Hva].
  rewrite ltb_value by done. rewrite Hva.
  pose proof value_min_delta as [_ Hmin].
  destruct (Z.ltb_spec (Z.abs (float_value (HeatConductor.delta_temp aluminium o n)))
              (float_value 1e-5)) as [Hlt | _]; [lia|done].
Qed.

(** From a neighbour to a cell further away, it passes less than
    [2 ^ -17], which is below [min_delta]: nothing. *)
Lemma kernel_clamped j n :
  (j ≤ 33)%nat → warm64 j n →
  HeatConductor.calculate_temperature_change aluminium n 0%float = 0%float.
Proof.
  intros Hj [Hfn Hvn]. pose proof tick17_pos as Hu.
  assert (0 ≤ Z.of_nat j * tick17 ≤ 33 * tick17) as Hju by nia.
  assert (within (0 * tick17) (528 * tick17) (n - 0)%float) as Hd.
  { apply sub_within;
      [by apply float_point_tick17 | by apply float_point_tick17
      | done | reflexivity | rewrite value_0; lia]. }
  assert (within (-1 * tick17) (0 * tick17)
            (HeatConductor.delta_temp aluminium n 0%float))
    as [HfD HvD].
  { rewrite delta_temp_aluminium.
    by apply (scaled_within 0 528 (-1) 0). }
  rewrite change_aluminium.
  destruct (abs_within _ HfD) as [Hfa Hva].
  rewrite ltb_value by done. rewrite Hva.
  pose proof value_min_delta as [Hmin _].
  destruct (Z.ltb_spec
              (Z.abs (float_value (HeatConductor.delta_temp aluminium n 0%float)))
              (float_value 1e-5)) as [_ | Hge]; [done|lia].
Qed.

Lemma hot64_finite j o : hot64 j o → float_finite o = true.
Proof. by intros [? _]. Qed.

Lemma warm64_finite j n : warm64 j n → float_finite n = true.
Proof. by intros [? _]. Qed.

Lemma float_point_ticks (j : nat) (c : Z) :
  (j ≤ 34)%nat → Z.abs c ≤ 131072 → float_point ((c + 16 * Z.of_nat j) * tick17).
Proof.
  intros Hj Hc. apply float_point_tick17.
  change (2 ^ 53) with 9007199254740992. lia.
Qed.

(** C9: with a delay of 1000 and ten passes allowed, in binary64 and for
    every outcome of the shuffles, the run of the scenario (a lattice of
    2 x 2 x 2 cells from 0 to 1, tolerance 0.05, the conductor of the
    defaults) makes the ten passes and returns ten snapshots, with queues
    left when the passes are used up; and every pass starts with a new
    queue that holds the origin. *)
Theorem delay_1000_exhausts_ten_passes {rng : Type}
    (shuffle : rng → list coord → list coord * rng) (g : rng) :
  (∀ g l, (shuffle g l).1 ≡ₚ l) →
  (∃ st0 st states,
    initial_state (scenario 1000 10) g = Ok st0 ∧
    run_loop shuffle (scenario 1000 10)
      (Z.to_nat (max_iterations (scenario 1000 10))) st0 = Ok st ∧
    iterations st = max_iterations (scenario 1000 10) ∧
    propagation_queues st ≠ [] ∧
    propagate shuffle (scenario 1000 10) g = Ok states ∧
    length states = 10%nat) ∧
  (∀ st, at_top shuffle (scenario 1000 10) g st →
    guard (scenario 1000 10) st = true →
    reheat_seed (scenario 1000 10) (tick st)
    = Ok (with_queues (propagation_queues st ++ [[origin (scenario 1000 10)]])
            (tick st))).
Proof.
  intros Hperm. pose proof tick17_pos as Hu.
  apply (ten_passes_exhausted shuffle Hperm 0%float 1%float 1%float 0.05%float
           aluminium hot64 warm64 cold64).
  - (* hot_start *)
    split; [reflexivity|].
    change ((131072 - 16 * 0) * tick17 ≤ float_value 1 ≤ 131072 * tick17).
    rewrite (value_whole 1 1 value_1). lia.
  - (* warm_start *)
    split; [reflexivity|].
    change (0 ≤ float_value 0 ≤ 16 * 0 * tick17). rewrite value_0. lia.
  - (* cold_start *)
    reflexivity.
  - (* no_reheat *)
    reflexivity.
  - (* warm_S *)
    intros j v [Hf Hv]. split; [done|]. rewrite Nat2Z.inj_succ. lia.
  - (* cold_not_close *)
    intros v ->. reflexivity.
  - (* flows *)
    intros j o n Hj Ho Hn.
    destruct (kernel_flows j o n Hj Ho Hn) as [[HfD HvD] ->].
    destruct Ho as [Hfo Hvo], Hn as [Hfn Hvn].
    assert (0 ≤ Z.of_nat j * tick17 ≤ 33 * tick17) as Hju by nia.
    cbv zeta. split_and!.
    + change (n <? o)%float with (PrimFloat.ltb n o). rewrite ltb_value by done.
      apply Z.ltb_lt. lia.
    + change (PrimFloat.ltb (HeatConductor.delta_temp aluminium o n) 0 = true).
      rewrite ltb_value by done. apply Z.ltb_lt. rewrite value_0. lia.
    + change (PrimFloat.leb 0 (HeatConductor.delta_temp aluminium o n) = false).
      rewrite leb_value by done. apply Z.leb_gt. rewrite value_0. lia.
  - (* transfer *)
    intros j o n Hj Ho Hn.
    destruct (kernel_flows j o n ltac:(lia) Ho Hn) as [[HfD HvD] ->].
    destruct Ho as [Hfo Hvo], Hn as [Hfn Hvn].
    assert (0 ≤ Z.of_nat j * tick17 ≤ 33 * tick17) as Hju by nia.
    cbv zeta. split.
    + apply sub_within; [by exists (S754_zero false) | | done | done | ].
      * replace (16 * Z.of_nat (S j)) with (0 + 16 * Z.of_nat (S j)) by lia.
        apply float_point_ticks; lia.
      * rewrite Nat2Z.inj_succ. lia.
    + apply add_within; [ | | done | done | ].
      * replace (131072 - 16 * Z.of_nat (S j))
          with (131072 - 32 * Z.of_nat (S j) + 16 * Z.of_nat (S j)) by lia.
        apply float_point_ticks; lia.
      * apply float_point_tick17. done.
      * rewrite Nat2Z.inj_succ. lia.
  - (* hot_S *)
    intros j v [Hf Hv]. split; [done|]. rewrite Nat2Z.inj_succ. lia.
  - (* no_backflow *)
    intros j o n Hj [Hfo Hvo] [Hfn Hvn].
    assert (0 ≤ Z.of_nat j * tick17 ≤ 33 * tick17) as Hju by nia.
    change (PrimFloat.ltb o n = false). rewrite ltb_value by done.
    apply Z.ltb_ge. lia.
  - (* clamped *)
    intros j n f Hj Hn -> _. rewrite (kernel_clamped j n Hj Hn).
    destruct Hn as [Hfn Hvn]. cbv zeta. split_and!; [reflexivity..|].
    apply sub_within; [by exists (S754_zero false) | | done | reflexivity | ].
    + replace (16 * Z.of_nat j) with (0 + 16 * Z.of_nat j) by lia.
      apply float_point_ticks; lia.
    + change (float_value 0%num) with (float_value 0). rewrite value_0. lia.
Qed.

Lemma delay_1000_exhausts_ten_passes_witness :
  (∀ g l, (keep_order g l).1 ≡ₚ l) ∧
  ∃ states, propagate keep_order (scenario 1000 10) tt = Ok states ∧
            length states = 10%nat.
Proof.
  assert (∀ g l, (keep_order g l).1 ≡ₚ l) as Hperm by (intros g l; reflexivity).
  split; [exact Hperm|].
  destruct (delay_1000_exhausts_ten_passes keep_order tt Hperm)
    as [(st0 & st & states & _ & _ & _ & _ & Hrun & Hlen) _].
  exists states. split; [exact Hrun | exact Hlen].
Defined.

(** * More of what a run does *)

(** ** How a run ends *)

Section Outcome.
Context {T : Type} `{Number T}.
Context {rng : Type} (shuffle : rng → list coord → list coord * rng).
Implicit Types (self : Propagator.t T) (st : state T rng) (g : rng).

(** The snapshots recorded stay as they are, the loop only appends. *)
Lemma run_loop_keeps_snapshots self fuel st st' :
  run_loop shuffle self fuel st = Ok st' →
  cube_states st `prefix_of` cube_states st'.
Proof.
  revert st. induction fuel as [|fuel IH]; intros st Hrun; simpl in Hrun.
  - destruct (guard self st); by inv_result.
  - destruct (guard self st); [|by inv_result].
    inv_result. destruct r as [st1 broke]. destruct broke; inv_result.
    + apply step_broke in Hr as (st2 & _ & _ & _ & ->). done.
    + apply step_completed in Hr as (st2 & st3 & _ & _ & _ & _ & Hst & _).
      etrans; [|by apply IH]. rewrite Hst. by apply prefix_app_r.
Qed.

(** A pass whose tolerance test fails is completed. *)
Lemma step_not_close self st st1 :
  in_cube (cube_size self) (origin self) → well_formed self st → delay self ≠ 0 →
  reheat_seed self (tick st) = Ok st1 → all_close self (cube st1) = false →
  ∃ st', step shuffle self st = Ok (st', false).
Proof.
  intros Horigin Hst Hdelay Hseed Hclose.
  destruct (step_total shuffle self Horigin st Hst Hdelay) as [[st' broke] Hstep].
  exists st'. destruct broke; [|done].
  apply step_broke in Hstep as (st1' & Hseed' & Hclose' & _).
  congruence.
Qed.

(** X1.  With the origin inside the lattice and a delay that is not zero,
    a run ends in one of two ways: it returns a list that is not empty, when
    at least one pass is allowed and the lattice fails the tolerance test at
    the top of the first pass; it raises IndexError at [cube_states[-1]]
    otherwise. *)
Theorem propagate_outcome self g :
  in_cube (cube_size self) (origin self) → delay self ≠ 0 →
  ∃ st0 st1,
    initial_state self g = Ok st0 ∧ reheat_seed self (tick st0) = Ok st1 ∧
    if (0 <? max_iterations self) && negb (all_close self (cube st1))
    then ∃ states, propagate shuffle self g = Ok states ∧ states ≠ []
    else propagate shuffle self g = Err IndexError.
Proof.
  intros Horigin Hdelay.
  destruct (initial_state_well_formed self Horigin g) as (st0 & Hst0 & Hwf).
  destruct (reheat_seed_total self Horigin (tick st0)) as [st1 Hseed]; [done..|].
  exists st0, st1. split; [done|]. split; [done|].
  destruct (Z.ltb_spec 0 (max_iterations self)) as [Hmax | Hmax]; simpl;
    [|by eapply propagate_no_pass].
  destruct (all_close self (cube st1)) eqn:Hclose; simpl;
    [by eapply propagate_converged_at_once|].
  destruct (step_not_close self st0 st1) as [st' Hstep]; try done.
  assert (guard self st0 = true) as Hguard.
  { apply initial_state_counters in Hst0 as Hcount. injection Hcount as _ _ Hit.
    unfold guard. rewrite (initial_state_queues _ _ _ Hst0), Hit. simpl.
    by apply Z.ltb_lt. }
  assert (well_formed self st') as Hwf'.
  { eapply (rtc_move_well_formed shuffle self Horigin st0); [|done].
    eapply step_moves; [done..| |done]. by destruct Hwf. }
  unfold propagate. rewrite Hst0. cbn [mbind result_bind].
  destruct (Z.to_nat (max_iterations self)) as [|fuel] eqn:Hfuel; [lia|].
  cbn [run_loop]. rewrite Hguard, Hstep. cbn [mbind result_bind].
  destruct (run_loop_total shuffle self Horigin fuel st') as [st Hrun]; [done..|].
  rewrite Hrun. cbn [mbind result_bind].
  apply run_loop_keeps_snapshots in Hrun as Hprefix.
  apply step_completed in Hstep as (st1' & st2 & _ & _ & _ & _ & Hst & _).
  rewrite Hst in Hprefix.
  assert (cube_states st ≠ []) as Hne.
  { intros Hnil. rewrite Hnil in Hprefix.
    apply prefix_nil_inv in Hprefix. by destruct (cube_states st0). }
  destruct (exists_last Hne) as (prev & snapshot & Heq).
  exists (cube_states st). split; [|done].
  rewrite Heq. by apply finish_recorded.
Qed.

(** X2.  A delay of zero: the first pass raises ZeroDivisionError at
    [propagation_index % self.delay], when a pass is allowed. *)
Theorem zero_delay_raises self g :
  in_cube (cube_size self) (origin self) → delay self = 0 →
  0 < max_iterations self →
  propagate shuffle self g = Err ZeroDivisionError.
Proof.
  intros Horigin Hdelay Hmax.
  destruct (initial_state_well_formed self Horigin g) as (st0 & Hst0 & _).
  by eapply propagate_delay_0.
Qed.

End Outcome.

(** ** Indices from the end *)

(** The coordinates NumPy accepts on a lattice of size [n], and the cell
    each one names: a negative index counts from the end of its axis. *)
Definition addressable (n : Z) (c : coord) : Prop :=
  let '(x, y, z) := c in -n ≤ x < n ∧ -n ≤ y < n ∧ -n ≤ z < n.

Definition cell (n : Z) (c : coord) : coord :=
  let '(x, y, z) := c in (x `mod` n, y `mod` n, z `mod` n).

Section Wrap.
Context {T : Type}.
Implicit Types (cube : lattice T) (c : coord) (v : T).

Lemma axis_index_addressable len i :
  - Z.of_nat len ≤ i < Z.of_nat len →
  axis_index len i = Ok (Z.to_nat (i `mod` Z.of_nat len)).
Proof.
  intros Hi. destruct (Z.neg_nonneg_cases i) as [Hneg | Hpos].
  - apply axis_index_negative; [lia|]. f_equal.
    symmetry. apply Z.mod_unique with (-1); lia.
  - rewrite Z.mod_small by lia. apply axis_index_nonneg. lia.
Qed.

Lemma axis_index_outside len i :
  ¬ (- Z.of_nat len ≤ i < Z.of_nat len) → axis_index len i = Err IndexError.
Proof.
  intros Hi. unfold axis_index.
  destruct (Z.leb_spec 0 i), (Z.ltb_spec i (Z.of_nat len)); simpl; try lia;
    destruct (Z.leb_spec (- Z.of_nat len) i), (Z.ltb_spec i 0); simpl; try lia; done.
Qed.

Lemma index_lt len i :
  - Z.of_nat len ≤ i < Z.of_nat len → (Z.to_nat (i `mod` Z.of_nat len) < len)%nat.
Proof. intros Hi. pose proof (Z.mod_pos_bound i (Z.of_nat len)). lia. Qed.

Lemma getitem_addressable {A} (l : list A) i :
  - Z.of_nat (length l) ≤ i < Z.of_nat (length l) →
  ∃ x, l !! Z.to_nat (i `mod` Z.of_nat (length l)) = Some x ∧ getitem l i = Ok x.
Proof.
  intros Hi. unfold getitem. rewrite axis_index_addressable by done. simpl.
  destruct (lookup_lt_is_Some_2 l (Z.to_nat (i `mod` Z.of_nat (length l))))
    as [x Hx]; [by apply index_lt|].
  exists x. by rewrite Hx.
Qed.

Lemma getitem_outside {A} (l : list A) i :
  ¬ (- Z.of_nat (length l) ≤ i < Z.of_nat (length l)) → getitem l i = Err IndexError.
Proof. intros Hi. unfold getitem. by rewrite axis_index_outside. Qed.

Lemma setitem_addressable {A} (l : list A) i x :
  - Z.of_nat (length l) ≤ i < Z.of_nat (length l) →
  setitem l i x = Ok (<[Z.to_nat (i `mod` Z.of_nat (length l)) := x]> l).
Proof. intros Hi. unfold setitem. by rewrite axis_index_addressable. Qed.

Lemma has_shape_lookup n cube i plane :
  has_shape n cube → cube !! i = Some plane →
  length plane = n ∧ ∀ j row, plane !! j = Some row → length row = n.
Proof.
  intros [_ Hplanes] Hi. eapply Forall_lookup_1 in Hplanes as [Hlen Hrows]; [|done].
  split; [done|]. intros j row Hj. by eapply Forall_lookup_1 in Hrows.
Qed.

(** [cube[c]] on a lattice of size [n]: the value in the cell [c] names. *)
Lemma cube_get_addressable n cube c :
  has_shape n cube → addressable (Z.of_nat n) c →
  ∃ plane row v,
    let '(x, y, z) := cell (Z.of_nat n) c in
    cube !! Z.to_nat x = Some plane ∧ plane !! Z.to_nat y = Some row ∧
    row !! Z.to_nat z = Some v ∧ cube_get cube c = Ok v.
Proof.
  intros Hshape Hc. destruct c as [[x y] z]. simpl in Hc. destruct Hc as (Hx & Hy & Hz).
  pose proof Hshape as [Hlen _].
  destruct (getitem_addressable cube x) as (plane & Hplane & Hgx); [lia|].
  rewrite Hlen in Hplane.
  destruct (has_shape_lookup _ _ _ _ Hshape Hplane) as [Hlp Hrows].
  destruct (getitem_addressable plane y) as (row & Hrow & Hgy); [lia|].
  rewrite Hlp in Hrow. pose proof (Hrows _ _ Hrow) as Hlr.
  destruct (getitem_addressable row z) as (v & Hv & Hgz); [lia|].
  rewrite Hlr in Hv. exists plane, row, v. unfold cell, cube_get.
  rewrite Hgx. simpl. rewrite Hgy. simpl. done.
Qed.

Lemma cube_get_outside n cube c :
  has_shape n cube → ¬ addressable (Z.of_nat n) c → cube_get cube c = Err IndexError.
Proof.
  intros Hshape Hc. destruct c as [[x y] z]. simpl in Hc.
  pose proof Hshape as [Hlen _]. unfold cube_get.
  destruct (decide (- Z.of_nat n ≤ x < Z.of_nat n)) as [Hx | Hx];
    [|by rewrite getitem_outside by lia].
  destruct (getitem_addressable cube x) as (plane & Hplane & ->); [lia|].
  rewrite Hlen in Hplane.
  destruct (has_shape_lookup _ _ _ _ Hshape Hplane) as [Hlp Hrows]. simpl.
  destruct (decide (- Z.of_nat n ≤ y < Z.of_nat n)) as [Hy | Hy];
    [|by rewrite getitem_outside by lia].
  destruct (getitem_addressable plane y) as (row & Hrow & ->); [lia|].
  rewrite Hlp in Hrow. pose proof (Hrows _ _ Hrow) as Hlr. simpl.
  apply getitem_outside. lia.
Qed.

(** [cube[c] = v]: the cell [c] names holds [v] afterwards, every other cell
    what it held. *)
Lemma cube_set_addressable n cube c v :
  has_shape n cube → addressable (Z.of_nat n) c →
  ∃ cube', cube_set cube c v = Ok cube' ∧
    ∀ c', addressable (Z.of_nat n) c' →
      cube_get cube' c' =
      if decide (cell (Z.of_nat n) c' = cell (Z.of_nat n) c) then Ok v
      else cube_get cube c'.
Proof.
  intros Hshape Hc.
  destruct (cube_get_addressable n cube c Hshape Hc) as (plane & row & old & Hcell).
  destruct c as [[x y] z]. simpl in Hc. cbn [cell] in Hcell.
  destruct Hc as (Hx & Hy & Hz). destruct Hcell as (Hplane & Hrow & Hold & _).
  pose proof Hshape as [Hlen _].
  destruct (has_shape_lookup _ _ _ _ Hshape Hplane) as [Hlp Hrows].
  pose proof (Hrows _ _ Hrow) as Hlr.
  assert (getitem cube x = Ok plane) as Hgx.
  { destruct (getitem_addressable cube x) as (p & Hp & ->); [lia|].
    rewrite Hlen in Hp.
    by assert (Some p = Some plane) as [= ->] by exact (eq_trans (eq_sym Hp) Hplane). }
  assert (getitem plane y = Ok row) as Hgy.
  { destruct (getitem_addressable plane y) as (r & Hr & ->); [lia|].
    rewrite Hlp in Hr.
    by assert (Some r = Some row) as [= ->] by exact (eq_trans (eq_sym Hr) Hrow). }
  set (ix := Z.to_nat (x `mod` Z.of_nat n)) in *.
  set (iy := Z.to_nat (y `mod` Z.of_nat n)) in *.
  set (iz := Z.to_nat (z `mod` Z.of_nat n)) in *.
  set (cube' := <[ix := <[iy := <[iz := v]> row]> plane]> cube).
  assert (cube_set cube (x, y, z) v = Ok cube') as Hset.
  { unfold cube_set. rewrite Hgx. simpl. rewrite Hgy. simpl.
    rewrite setitem_addressable by lia. simpl.
    rewrite setitem_addressable by lia. simpl.
    rewrite setitem_addressable by lia. by rewrite Hlen, Hlp, Hlr. }
  exists cube'. split; [done|].
  assert (has_shape n cube') as Hshape' by (by eapply cube_set_shape).
  intros c' Hc'.
  destruct (cube_get_addressable n cube' c' Hshape' Hc') as (plane' & row' & v' & Hcell').
  destruct (cube_get_addressable n cube c' Hshape Hc') as (plane0 & row0 & v0 & Hcell0).
  destruct c' as [[x' y'] z']. simpl in Hc'. cbn [cell] in Hcell', Hcell0.
  destruct Hc' as (Hx' & Hy' & Hz').
  destruct Hcell' as (Hplane' & Hrow' & Hv' & ->).
  destruct Hcell0 as (Hplane0 & Hrow0 & Hv0 & ->).
  assert (0 < Z.of_nat n) as Hn by lia.
  pose proof (Z.mod_pos_bound x _ Hn) as [Hmx Hmx'].
  pose proof (Z.mod_pos_bound y _ Hn) as [Hmy Hmy'].
  pose proof (Z.mod_pos_bound z _ Hn) as [Hmz Hmz'].
  pose proof (Z.mod_pos_bound x' _ Hn) as [Hnx _].
  pose proof (Z.mod_pos_bound y' _ Hn) as [Hny _].
  pose proof (Z.mod_pos_bound z' _ Hn) as [Hnz _].
  assert (ix < n ∧ iy < n ∧ iz < n)%nat as (Hixn & Hiyn & Hizn).
  { unfold ix, iy, iz. clear -Hmx Hmx' Hmy Hmy' Hmz Hmz'.
    generalize dependent (x `mod` Z.of_nat n). generalize dependent (y `mod` Z.of_nat n).
    generalize dependent (z `mod` Z.of_nat n). lia. }
  unfold cube', lattice in *. unfold cell.
  destruct (decide (Z.to_nat (x' `mod` Z.of_nat n) = ix)) as [Hix | Hix].
  - rewrite Hix in *. rewrite list_lookup_insert_eq in Hplane' by (rewrite Hlen; exact Hixn).
    injection Hplane' as <-. assert (plane0 = plane) as -> by congruence.
    destruct (decide (Z.to_nat (y' `mod` Z.of_nat n) = iy)) as [Hiy | Hiy].
    + rewrite Hiy in *. rewrite list_lookup_insert_eq in Hrow' by (rewrite Hlp; exact Hiyn).
      injection Hrow' as <-. assert (row0 = row) as -> by congruence.
      destruct (decide (Z.to_nat (z' `mod` Z.of_nat n) = iz)) as [Hiz | Hiz].
      * rewrite Hiz in *. rewrite list_lookup_insert_eq in Hv' by (rewrite Hlr; exact Hizn).
        injection Hv' as <-. rewrite decide_True; [done|].
        f_equal; [f_equal|]; by apply Z2Nat.inj.
      * rewrite list_lookup_insert_ne in Hv' by done.
        rewrite decide_False; [congruence|].
        intros [= _ _ Heq]. apply Hiz. unfold iz. by rewrite Heq.
    + rewrite list_lookup_insert_ne in Hrow' by done.
      rewrite decide_False; [congruence|].
      intros [= _ Heq _]. apply Hiy. unfold iy. by rewrite Heq.
  - rewrite list_lookup_insert_ne in Hplane' by done.
    rewrite decide_False; [congruence|].
    intros [= Heq _ _]. apply Hix. unfold ix. by rewrite Heq.
Qed.

Lemma cube_set_outside n cube c v :
  has_shape n cube → ¬ addressable (Z.of_nat n) c → cube_set cube c v = Err IndexError.
Proof.
  intros Hshape Hc. destruct c as [[x y] z]. simpl in Hc.
  pose proof Hshape as [Hlen _]. unfold cube_set.
  destruct (decide (- Z.of_nat n ≤ x < Z.of_nat n)) as [Hx | Hx];
    [|by rewrite getitem_outside by lia].
  destruct (getitem_addressable cube x) as (plane & Hplane & ->); [lia|].
  rewrite Hlen in Hplane.
  destruct (has_shape_lookup _ _ _ _ Hshape Hplane) as [Hlp Hrows]. simpl.
  destruct (decide (- Z.of_nat n ≤ y < Z.of_nat n)) as [Hy | Hy];
    [|by rewrite getitem_outside by lia].
  destruct (getitem_addressable plane y) as (row & Hrow & ->); [lia|].
  rewrite Hlp in Hrow. pose proof (Hrows _ _ Hrow) as Hlr. simpl.
  assert (setitem row z v = Err IndexError) as ->; [|done].
  unfold setitem. by rewrite axis_index_outside by lia.
Qed.

(** [np.full] holds its value in every cell. *)
Lemma np_full_get n v cube c :
  np_full n v = Ok cube → addressable n c → cube_get cube c = Ok v.
Proof.
  intros Hfull Hc. pose proof (np_full_shape _ _ _ Hfull) as Hshape.
  unfold np_full in Hfull. destruct (Z.ltb_spec n 0) as [|Hn]; [done|].
  injection Hfull as <-. rewrite <-(Z2Nat.id n) in Hc by done.
  destruct (cube_get_addressable _ _ c Hshape Hc) as (plane & row & v' & Hcell).
  destruct (cell _ c) as [[x y] z]. destruct Hcell as (Hplane & Hrow & Hv & ->).
  apply lookup_replicate in Hplane as [-> _].
  apply lookup_replicate in Hrow as [-> _].
  by apply lookup_replicate in Hv as [-> _].
Qed.

End Wrap.

(** ** The start of a run *)

Section Start.
Context {T : Type} `{Number T}.
Context {rng : Type} (shuffle : rng → list coord → list coord * rng).
Implicit Types (self : Propagator.t T) (st : state T rng) (g : rng).

#[local] Instance addressable_dec n c : Decision (addressable n c).
Proof. destruct c as [[x y] z]. simpl. apply _. Defined.

(** X3.  Lines 57-69: the lattice a run starts from holds [start_temp] in
    every cell but the one the origin names, which holds [start_temp +
    increment]; an origin may count from the end of an axis with negative
    indices.  A negative size fails in [np.full] with ValueError, an origin
    outside [-size, size) with IndexError at [cube[self.origin] = ...], and
    [propagate] raises what the start raises. *)
Theorem initial_lattice self g :
  match initial_state self g with
  | Ok st0 =>
    addressable (cube_size self) (origin self) ∧
    propagation_queues st0 = [[origin self]] ∧
    ∀ c, addressable (cube_size self) c →
      cube_get (cube st0) c =
      Ok (if decide (cell (cube_size self) c = cell (cube_size self) (origin self))
          then (start_temp self + increment self)%num else start_temp self)
  | Err e =>
    propagate shuffle self g = Err e ∧
    if cube_size self <? 0 then e = ValueError
    else e = IndexError ∧ ¬ addressable (cube_size self) (origin self)
  end.
Proof.
  unfold propagate, initial_state.
  destruct (np_full (cube_size self) (start_temp self)) as [cube0|e] eqn:Hfull.
  - pose proof (np_full_shape _ _ _ Hfull) as Hshape.
    assert (0 ≤ cube_size self) as Hsize.
    { unfold np_full in Hfull. by destruct (Z.ltb_spec (cube_size self) 0). }
    cbn [mbind result_bind].
    destruct (decide (addressable (cube_size self) (origin self))) as [Ho | Ho].
    + rewrite <-(Z2Nat.id (cube_size self)) in Ho at 1 by done.
      destruct (cube_set_addressable _ cube0 (origin self)
                  (start_temp self + increment self)%num Hshape Ho)
        as (cube1 & -> & Hget).
      cbn [mbind result_bind cube propagation_queues].
      rewrite Z2Nat.id in Ho, Hget by done. split_and!; try done.
      intros c Hc. rewrite (Hget c Hc).
      destruct (decide (cell _ c = cell _ (origin self))); [done|].
      by eapply np_full_get.
    + rewrite (cube_set_outside (Z.to_nat (cube_size self))); [|done|].
      * cbn [mbind result_bind]. split; [done|].
        by destruct (Z.ltb_spec (cube_size self) 0); [lia|].
      * by rewrite Z2Nat.id.
  - cbn [mbind result_bind]. unfold np_full in Hfull.
    destruct (Z.ltb_spec (cube_size self) 0); [|done].
    injection Hfull as <-. done.
Qed.

End Start.

(** ** An origin without neighbours *)

Section Isolated.
Context {T : Type} `{Number T}.
Context {rng : Type} (shuffle : rng → list coord → list coord * rng).
Context (shuffle_perm : ∀ g l, (shuffle g l).1 ≡ₚ l).
Context (self : Propagator.t T).
Implicit Types (st : state T rng) (g : rng) (c d : coord).

(** No neighbour of the origin along an axis passes the range check of
    line 115: the lattice has one cell, or the origin is given by negative
    indices other than a single -1. *)
Definition isolated : Prop :=
  ∀ d, d ∈ six →
    let '(nx, ny, nz) := neighbour (origin self) d in
    in_range self nx && in_range self ny && in_range self nz = false.

Lemma reheat_seed_directions st st' :
  reheat_seed self st = Ok st' → directions st' = directions st.
Proof.
  unfold reheat_seed. intros Hst.
  destruct (delay self =? 0); [done|].
  destruct (propagation_index st `mod` delay self =? 0).
  - inv_result. destruct (r <? end_temp self)%num; inv_result; [|done].
    by apply cube_iadd_Ok in Hr0 as (? & ? & _ & _ & ->).
  - destruct (propagation_index st <? delay self); by inv_result.
Qed.

Lemma reheat_seed_origin_queues k st st' :
  propagation_queues st = replicate k [origin self] →
  reheat_seed self st = Ok st' →
  ∃ k', propagation_queues st' = replicate k' [origin self].
Proof.
  intros Hq [-> | ->]%reheat_seed_queues; [by exists k|].
  exists (S k). rewrite Hq. change [[origin self]] with (replicate 1 [origin self]).
  rewrite <-replicate_add. f_equal. lia.
Qed.

Lemma visit_isolated i d st :
  isolated → d ∈ six → visit self i (origin self) d st = Ok st.
Proof.
  intros Hiso Hd. specialize (Hiso d Hd). unfold visit.
  destruct (origin self) as [[x y] z], d as [[dx dy] dz]. simpl in Hiso.
  by rewrite Hiso.
Qed.

Lemma visits_isolated i l st :
  isolated → Forall (.∈ six) l →
  for_each (visit self i (origin self)) l st = Ok st.
Proof.
  intros Hiso Hl. induction Hl as [|d l Hd _ IH]; [done|].
  simpl. rewrite visit_isolated by done. exact IH.
Qed.

(** The queues that hold the origin alone are emptied and removed, and the
    lattice is left as it is. *)
Lemma process_queues_isolated k st st' :
  isolated → propagation_queues st = replicate k [origin self] →
  directions st ≡ₚ six →
  for_each (process_queue shuffle self) (reverse (seq 0 k)) st = Ok st' →
  propagation_queues st' = [] ∧ cube st' = cube st.
Proof.
  intros Hiso. revert st. induction k as [|k IH]; intros st Hq Hdirs Hrun.
  - injection Hrun as <-. by rewrite Hq.
  - rewrite seq_S, reverse_snoc in Hrun. change (0 + k)%nat with k in Hrun.
    cbn [for_each] in Hrun. apply bind_Ok in Hrun as (st1 & Hst1 & Hrun).
    assert (propagation_queues st !! k = Some [origin self]) as Hk.
    { rewrite Hq. apply lookup_replicate. split; [done|lia]. }
    unfold process_queue, process_cell in Hst1.
    rewrite (proj2 (queue_at_Ok _ _ _) Hk) in Hst1. cbn [mbind result_bind] in Hst1.
    set (st2 := shuffle_directions shuffle _) in Hst1.
    assert (directions st2 ≡ₚ six) as Hdirs2.
    { unfold st2, shuffle_directions. simpl.
      pose proof (shuffle_perm (gen st) (directions st)) as Hp.
      destruct (shuffle (gen st) (directions st)) as [dirs g']. simpl in *.
      by rewrite Hp. }
    rewrite visits_isolated in Hst1; [|done|].
    2: { apply Forall_forall. intros d Hd. by rewrite Hdirs2 in Hd. }
    cbn [mbind result_bind] in Hst1. unfold drop_if_empty, queue_at in Hst1.
    assert (propagation_queues st2 = <[k := []]> (replicate (S k) [origin self])) as Hq2.
    { unfold st2. rewrite shuffle_directions_queues. simpl. by rewrite Hq. }
    rewrite Hq2, list_lookup_insert_eq in Hst1 by (rewrite length_replicate; lia).
    cbn [mbind result_bind] in Hst1. injection Hst1 as <-.
    destruct (IH (with_queues (delete k (<[k := []]> (replicate (S k) [origin self]))) st2))
      as [Hq' Hcube']; try done.
    + cbn [propagation_queues with_queues].
      rewrite delete_insert_same, replicate_S_end.
      rewrite <-(length_replicate k [origin self]) at 1.
      rewrite delete_middle. by rewrite app_nil_r.
    + split; [done|]. rewrite Hcube'. simpl. unfold st2.
      by rewrite shuffle_directions_cube.
Qed.

(** X4.  When no neighbour of the origin passes the range check, nothing
    ever leaves the origin: the queues are empty after the first pass, and a
    run that returns returns one snapshot, the lattice as the reheat of the
    first pass left it. *)
Theorem isolated_origin_one_snapshot g states :
  isolated → propagate shuffle self g = Ok states →
  ∃ st0 st1,
    initial_state self g = Ok st0 ∧ reheat_seed self (tick st0) = Ok st1 ∧
    states = [cube st1].
Proof.
  intros Hiso Hrun. unfold propagate in Hrun.
  apply bind_Ok in Hrun as (st0 & Hst0 & Hrun).
  apply bind_Ok in Hrun as (st & Hst & Hfin).
  apply finish_Ok in Hfin as [-> Hne].
  apply initial_state_counters in Hst0 as Hcount. injection Hcount as Hstates _ _.
  pose proof (initial_state_queues _ _ _ Hst0) as Hq0.
  assert (directions st0 = six) as Hdirs0.
  { unfold initial_state in Hst0. by inv_result. }
  exists st0.
  destruct (Z.to_nat (max_iterations self)) as [|fuel]; simpl in Hst.
  { assert (st = st0) as -> by (destruct (guard self st0); by inv_result). done. }
  destruct (guard self st0); [|by inv_result].
  apply bind_Ok in Hst as ([st' broke] & Hstep & Hst).
  destruct broke.
  { injection Hst as <-. apply step_broke in Hstep as (st1 & _ & _ & _ & Heq).
    by rewrite Heq in Hne. }
  apply step_completed in Hstep as (st1 & st2 & Hseed & _ & Hpass & -> & Hrec & _).
  exists st1. split; [done|]. split; [done|].
  destruct (reheat_seed_origin_queues 1 (tick st0) st1) as [k Hq1]; [done..|].
  rewrite Hq1, length_replicate in Hpass.
  apply process_queues_isolated in Hpass as [Hq2 Hcube2]; try done.
  2: { rewrite (reheat_seed_directions _ _ Hseed). simpl. by rewrite Hdirs0. }
  assert (st = record st2) as ->.
  { destruct fuel; simpl in Hst; unfold guard in Hst; simpl in Hst;
      rewrite Hq2 in Hst; simpl in Hst; by injection Hst as <-. }
  by rewrite Hrec, Hstates, Hcube2.
Qed.

End Isolated.

(** ** The queues along a run *)

(** The cells of a lattice of size [n]. *)
Definition cells (n : Z) : list (Z * Z * Z) :=
  list_prod (list_prod (seqZ 0 n) (seqZ 0 n)) (seqZ 0 n).

Lemma elem_of_cells n c : in_cube n c → c ∈ cells n.
Proof.
  destruct c as [[x y] z]. simpl. intros (Hx & Hy & Hz).
  unfold cells. apply list_elem_of_In, in_prod; [apply in_prod|];
    apply list_elem_of_In, elem_of_seqZ; lia.
Qed.

Lemma length_cells n : 0 ≤ n → Z.of_nat (length (cells n)) = n ^ 3.
Proof.
  intros Hn. unfold cells. rewrite !length_prod, !length_seqZ.
  rewrite !Nat2Z.inj_mul, Z2Nat.id by done. lia.
Qed.

(** A list of distinct cells of the lattice has at most [n ^ 3] entries. *)
Lemma NoDup_in_cube_length n q :
  NoDup q → Forall (in_cube n) q → Z.of_nat (length q) ≤ Z.max 0 n ^ 3.
Proof.
  intros Hnodup Hq. destruct q as [|c q]; [simpl; apply Z.pow_nonneg; lia|].
  assert (0 < n) as Hn.
  { apply Forall_cons_1 in Hq as [Hc _]. destruct c as [[x y] z]. simpl in Hc. lia. }
  rewrite Z.max_r, <-length_cells by lia. apply Nat2Z.inj_le.
  apply submseteq_length, NoDup_submseteq; [done|].
  intros c' Hc'. apply elem_of_cells. by eapply (proj1 (Forall_forall _ _) Hq).
Qed.

Section QueuesAlong.
Context {T : Type} `{Number T}.
Context {rng : Type} (shuffle : rng → list coord → list coord * rng).
Context (self : Propagator.t T).
Implicit Types (st : state T rng) (g : rng) (c d : coord) (q : list coord).

(** X7.  A queue never holds more cells than the lattice has: at every
    instant of a run from an origin inside the lattice, each queue holds at
    most [cube_size ^ 3] coordinates. *)
Theorem queue_length_bounded g st :
  in_cube (cube_size self) (origin self) →
  instant shuffle self (in_cube (cube_size self)) g st →
  Forall (λ q, Z.of_nat (length q) ≤ cube_size self ^ 3) (propagation_queues st).
Proof.
  intros Horigin Hinst.
  assert (0 < cube_size self) as Hsize.
  { destruct (origin self) as [[x y] z]. simpl in Horigin. lia. }
  assert (Forall (Forall (in_cube (cube_size self))) (propagation_queues st)) as Hin
    by (by eapply instant_queues).
  assert (Forall NoDup (propagation_queues st)) as Hnodup.
  { destruct Hinst as (st0 & Hst0 & Hmoves).
    assert (Forall NoDup (propagation_queues st0)) as Hinit.
    { rewrite (initial_state_queues _ _ _ Hst0).
      apply Forall_singleton, NoDup_singleton. }
    clear Hst0 Hin. induction Hmoves as [|st0 st1 st Hmove _ IH]; [done|].
    apply IH. by eapply move_NoDup. }
  apply Forall_forall. intros q Hq.
  rewrite <-(Z.max_r 0 (cube_size self)) by lia.
  apply NoDup_in_cube_length.
  - by eapply (proj1 (Forall_forall _ _) Hnodup).
  - by eapply (proj1 (Forall_forall _ _) Hin).
Qed.

(** A turn of queue [i] touches no other queue. *)
Lemma process_cell_queues i st st' :
  process_cell shuffle self i st = Ok st' →
  ∃ q q', propagation_queues st !! i = Some q ∧
          propagation_queues st' = <[i := q']> (propagation_queues st).
Proof.
  unfold process_cell. intros Hrun.
  apply bind_Ok in Hrun as (q & Hq%queue_at_Ok & Hrun). exists q.
  destruct q as [|c q0].
  { injection Hrun as <-. exists []. by rewrite list_insert_id. }
  set (st1 := shuffle_directions shuffle _) in Hrun.
  apply (for_each_invariant _
           (λ t, ∃ q', propagation_queues t = <[i := q']> (propagation_queues st)))
    in Hrun as [q' Hq']; [by exists q'| |].
  - intros d t t' _ [q1 Hq1] [-> | Ht]%visit_Ok; [by exists q1|].
    apply transfers_queues in Ht as (q2 & c' & _ & _ & _ & ->).
    exists (q2 ++ [c']). by rewrite Hq1, list_insert_insert_eq.
  - exists q0. unfold st1. by rewrite shuffle_directions_queues.
Qed.

(** After its turn a queue is removed if it is empty: no empty queue is
    left, and no queue is added. *)
Lemma process_queue_no_empty i st st' :
  Forall (λ q, q ≠ []) (propagation_queues st) →
  process_queue shuffle self i st = Ok st' →
  Forall (λ q, q ≠ []) (propagation_queues st') ∧
  (length (propagation_queues st') ≤ length (propagation_queues st))%nat.
Proof.
  intros Hst Hrun. unfold process_queue in Hrun.
  apply bind_Ok in Hrun as (st1 & Hst1 & Hrun).
  apply process_cell_queues in Hst1 as (q & q' & Hq & Hq1).
  unfold drop_if_empty in Hrun.
  apply bind_Ok in Hrun as (r & Hr%queue_at_Ok & Hrun).
  rewrite Hq1, list_lookup_insert_eq in Hr by (by eapply lookup_lt_Some).
  injection Hr as <-. destruct q' as [|c q']; injection Hrun as <-.
  - cbn [propagation_queues with_queues]. rewrite Hq1, delete_insert_same. split.
    + by apply Forall_delete.
    + rewrite length_delete by (by eexists). lia.
  - rewrite Hq1, length_insert. split; [|done]. by apply Forall_insert.
Qed.

(** X6.  At every top of the loop no queue is empty (a queue that its turn
    leaves empty is removed in the same pass), and there are at most
    [iterations + 1] queues (a pass adds one at most). *)
Theorem queues_at_top g st :
  at_top shuffle self g st →
  Forall (λ q, q ≠ []) (propagation_queues st) ∧
  Z.of_nat (length (propagation_queues st)) ≤ iterations st + 1.
Proof.
  induction 1 as [st0 Hst0 | st st' _ [IH1 IH2] _ Hstep].
  - rewrite (initial_state_queues _ _ _ Hst0).
    apply initial_state_counters in Hst0 as [= _ _ ->].
    split; [by apply Forall_singleton | simpl; lia].
  - apply step_completed in Hstep
      as (st1 & st2 & Hseed & _ & Hpass & Hst' & _ & _ & Hit).
    rewrite Hit, Hst'. cbn [propagation_queues record].
    assert (Forall (λ q, q ≠ []) (propagation_queues st1) ∧
            (length (propagation_queues st1) ≤ S (length (propagation_queues st)))%nat)
      as [Hne1 Hlen1].
    { apply reheat_seed_queues in Hseed as [-> | ->]; simpl.
      - split; [done | lia].
      - split; [|rewrite length_app; simpl; lia].
        apply Forall_app. split; [done|]. by apply Forall_singleton. }
    apply (for_each_invariant _
             (λ t, Forall (λ q, q ≠ []) (propagation_queues t) ∧
                   (length (propagation_queues t) ≤ length (propagation_queues st1))%nat))
      in Hpass as [Hne2 Hlen2]; [split; [done|lia]| |done].
    intros i t t' _ [Hne Hlen] Hq.
    apply process_queue_no_empty in Hq as [Hne' Hlen']; [|done]. split; [done|lia].
Qed.

(** Where the loop stops: every queue is an empty list, or the cap is
    reached with one snapshot for each pass. *)
Lemma run_loop_end fuel st st' :
  Z.of_nat (length (cube_states st)) = iterations st →
  (remaining self st ≤ fuel)%nat →
  run_loop shuffle self fuel st = Ok st' →
  Forall (λ q, q = []) (propagation_queues st') ∨
  max_iterations self ≤ iterations st' ∧
  Z.of_nat (length (cube_states st')) = iterations st'.
Proof.
  revert st. induction fuel as [|fuel IH]; intros st Hlen Hfuel Hrun;
    simpl in Hrun; destruct (guard self st) eqn:Hguard.
  - apply guard_remaining in Hguard. lia.
  - injection Hrun as <-. apply andb_false_iff in Hguard as [Hq | Hit].
    + left. apply negb_false_iff, bool_decide_eq_true in Hq. by rewrite Hq.
    + right. apply Z.ltb_ge in Hit. done.
  - apply bind_Ok in Hrun as ([st1 broke] & Hstep & Hrun). destruct broke.
    + injection Hrun as <-. left.
      apply step_broke in Hstep as (st2 & _ & _ & -> & _).
      simpl. apply Forall_fmap, Forall_true. done.
    + apply step_completed in Hstep as (st2 & st3 & _ & _ & _ & _ & Hst & _ & Hit).
      apply IH in Hrun; [done| |].
      * rewrite Hst, length_app, Hit. simpl. lia.
      * apply guard_remaining in Hguard. unfold remaining in *. lia.
  - injection Hrun as <-. apply andb_false_iff in Hguard as [Hq | Hit].
    + left. apply negb_false_iff, bool_decide_eq_true in Hq. by rewrite Hq.
    + right. apply Z.ltb_ge in Hit. done.
Qed.

(** X5.  A run that returns fewer snapshots than [max_iterations] was not
    cut by the cap: when its loop ended no queue held a cell (the run
    converged, or it stalled). *)
Theorem fewer_snapshots_queues_idle g states :
  propagate shuffle self g = Ok states →
  Z.of_nat (length states) < max_iterations self →
  ∃ st0 st,
    initial_state self g = Ok st0 ∧
    run_loop shuffle self (Z.to_nat (max_iterations self)) st0 = Ok st ∧
    cube_states st = states ∧
    Forall (λ q, q = []) (propagation_queues st).
Proof.
  unfold propagate. intros Hrun Hlen.
  apply bind_Ok in Hrun as (st0 & Hst0 & Hrun).
  apply bind_Ok in Hrun as (st & Hst & Hfin).
  apply finish_Ok in Hfin as [-> _].
  exists st0, st. split_and!; try done.
  apply initial_state_counters in Hst0 as [= Hstates _ Hit].
  apply run_loop_end in Hst as [Hidle | [Hcap Hcount]]; [done|lia|..].
  - by rewrite Hstates, Hit.
  - unfold remaining. rewrite Hit. lia.
Qed.

End QueuesAlong.

(** ** The directions *)

Section Directions.
Context {T : Type} `{Number T}.
Context {rng : Type} (shuffle : rng → list coord → list coord * rng).
Context (shuffle_perm : ∀ g l, (shuffle g l).1 ≡ₚ l).
Context (self : Propagator.t T).
Implicit Types (st : state T rng) (g : rng).

Lemma move_directions ok st st' :
  move shuffle self ok st st' → directions st' ≡ₚ directions st.
Proof.
  intros Hmove. destruct Hmove as
    [st | st st' Hseed | st | i c q st Hq | st | i c d st st' _ Hvisit
    | i st st' Hdrop | st]; simpl; try done.
  - by rewrite (reheat_seed_directions _ _ _ Hseed).
  - unfold shuffle_directions.
    pose proof (shuffle_perm (gen st) (directions st)) as Hp.
    by destruct (shuffle (gen st) (directions st)).
  - apply visit_Ok in Hvisit as [-> | Ht]; [done|].
    destruct Ht as (q & cur & nb & st1 & st2 & c' & _ & _ & _ & _ & _ & _ & Ht & ->).
    simpl. destruct Ht as [(_ & _ & Hst1 & Hst2) | (_ & _ & Hst1 & Hst2)].
    + apply cube_isub_Ok in Hst1 as (? & ? & _ & _ & ->).
      by apply cube_iadd_Ok in Hst2 as (? & ? & _ & _ & ->).
    + apply cube_iadd_Ok in Hst1 as (? & ? & _ & _ & ->).
      by apply cube_isub_Ok in Hst2 as (? & ? & _ & _ & ->).
  - unfold drop_if_empty in Hdrop. inv_result. by destruct r; inv_result.
Qed.

(** X8.  [random.shuffle] is all that touches [directions]: at every
    instant of a run the list holds the six unit vectors, each once, so
    that every cell taken from a queue tries each of its six neighbours
    once. *)
Theorem directions_stay_six g st :
  instant shuffle self (λ _, True) g st → directions st ≡ₚ six.
Proof.
  intros (st0 & Hst0 & Hmoves).
  assert (directions st0 ≡ₚ six) as Hinit.
  { unfold initial_state in Hst0. by inv_result. }
  clear Hst0. induction Hmoves as [|st0 st1 st Hmove _ IH]; [done|].
  apply IH. by rewrite (move_directions _ _ _ Hmove).
Qed.

End Directions.

(** ** The kernel in exact arithmetic *)

(** A conductor whose step is damped: no parameter is negative, the
    divisors are not zero, and [k * conduction_time] is at most
    [rho * c_p * delta_x ** 2]. *)
Definition damped (hc : HeatConductor.t Q) : Prop :=
  (0 <= HeatConductor.k hc ∧ 0 <= HeatConductor.conduction_time hc ∧
   0 < HeatConductor.rho hc ∧ 0 < HeatConductor.c_p hc ∧
   0 < HeatConductor.delta_x hc ∧ ¬ HeatConductor.a hc == 0 ∧
   HeatConductor.k hc * HeatConductor.conduction_time hc <=
   HeatConductor.rho hc * HeatConductor.c_p hc *
   (HeatConductor.delta_x hc * HeatConductor.delta_x hc))%Q.

(** What a damped conductor moves is a fraction of the difference of the
    two temperatures, against it. *)
Lemma damped_fraction hc t1 t2 :
  damped hc →
  ∃ f, (0 <= f ∧ f <= 1 ∧
        HeatConductor.calculate_temperature_change hc t1 t2 == - (f * (t1 - t2)))%Q.
Proof.
  intros (Hk & Hct & Hrho & Hcp & Hdx & Ha & Hle).
  unfold HeatConductor.calculate_temperature_change.
  destruct (_ <? _)%num.
  { exists 0%Q. change 0%num with 0%Q. split_and!; [done..|ring]. }
  unfold HeatConductor.delta_temp. destruct hc as [k c_p rho md ct dx a].
  cbn -[Qmult Qdiv Qplus Qminus Qopp Qle Qlt Qeq] in *.
  set (D := (rho * c_p * (dx * dx))%Q) in *.
  assert (0 < D)%Q as HD.
  { unfold D. repeat apply Qmult_lt_0_compat; done. }
  exists (k * ct / D)%Q. split_and!.
  - apply Qle_shift_div_l; [done|]. rewrite Qmult_0_l. by apply Qmult_le_0_compat.
  - apply Qle_shift_div_r; [done|]. by rewrite Qmult_1_l.
  - unfold D. field. split_and!; try done; lra.
Qed.

(** X9.  In exact arithmetic a damped conductor never moves more than the
    difference of the two temperatures, and what it moves has the sign of
    a flow from the warmer cell to the cooler one. *)
Theorem damped_kernel_within_difference hc t1 t2 :
  damped hc →
  (Qabs (HeatConductor.calculate_temperature_change hc t1 t2) <= Qabs (t1 - t2) ∧
   (t2 <= t1 → HeatConductor.calculate_temperature_change hc t1 t2 <= 0) ∧
   (t1 <= t2 → 0 <= HeatConductor.calculate_temperature_change hc t1 t2))%Q.
Proof.
  intros (f & H0 & H1 & ->)%(damped_fraction _ t1 t2). split_and!.
  - apply Qabs_Qle_condition.
    destruct (Qlt_le_dec (t1 - t2) 0) as [Hneg | Hpos].
    + rewrite (Qabs_neg (t1 - t2)) by lra. nra.
    + rewrite (Qabs_pos (t1 - t2)) by done. nra.
  - intros Ht. nra.
  - intros Ht. nra.
Qed.

(** ** Witnesses *)

Lemma keep_order_perm g l : (keep_order g l).1 ≡ₚ l.
Proof. done. Qed.

(** [Propagator(cube_size=1, origin=(0, 0, 0), start_temp=0, end_temp=5,
    increment=1, delay=1, max_iterations=5, delta_tolerance=0.1,
    heat_conductor=HeatConductor())]: one cell, far from its end
    temperature. *)
Definition lone_cell : Propagator.t float :=
  Propagator.Build 1 (0, 0, 0) 0%float 5%float 1%float 1 5 0.1%float aluminium.

Lemma propagate_outcome_witness :
  ∃ st0 st1 : state float unit,
    initial_state (scenario 1 3) tt = Ok st0 ∧
    reheat_seed (scenario 1 3) (tick st0) = Ok st1 ∧
    if (0 <? max_iterations (scenario 1 3)) &&
       negb (all_close (scenario 1 3) (cube st1))
    then ∃ states, propagate keep_order (scenario 1 3) tt = Ok states ∧ states ≠ []
    else propagate keep_order (scenario 1 3) tt = Err IndexError.
Proof.
  apply (propagate_outcome keep_order (scenario 1 3) tt).
  - simpl. lia.
  - discriminate.
Defined.

Lemma zero_delay_raises_witness :
  propagate keep_order (scenario 0 3) tt = Err ZeroDivisionError.
Proof.
  apply (zero_delay_raises keep_order (scenario 0 3) tt).
  - simpl. lia.
  - reflexivity.
  - reflexivity.
Defined.

Lemma isolated_origin_one_snapshot_witness :
  ∃ st0 st1 : state float unit,
    initial_state lone_cell tt = Ok st0 ∧
    reheat_seed lone_cell (tick st0) = Ok st1 ∧
    propagate keep_order lone_cell tt = Ok [cube st1].
Proof.
  assert (isolated lone_cell) as Hisolated.
  { intros d Hd.
    repeat (apply elem_of_cons in Hd as [-> | Hd]; [vm_compute; reflexivity|]).
    by apply elem_of_nil in Hd. }
  eassert (propagate keep_order lone_cell tt = Ok _) as Hrun
    by (vm_compute; reflexivity).
  destruct (isolated_origin_one_snapshot keep_order keep_order_perm lone_cell tt _
              Hisolated Hrun) as (st0 & st1 & Hst0 & Hst1 & Heq).
  exists st0, st1. split; [exact Hst0|]. split; [exact Hst1|].
  rewrite <-Heq. exact Hrun.
Defined.

Lemma fewer_snapshots_queues_idle_witness :
  ∃ st0 st : state float unit,
    initial_state lone_cell tt = Ok st0 ∧
    run_loop keep_order lone_cell 5 st0 = Ok st ∧
    Forall (λ q, q = []) (propagation_queues st).
Proof.
  eassert (propagate keep_order lone_cell tt = Ok _) as Hrun
    by (vm_compute; reflexivity).
  destruct (fewer_snapshots_queues_idle keep_order lone_cell tt _ Hrun)
    as (st0 & st & Hst0 & Hst & _ & Hidle); [reflexivity|].
  exists st0, st. split; [exact Hst0|]. split; [exact Hst | exact Hidle].
Defined.

Lemma queues_at_top_witness :
  ∃ st : state float unit,
    at_top keep_order (scenario 1 3) tt st ∧ iterations st = 1 ∧
    Forall (λ q, q ≠ []) (propagation_queues st) ∧
    Z.of_nat (length (propagation_queues st)) ≤ iterations st + 1.
Proof.
  eassert (at_top keep_order (scenario 1 3) tt _) as Htop.
  { eapply at_top_step.
    - eapply at_top_init. vm_compute. reflexivity.
    - vm_compute. reflexivity.
    - vm_compute. reflexivity. }
  eexists. split; [exact Htop|]. split; [reflexivity|].
  exact (queues_at_top keep_order (scenario 1 3) tt _ Htop).
Defined.

Lemma queue_length_bounded_witness :
  ∃ st0 st : state float unit,
    initial_state (scenario 1 3) tt = Ok st0 ∧
    run_loop keep_order (scenario 1 3) 3 st0 = Ok st ∧
    Forall (λ q, Z.of_nat (length q) ≤ 2 ^ 3) (propagation_queues st).
Proof.
  eexists _, _. split; [vm_compute; reflexivity|]. split; [vm_compute; reflexivity|].
  apply (queue_length_bounded keep_order (scenario 1 3) tt).
  - simpl. lia.
  - eapply (run_loop_instant keep_order (scenario 1 3) (in_cube 2) tt 3).
    + simpl. lia.
    + intros c Hc. exact Hc.
    + vm_compute. reflexivity.
    + vm_compute. reflexivity.
Defined.

Lemma directions_stay_six_witness :
  ∃ st0 st : state float unit,
    initial_state (scenario 1 3) tt = Ok st0 ∧
    run_loop keep_order (scenario 1 3) 3 st0 = Ok st ∧
    directions st ≡ₚ six.
Proof.
  eexists _, _. split; [vm_compute; reflexivity|]. split; [vm_compute; reflexivity|].
  apply (directions_stay_six keep_order keep_order_perm (scenario 1 3) tt).
  eapply (run_loop_instant keep_order (scenario 1 3) (λ _, True) tt 3).
  - exact I.
  - intros c _. exact I.
  - vm_compute. reflexivity.
  - vm_compute. reflexivity.
Defined.

Lemma damped_aluminium : damped aluminium_exact.
Proof. repeat split; vm_compute; try reflexivity; discriminate. Defined.

Lemma damped_kernel_within_difference_witness :
  (Qabs (HeatConductor.calculate_temperature_change aluminium_exact 1 0)
   <= Qabs (1 - 0) ∧
   (0 <= 1 → HeatConductor.calculate_temperature_change aluminium_exact 1 0 <= 0) ∧
   (1 <= 0 → 0 <= HeatConductor.calculate_temperature_change aluminium_exact 1 0))%Q.
Proof. apply damped_kernel_within_difference, damped_aluminium. Defined.
